(** * RF-tools-KiCAD, via fence generator: geometry engine and clearance filter

    A shallow embedding of [viafence.py] (path primitives, fence path
    splitting, via distribution, multi-row generation, arc segment count) and
    of the overlap and de-duplication helpers of [viafence_action.py].

    Numbers.  Python's [float] values are idealised as real numbers ([R]):
    rounding error, infinities and NaN are not modelled.  Python's [int]
    values are [Z].  List indices are [Z], because the code relies on
    Python's negative indices ([path[-1]], [fixPointIdxList = [0] + ... +
    [-1]]).

    Errors.  Python exceptions are explicit: a computation that may raise
    returns [py A], which is either [Ok a] or [Raise e]. *)

From Stdlib Require Import Reals Lra Lia ZArith List Bool Sorted Ascii.
Import ListNotations.
Local Open Scope R_scope.

(* ===================================================================== *)
(** * Python prelude *)
(* ===================================================================== *)

Module Py.

(** The two exceptions the geometry code can raise. *)
Inductive exn : Type :=
| IndexError
| ZeroDivisionError.

Inductive py (A : Type) : Type :=
| Ok (a : A)
| Raise (e : exn).

Arguments Ok {A} a.
Arguments Raise {A} e.

Definition bind {A B : Type} (m : py A) (f : A -> py B) : py B :=
  match m with
  | Ok a => f a
  | Raise e => Raise e
  end.

Definition raises {A : Type} (m : py A) : Prop :=
  exists e, m = Raise e.

(** [[f(a) for a in l]] where [f] may raise: the first exception wins. *)
Fixpoint mapM {A B : Type} (f : A -> py B) (l : list A) : py (list B) :=
  match l with
  | [] => Ok []
  | a :: l' =>
      bind (f a) (fun b => bind (mapM f l') (fun bs => Ok (b :: bs)))
  end.

(** [l[i]] with Python's negative indices. *)
Definition index {A : Type} (l : list A) (i : Z) : py A :=
  let n := Z.of_nat (length l) in
  let j := if (i <? 0)%Z then (i + n)%Z else i in
  if (j <? 0)%Z then Raise IndexError
  else match nth_error l (Z.to_nat j) with
       | Some a => Ok a
       | None => Raise IndexError
       end.

(** [range(a, b)] *)
Definition range (a b : Z) : list Z :=
  map (fun k => (a + Z.of_nat k)%Z) (seq 0 (Z.to_nat (b - a))).

(** Comparisons of reals as booleans. *)
Definition ltb (a b : R) : bool := if Rlt_dec a b then true else false.
Definition leb (a b : R) : bool := if Rle_dec a b then true else false.
Definition eqb (a b : R) : bool := if Req_dec_T a b then true else false.

(** [int(x)]: truncation toward zero. *)
Definition int (x : R) : Z := if Rle_dec 0 x then Zfloor x else Zceil x.

(** [round(x)] of Python 3: to the nearest integer, ties to the even one. *)
Definition round (x : R) : Z :=
  let n := Zfloor x in
  let d := x - IZR n in
  if Rlt_dec d (1 / 2) then n
  else if Rlt_dec (1 / 2) d then (n + 1)%Z
  else if Z.even n then n else (n + 1)%Z.

(** [math.hypot] *)
Definition hypot (x y : R) : R := sqrt (x * x + y * y).

(** [math.atan2(y, x)], the angle of the vector [(x, y)] in [(-PI, PI]]. *)
Definition atan2 (y x : R) : R :=
  if Rlt_dec 0 x then atan (y / x)
  else if Rlt_dec x 0 then
         if Rle_dec 0 y then atan (y / x) + PI else atan (y / x) - PI
  else if Rlt_dec 0 y then PI / 2
  else if Rlt_dec y 0 then - (PI / 2)
  else 0.

(** [bisect.bisect_left(a, x)] of the Python library, by its documented
    result on a sorted list: the insertion point [i] with every element of
    [a[:i]] less than [x] and every element of [a[i:]] not less than [x],
    that is the index of the first element that is not less than [x], and
    [len(a)] when there is none.  The list searched here is the cumulative
    distance vector, which is sorted. *)
Fixpoint bisect_left (a : list R) (x : R) : nat :=
  match a with
  | [] => O
  | h :: t => if Rlt_dec h x then S (bisect_left t x) else O
  end.

(** [a // b] on floats: the floor of the quotient. *)
Definition floordiv (a b : R) : py R :=
  if Req_dec_T b 0 then Raise ZeroDivisionError
  else Ok (IZR (Zfloor (a / b))).

(** [round(x, ndigits)]: to the nearest multiple of [10 ** -ndigits]. *)
Definition round_ndigits (x : R) (ndigits : nat) : R :=
  IZR (round (x * 10 ^ ndigits)) / 10 ^ ndigits.

End Py.

Import Py.

Notation "x <- m ;; k" := (Py.bind m (fun x => k))
  (at level 61, m at next level, right associativity).

(* ===================================================================== *)
(** * viafence.py: path primitives *)
(* ===================================================================== *)

Module ViaFence.

(** A vertex [[x, y]]. *)
Definition Point : Type := (R * R)%type.
Definition Path : Type := list Point.

Definition Point_eq_dec (p q : Point) : {p = q} + {p <> q}.
Proof.
  destruct p as [px py], q as [qx qy].
  destruct (Req_dec_T px qx) as [Hx | Hx];
    [destruct (Req_dec_T py qy) as [Hy | Hy] |].
  - left; congruence.
  - right; congruence.
  - right; congruence.
Defined.

(** [getLineSlope([a, b])] *)
Definition getLineSlope (a b : Point) : R :=
  atan2 (snd a - snd b) (fst a - fst b).

(** [getLineLength([a, b])]: the call sites in [getPathCumDist] build the
    two-element list themselves. *)
Definition lineLength (a b : Point) : R :=
  hypot (fst a - fst b) (snd a - snd b).

(** [getLineLength(line)] on a list: it reads [line[0]] and [line[1]] and
    nothing else. *)
Definition getLineLength (line : list Point) : py R :=
  a <- index line 0 ;;
  b <- index line 1 ;;
  Ok (lineLength a b).

(** [getSubPath(path, pathSpec)] with [pathSpec = [startIdx, stopIdx]].
    [i % listModulus] raises when the path is empty. *)
Definition getSubPath (path : Path) (pathSpec : Z * Z) : py Path :=
  let listModulus := Z.of_nat (length path) in
  let start := fst pathSpec in
  let stop := if (snd pathSpec <? start)%Z
              then (snd pathSpec + listModulus)%Z else snd pathSpec in
  mapM (fun i => if (listModulus =? 0)%Z then Raise ZeroDivisionError
                 else index path (i mod listModulus)%Z)
       (range start (stop + 1)).

(** [getSubPaths(path, pathSpecList)] *)
Definition getSubPaths (path : Path) (pathSpecList : list (Z * Z))
  : py (list Path) :=
  mapM (getSubPath path)
       (filter (fun spec => negb (fst spec =? snd spec)%Z) pathSpecList).

(** Consecutive pairs [[l[i], l[i+1]]] for [i] in [range(0, len(l)-1)]. *)
Fixpoint consecutive {A : Type} (l : list A) : list (A * A) :=
  match l with
  | a :: (b :: _) as l' => (a, b) :: consecutive l'
  | _ => []
  end.

(** [splitPathByPoints(path, splitList)] *)
Definition splitPathByPoints (path : Path) (splitList : list Z)
  : py (list Path) :=
  getSubPaths path (consecutive splitList).

(** [splitPathByPaths(path, splitList)]: every element of [splitList] is a
    pair [[fromIdx, toIdx]]; element [item] is paired with its cyclic
    successor. *)
Definition splitPathByPaths (path : Path) (splitList : list (Z * Z))
  : py (list Path) :=
  let n := length splitList in
  let pathSpecList :=
    map (fun item =>
           (snd (nth item splitList (0, 0)%Z),
            fst (nth (Nat.modulo (item + 1) n) splitList (0, 0)%Z)))
        (seq 0 n) in
  getSubPaths path pathSpecList.

(** The loop of [getPathCumDist]: [acc] is [cumDist[-1]], [prev] the
    previous vertex. *)
Fixpoint cumDistFrom (acc : R) (prev : Point) (rest : Path) : list R :=
  match rest with
  | [] => []
  | p :: rest' =>
      let d := acc + lineLength p prev in
      d :: cumDistFrom d p rest'
  end.

(** [getPathCumDist(path)] *)
Definition getPathCumDist (path : Path) : list R :=
  0 :: match path with
       | [] => []
       | p0 :: rest => cumDistFrom 0 p0 rest
       end.

(** The vertex at a position that the loops below keep in range. *)
Definition vertex (path : Path) (i : nat) : Point := nth i path (0, 0).

(** [abs(prevSlope - nextSlope) - math.pi] at vertex [idx]. *)
Definition deviationAngle (path : Path) (idx : nat) : R :=
  let prevSlope := getLineSlope (vertex path (idx + 1)) (vertex path idx) in
  let nextSlope := getLineSlope (vertex path (idx - 1)) (vertex path idx) in
  Rabs (prevSlope - nextSlope) - PI.

(** [getPathVertices(path, angleTolerance)]: the indices in
    [range(1, len(path)-1)] whose deviation exceeds the tolerance. *)
Definition getPathVertices (path : Path) (angleTolerance : R) : list Z :=
  let tol := angleTolerance * PI / 180 in
  map Z.of_nat
      (filter (fun idx => ltb tol (Rabs (deviationAngle path idx)))
              (seq 1 (length path - 2))).

(** [filterSharpJunctions(path, vertexIndices)].  The [try] block cannot
    raise: an index that reaches it has both neighbours in the path. *)
Definition sharp_angle_deg : R := 85.

Definition filterSharpJunctions (path : Path) (vertexIndices : list Z)
  : list Z :=
  if (length vertexIndices <? 2)%nat then vertexIndices
  else
    let sharp_angle_rad := sharp_angle_deg * PI / 180 in
    filter (fun idx =>
              if ((idx <=? 0) || (Z.of_nat (length path) - 1 <=? idx))%Z
              then true
              else ltb (Rabs (deviationAngle path (Z.to_nat idx)))
                       sharp_angle_rad)
           vertexIndices.

(** [isPointOnLine(point, [l0, l1])] *)
Definition isPointOnLine (point l0 l1 : Point) : bool :=
  let cross := (snd l1 - snd point) * (fst l0 - fst point)
               - (fst l1 - fst point) * (snd l0 - snd point) in
  ((leb (fst l0) (fst point) && leb (fst point) (fst l1))
   || (leb (fst l1) (fst point) && leb (fst point) (fst l0)))
  && ((leb (snd l0) (snd point) && leb (snd point) (snd l1))
      || (leb (snd l1) (snd point) && leb (snd point) (snd l0)))
  && eqb cross 0.

(** [getPathsThroughPoints(path, pointList)]: the closed polygon's edges
    [[fromIdx, toIdx]] on which some point of [pointList] lies. *)
Definition getPathsThroughPoints (path : Path) (pointList : list Point)
  : list (Z * Z) :=
  let n := length path in
  map (fun vertexIdx =>
         (Z.of_nat vertexIdx, Z.of_nat (Nat.modulo (vertexIdx + 1) n)))
      (filter (fun vertexIdx =>
                 existsb (fun point =>
                            isPointOnLine point (vertex path vertexIdx)
                              (vertex path (Nat.modulo (vertexIdx + 1) n)))
                         pointList)
              (seq 0 n)).

(* ===================================================================== *)
(** * viafence.py: interpolation and distribution *)
(* ===================================================================== *)

(** [class LinearInterpolator] *)
Record LinearInterpolator : Type := mkLinearInterpolator {
  x_list : list R;
  y_list : list R;
  slopes : list R
}.

(** [[(y2 - y1)/(x2 - x1) for x1, x2, y1, y2 in
      zip(x_list, x_list[1:], y_list, y_list[1:])]]: a division by zero
    raises. *)
Fixpoint slopesOf (xs ys : list R) : py (list R) :=
  match xs, ys with
  | x1 :: ((x2 :: _) as xs'), y1 :: ((y2 :: _) as ys') =>
      if Req_dec_T (x2 - x1) 0 then Raise ZeroDivisionError
      else s <- slopesOf xs' ys' ;; Ok ((y2 - y1) / (x2 - x1) :: s)
  | _, _ => Ok []
  end.

(** [LinearInterpolator.__init__] *)
Definition LinearInterpolator_init (xs ys : list R) : py LinearInterpolator :=
  s <- slopesOf xs ys ;; Ok (mkLinearInterpolator xs ys s).

(** [LinearInterpolator.__call__]: the index [i] may be [-1], which Python
    reads from the end of each list. *)
Definition LinearInterpolator_call (li : LinearInterpolator) (x : R) : py R :=
  let i := (Z.of_nat (bisect_left (x_list li) x) - 1)%Z in
  yi <- index (y_list li) i ;;
  si <- index (slopes li) i ;;
  xi <- index (x_list li) i ;;
  Ok (yi + si * (x - xi)).

(** [class PathInterpolator] *)
Record PathInterpolator : Type := mkPathInterpolator {
  xInterp : LinearInterpolator;
  yInterp : LinearInterpolator
}.

Definition PathInterpolator_init (t : list R) (path : Path)
  : py PathInterpolator :=
  let x := map fst path in
  let y := map snd path in
  xi <- LinearInterpolator_init t x ;;
  yi <- LinearInterpolator_init t y ;;
  Ok (mkPathInterpolator xi yi).

Definition PathInterpolator_call (pi : PathInterpolator) (t : R) : py Point :=
  x <- LinearInterpolator_call (xInterp pi) t ;;
  y <- LinearInterpolator_call (yInterp pi) t ;;
  Ok (x, y).

(** [distributeAlongPath(path, minimumSpacing)] *)
Definition distributeAlongPath (path : Path) (minimumSpacing : R)
  : py (list Point) :=
  let distList := getPathCumDist path in
  total <- index distList (-1) ;;
  if Req_dec_T minimumSpacing 0 then Raise ZeroDivisionError
  else
    let nPoints := Zfloor (total / minimumSpacing) in
    ptInterp <- PathInterpolator_init distList path ;;
    mapM (fun ptIdx =>
            PathInterpolator_call ptInterp (IZR ptIdx * total / IZR nPoints))
         (range 1 nPoints).

(* ===================================================================== *)
(** * viafence.py: leaves, trimming and fence generation *)
(* ===================================================================== *)

(** One iteration of the inner loop of [getLeafVertices], for
    [vertexIdx] in [[0, -1]]. *)
Definition leafAt (allVertices : list Point) (path : Path) (vertexIdx : Z)
  : py (list (Point * R)) :=
  leafVertex <- index path vertexIdx ;;
  if (count_occ Point_eq_dec allVertices leafVertex =? 1)%nat then
    neighbourVertex <- index path (if (vertexIdx =? 0)%Z then 1 else -2)%Z ;;
    Ok [(leafVertex, getLineSlope neighbourVertex leafVertex)]
  else Ok [].

(** [getLeafVertices(pathList)] *)
Definition getLeafVertices (pathList : list Path)
  : py (list Point * list R) :=
  let allVertices := concat pathList in
  leaves <- mapM (fun path =>
                    first <- leafAt allVertices path 0 ;;
                    last <- leafAt allVertices path (-1) ;;
                    Ok (first ++ last))
                 pathList ;;
  Ok (split (concat leaves)).

(** [transformVertices(vertexList, offset, angle)] *)
Definition transformVertices (vertexList : list Point) (offset : Point)
  (angle : R) : list Point :=
  map (fun v =>
         (IZR (round (fst offset + cos angle * fst v - sin angle * snd v)),
          IZR (round (snd offset + sin angle * fst v + cos angle * snd v))))
      vertexList.

(** The polygon operations of the pyclipper library, behind the wrappers
    [expandPathsToPolygons], [clipPolygonWithPolygons], [unionPolygons] and
    [isPointInPolygon]. *)
Record Clipper : Type := mkClipper {
  expandPathsToPolygons : list Path -> R -> list Path;
  clipPolygonWithPolygons : Path -> list Path -> list Path;
  unionPolygons : list Path -> list Path;
  isPointInPolygon : Point -> Path -> bool
}.

Section Fence.

Variable clipper : Clipper.

(** [getPathsInsidePolygon(pathList, polygon)] *)
Definition getPathsInsidePolygon (pathList : list Path) (polygon : Path)
  : list Path :=
  filter (fun path =>
            forallb (fun v => isPointInPolygon clipper v polygon) path)
         pathList.

(** [trimFlushPolygonAtVertices(path, vertexList, vertexSlopes, radius)] *)
Definition trimFlushPolygonAtVertices (path : Path) (vertexList : list Point)
  (vertexSlopes : list R) (radius : R) : list Path :=
  let const := 0.414 in
  let trimPoly :=
    [ (0, - radius); (0, 0); (0, radius); (- const * radius, radius);
      (- radius, const * radius); (- radius, - const * radius);
      (- const * radius, - radius) ] in
  let trimPolys :=
    map (fun vs => transformVertices trimPoly (fst vs) (snd vs))
        (combine vertexList vertexSlopes) in
  clipPolygonWithPolygons clipper path (unionPolygons clipper trimPolys).

(** [[path for path in pathList if getLineLength(path) > 0]] *)
Fixpoint removeZeroLengthTracks (pathList : list Path) : py (list Path) :=
  match pathList with
  | [] => Ok []
  | path :: rest =>
      len <- getLineLength path ;;
      kept <- removeZeroLengthTracks rest ;;
      Ok (if ltb 0 len then path :: kept else kept)
  end.

Definition tolerance_degree : R := 20.

(** The body of [for fencePath in fencePaths]. *)
Definition fixPointIdxList (fencePath : Path) : list Z :=
  let bendPointIdxList := getPathVertices fencePath tolerance_degree in
  let bendPointIdxList := filterSharpJunctions fencePath bendPointIdxList in
  [0%Z] ++ bendPointIdxList ++ [(-1)%Z].

Definition viasOnFencePath (fencePath : Path) (viaPitch : R)
  : py (list Point) :=
  fixPointList <- mapM (index fencePath) (fixPointIdxList fencePath) ;;
  subPaths <- splitPathByPoints fencePath (fixPointIdxList fencePath) ;;
  placed <- mapM (fun subPath => distributeAlongPath subPath viaPitch)
                 subPaths ;;
  Ok (fixPointList ++ concat placed).

(** From [buttLineIdxList = ...] to the end of the polygon's iteration. *)
Definition viasOnPolygon (offsetPoly : Path) (leafVertexList : list Point)
  (viaPitch : R) : py (list Point) :=
  let buttLineIdxList := getPathsThroughPoints offsetPoly leafVertexList in
  fencePaths <- splitPathByPaths offsetPoly buttLineIdxList ;;
  vias <- mapM (fun fencePath => viasOnFencePath fencePath viaPitch)
               fencePaths ;;
  Ok (concat vias).

(** The body of [for offsetPoly in expandPathsToPolygons(...)]: what one
    offset polygon adds to [viaPoints]. *)
Definition fencePolygon (pathList : list Path) (viaOffset viaPitch : R)
  (offsetPoly : Path) : py (list Point) :=
  let localPathList := getPathsInsidePolygon pathList offsetPoly in
  if (length localPathList =? 0)%nat then Ok []
  else
    leaves <- getLeafVertices localPathList ;;
    trimmed <- index (trimFlushPolygonAtVertices offsetPoly (fst leaves)
                        (snd leaves) (1.1 * viaOffset)) 0 ;;
    viasOnPolygon trimmed (fst leaves) viaPitch.

(** [generateViaFence(pathList, viaOffset, viaPitch)] *)
Definition generateViaFence (pathList : list Path) (viaOffset viaPitch : R)
  : py (list Point) :=
  pathList <- removeZeroLengthTracks pathList ;;
  vias <- mapM (fencePolygon pathList viaOffset viaPitch)
               (expandPathsToPolygons clipper pathList viaOffset) ;;
  Ok (concat vias).

(** The body of [for rowIdx in range(numRows)].  The branch for odd rows
    computes [half_pitch] and leaves [row_vias] as it is. *)
Definition generateRow (pathList : list Path) (viaOffset viaPitch : R)
  (rowSpacing : R) (rowIdx : Z) : py (list Point) :=
  let current_row_offset := viaOffset + IZR rowIdx * rowSpacing in
  row_vias <- generateViaFence pathList current_row_offset viaPitch ;;
  Ok (if (rowIdx mod 2 =? 1)%Z
      then let half_pitch := viaPitch / 2 in row_vias
      else row_vias).

(** [generateViaFenceMultiRow(pathList, viaOffset, viaPitch, numRows,
    rowSpacing)]; [rowSpacing = None] is the default. *)
Definition generateViaFenceMultiRow (pathList : list Path)
  (viaOffset viaPitch : R) (numRows : Z) (rowSpacing : option R)
  : py (list Point) :=
  if (numRows <=? 1)%Z then generateViaFence pathList viaOffset viaPitch
  else
    let rowSpacing := match rowSpacing with
                      | None => IZR (int (viaPitch * 1.5))
                      | Some r => r
                      end in
    rows <- mapM (generateRow pathList viaOffset viaPitch rowSpacing)
                 (range 0 numRows) ;;
    Ok (concat rows).

End Fence.

(** [calculate_adaptive_segments(radius, arc_angle, max_deviation_mm,
    min_segments)].  On real numbers nothing in the [try] block raises, so
    the [except] branch is not reached. *)
Definition calculate_adaptive_segments (radius arc_angle max_deviation_mm : R)
  (min_segments : Z) : Z :=
  if leb radius 0 || leb arc_angle 0 then min_segments
  else
    let max_dev := if ltb 100000 radius
                   then max_deviation_mm * 1000000
                   else max_deviation_mm * 10000 in
    let max_dev := Rmin max_dev (radius * 0.5) in
    if leb radius max_dev || leb max_dev 0 then min_segments
    else
      let cos_val := Rmax (-1) (Rmin 1 (1 - max_dev / radius)) in
      let angle_per_segment := 2 * acos cos_val in
      if leb angle_per_segment 0 then min_segments
      else
        let segments := Zceil (arc_angle / angle_per_segment) in
        Z.max min_segments (Z.min segments 200).

End ViaFence.

(* ===================================================================== *)
(** * viafence_action.py: de-duplication and overlap tests *)
(* ===================================================================== *)

Module ViaFenceAction.

Import ViaFence.

(** [pcbnew.wxPoint] (and [wxSize]): integer board coordinates. *)
Record wxPoint : Type := mkwxPoint { wx : Z; wy : Z }.

(** What the overlap tests read from a track, a pad and a via. *)
Record Track : Type := mkTrack {
  track_GetStart : wxPoint;
  track_GetEnd : wxPoint;
  track_GetWidth : Z
}.

Record Pad : Type := mkPad {
  pad_GetPosition : wxPoint;
  pad_GetSize : wxPoint
}.

Record Via : Type := mkVia {
  via_GetPosition : wxPoint;
  via_GetWidth : Z
}.

(** [distance(p1, p2)] *)
Definition distance (p1 p2 : wxPoint) : R :=
  hypot (IZR (wy p1 - wy p2)) (IZR (wx p1 - wx p2)).

(** [pcbnew.wxPoint(int(v[0]), int(v[1]))] *)
Definition wxPointOf (v : Point) : wxPoint :=
  mkwxPoint (int (fst v)) (int (snd v)).

(** The loop of [dedupe_points]: [unique] is the list built so far. *)
Fixpoint dedupeLoop (tol : Z) (unique points : list Point) : list Point :=
  match points with
  | [] => unique
  | v :: rest =>
      let keep :=
        negb (existsb (fun u =>
                         leb (distance (wxPointOf v) (wxPointOf u)) (IZR tol))
                      unique) in
      dedupeLoop tol (if keep then unique ++ [v] else unique) rest
  end.

(** [dedupe_points(points, tol)] *)
Definition dedupe_points (points : list Point) (tol : Z) : list Point :=
  dedupeLoop tol [] points.

(** The key [(int(v[0]), int(v[1]))] of the [seen] set in [Run]. *)
Definition key (v : Point) : Z * Z := (int (fst v), int (snd v)).

Definition key_eq_dec (a b : Z * Z) : {a = b} + {a <> b}.
Proof. decide equality; apply Z.eq_dec. Defined.

(** The loop over [combinedViaPoints] in [Run]. *)
Fixpoint uniqLoop (uniq : list Point) (seen : list (Z * Z))
  (points : list Point) : list Point :=
  match points with
  | [] => uniq
  | v :: rest =>
      if in_dec key_eq_dec (key v) seen then uniqLoop uniq seen rest
      else uniqLoop (uniq ++ [v]) (key v :: seen) rest
  end.

(** The two de-duplication steps of [Run] before the clearance filter:
    [self.viaPointsSafe = dedupe_points(uniq, int(self.viaSize * 1.05))]. *)
Definition prefilterDedupe (viaSize : Z) (combinedViaPoints : list Point)
  : list Point :=
  dedupe_points (uniqLoop [] [] combinedViaPoints)
                (int (IZR viaSize * 1.05)).

(** [point_segment_distance(point, start, end)] *)
Definition point_segment_distance (point start end_ : wxPoint) : R :=
  let dx := (wx end_ - wx start)%Z in
  let dy := (wy end_ - wy start)%Z in
  if ((dx =? 0) && (dy =? 0))%Z then distance point start
  else
    let t := IZR ((wx point - wx start) * dx + (wy point - wy start) * dy)
             / IZR (dx * dx + dy * dy) in
    let t := Rmax 0 (Rmin 1 t) in
    let cx := IZR (wx start) + t * IZR dx in
    let cy := IZR (wy start) + t * IZR dy in
    hypot (IZR (wx point) - cx) (IZR (wy point) - cy).

(** [via_track_overlaps(via_pos, via_diam, track, clearance)] *)
Definition via_track_overlaps (via_pos : Point) (via_diam : R) (track : Track)
  (clearance : R) : bool :=
  let via_pt := wxPointOf via_pos in
  let track_half := IZR (track_GetWidth track) / 2 in
  let via_radius := via_diam / 2 in
  let d := point_segment_distance via_pt (track_GetStart track)
             (track_GetEnd track) in
  let tol := via_diam * 0.1 in
  ltb d (track_half + via_radius + clearance + tol).

(** [via_pad_overlaps(via_pos, via_diam, pad, clearance)] *)
Definition via_pad_overlaps (via_pos : Point) (via_diam : R) (pad : Pad)
  (clearance : R) : bool :=
  let via_pt := wxPointOf via_pos in
  let pad_rx := IZR (wx (pad_GetSize pad)) / 2 in
  let pad_ry := IZR (wy (pad_GetSize pad)) / 2 in
  let pad_radius := hypot pad_rx pad_ry in
  let via_radius := via_diam / 2 in
  let d := distance via_pt (pad_GetPosition pad) in
  let tol := via_diam * 0.05 in
  ltb d (pad_radius + via_radius + clearance + tol).

(** [via_via_overlaps(via_pos, new_via_diam, existing_via, clearance)] *)
Definition via_via_overlaps (via_pos : Point) (new_via_diam : R)
  (existing_via : Via) (clearance : R) : bool :=
  let via_pt := wxPointOf via_pos in
  let r_new := new_via_diam / 2 in
  let r_old := IZR (via_GetWidth existing_via) / 2 in
  let d := distance via_pt (via_GetPosition existing_via) in
  let tol := new_via_diam * 0.05 in
  ltb d (r_new + r_old + clearance + tol).

(** The items of [boardObj.GetTracks()]: plain tracks, arcs and vias, each
    with its net code.  The tests [type(t) is trk_type] and
    [isinstance(t, via_type)] tell them apart. *)
Inductive TrackItem : Type :=
| PCB_TRACK (track : Track) (netCode : Z)
| PCB_ARC (track : Track) (netCode : Z)
| PCB_VIA (via : Via) (netCode : Z).

(** What the filters read from the board: its pads, its tracks and the
    clearance that the design settings report
    ([GetClearanceConstraint()], else [GetDefault().GetClearance()], else
    [0]). *)
Record Board : Type := mkBoard {
  board_GetPads : list Pad;
  board_GetTracks : list TrackItem;
  board_clearance : Z
}.

(** The attributes of the plugin object that the filters read and write.
    [self.clearance] is assigned in [checkTracks] only: it is [None] until
    [checkTracks] has run once. *)
Record Self : Type := mkSelf {
  self_viaSize : Z;
  self_viaNetId : Z;
  self_clearance : option Z;
  self_viaPointsSafe : list Point
}.

(** [[t for t in tracks if type(t) is trk_type]], with the net codes. *)
Definition plainTracks (items : list TrackItem) : list (Track * Z) :=
  flat_map (fun t => match t with
                     | PCB_TRACK track netCode => [(track, netCode)]
                     | _ => []
                     end) items.

(** [[t for t in tracks if isinstance(t, via_type)]] *)
Definition existingVias (items : list TrackItem) : list Via :=
  flat_map (fun t => match t with
                     | PCB_VIA via _ => [via]
                     | _ => []
                     end) items.

(** [p not in viasToRemove] *)
Definition notIn (p : Point) (viasToRemove : list Point) : bool :=
  negb (existsb (fun q => if Point_eq_dec p q then true else false)
                viasToRemove).

Section Pcbnew.

(** [pcbnew.FromMM(0.5)] *)
Variable FromMM_half : Z.

(** The clearance used against a track: [max(FromMM(0.5), clearance // 2)]
    on the net of the vias, the full clearance on any other net. *)
Definition extra_clearance (viaNetId clearance netCode : Z) : Z :=
  if (netCode =? viaNetId)%Z then Z.max FromMM_half (clearance / 2)
  else clearance.

(** [checkPads(self)]: the flag [removed] and the object afterwards.
    Reading [self.clearance] before [checkTracks] has set it raises
    [AttributeError] inside the [try], so nothing is appended. *)
Definition checkPads (board : Board) (self : Self) : bool * Self :=
  let viasToRemove :=
    flat_map
      (fun pad =>
         filter (fun viaPos =>
                   match self_clearance self with
                   | Some clearance =>
                       via_pad_overlaps viaPos (IZR (self_viaSize self)) pad
                                        (IZR clearance)
                   | None => false
                   end)
                (self_viaPointsSafe self))
      (board_GetPads board) in
  match viasToRemove with
  | [] => (false, self)
  | _ :: _ =>
      (true,
       mkSelf (self_viaSize self) (self_viaNetId self) (self_clearance self)
              (filter (fun p => notIn p viasToRemove)
                      (self_viaPointsSafe self)))
  end.

(** [checkTracks(self)] *)
Definition checkTracks (board : Board) (self : Self) : bool * Self :=
  let clearance := board_clearance board in
  let viasToRemove :=
    flat_map
      (fun track =>
         filter (fun viaPos =>
                   via_track_overlaps viaPos (IZR (self_viaSize self))
                     (fst track)
                     (IZR (extra_clearance (self_viaNetId self) clearance
                             (snd track))))
                (self_viaPointsSafe self))
      (plainTracks (board_GetTracks board)) in
  match viasToRemove with
  | [] =>
      (false,
       mkSelf (self_viaSize self) (self_viaNetId self) (Some clearance)
              (self_viaPointsSafe self))
  | _ :: _ =>
      (true,
       mkSelf (self_viaSize self) (self_viaNetId self) (Some clearance)
              (filter (fun p => notIn p viasToRemove)
                      (self_viaPointsSafe self)))
  end.

(** [filter_vias_precise(self, candidate_points)] *)
Definition filter_vias_precise (board : Board) (self : Self)
  (candidate_points : list Point) : list Point :=
  let clearance := board_clearance board in
  let pads := board_GetPads board in
  let existing_vias := existingVias (board_GetTracks board) in
  let tracks := plainTracks (board_GetTracks board) in
  filter
    (fun pt =>
       if existsb (fun pad =>
                     via_pad_overlaps pt (IZR (self_viaSize self)) pad
                                      (IZR clearance)) pads
       then false
       else if existsb
                 (fun trk =>
                    via_track_overlaps pt (IZR (self_viaSize self)) (fst trk)
                      (IZR (extra_clearance (self_viaNetId self) clearance
                              (snd trk))))
                 tracks
       then false
       else negb (existsb (fun ev =>
                             via_via_overlaps pt (IZR (self_viaSize self)) ev
                                              (IZR clearance))
                          existing_vias))
    candidate_points.

(** The part of [Run] between the generation of the candidates and
    [createVias]: the two de-duplication passes, the two checks when
    [isRemoveViasWithClearanceViolationChecked] is set, and the precise
    filter.  It gives the flag [removed] and the object afterwards. *)
Definition Run_filters (board : Board) (self : Self)
  (isRemoveViasWithClearanceViolationChecked : bool)
  (combinedViaPoints : list Point) : bool * Self :=
  let self :=
    mkSelf (self_viaSize self) (self_viaNetId self) (self_clearance self)
           (prefilterDedupe (self_viaSize self) combinedViaPoints) in
  let '(removed, self) :=
    if isRemoveViasWithClearanceViolationChecked then
      let '(removed, self) := checkPads board self in
      let '(remvd, self) := checkTracks board self in
      (removed || remvd, self)
    else (false, self) in
  let before_cnt := length (self_viaPointsSafe self) in
  let viaPointsSafe :=
    filter_vias_precise board self (self_viaPointsSafe self) in
  let removed :=
    if (length viaPointsSafe <? before_cnt)%nat then true else removed in
  (removed,
   mkSelf (self_viaSize self) (self_viaNetId self) (self_clearance self)
          viaPointsSafe).

End Pcbnew.


(** Net names, as lists of characters. *)
Definition str : Type := list ascii.

Definition str_eq_dec (a b : str) : {a = b} + {a <> b} :=
  list_eq_dec ascii_dec a b.

(** [diffMap] and [regexMap] of [createNetFilterSuggestions]; the two
    dictionaries have the same keys, and [regexMap] is looked up only
    with a key of [diffMap]. *)
Definition diffMap (c : ascii) : option ascii :=
  if ascii_dec c "+" then Some "-"%char
  else if ascii_dec c "P" then Some "N"%char
  else if ascii_dec c "-" then Some "+"%char
  else if ascii_dec c "N" then Some "P"%char
  else None.

Definition regexMap (c : ascii) : str :=
  if ascii_dec c "+" then ["["; "+"; "-"; "]"]%char
  else if ascii_dec c "-" then ["["; "+"; "-"; "]"]%char
  else ["["; "P"; "N"; "]"]%char.

(** The loop of [createNetFilterSuggestions] over [netList];
    [netName[-1]] raises [IndexError] on an empty name. *)
Fixpoint suggestLoop (netList netFilterList rest : list str)
  : py (list str) :=
  match rest with
  | [] => Ok netFilterList
  | netName :: rest' =>
      match netName with
      | [] => Raise IndexError
      | _ :: _ =>
          let c := last netName "000"%char in
          let stem := removelast netName in
          let netFilterList :=
            match diffMap c with
            | Some d =>
                if in_dec str_eq_dec (stem ++ [d]) netList then
                  let filterText := stem ++ regexMap c in
                  if in_dec str_eq_dec filterText netFilterList
                  then netFilterList
                  else netFilterList ++ [filterText]
                else netFilterList
            | None => netFilterList
            end in
          suggestLoop netList (netFilterList ++ [netName]) rest'
      end
  end.

(** [createNetFilterSuggestions(self)], from the net names of
    [self.netMap]. *)
Definition createNetFilterSuggestions (netList : list str) : py (list str) :=
  suggestLoop netList [["*"%char]] netList.

End ViaFenceAction.

(* ===================================================================== *)
(** * viafence.py: arcs *)
(* ===================================================================== *)

Module ViaFenceArc.

Import ViaFenceAction.






(** [getCircleCenterRadius(sp, ep, ip)].  On real numbers [sqr_of_r] is
    a sum of two squares, so [math.sqrt] is defined on it. *)
Definition getCircleCenterRadius (sp ep ip : wxPoint) : py (wxPoint * R) :=
  let x1 := IZR (wx sp) in let y1 := IZR (wy sp) in
  let x2 := IZR (wx ep) in let y2 := IZR (wy ep) in
  let x3 := IZR (wx ip) in let y3 := IZR (wy ip) in
  let x12 := x1 - x2 in
  let x13 := x1 - x3 in
  let y12 := y1 - y2 in
  let y13 := y1 - y3 in
  let y31 := y3 - y1 in
  let y21 := y2 - y1 in
  let x31 := x3 - x1 in
  let x21 := x2 - x1 in
  let sx13 := x1 ^ 2 - x3 ^ 2 in
  let sy13 := y1 ^ 2 - y3 ^ 2 in
  let sx21 := x2 ^ 2 - x1 ^ 2 in
  let sy21 := y2 ^ 2 - y1 ^ 2 in
  f <- floordiv (sx13 * x12 + sy13 * x12 + sx21 * x13 + sy21 * x13)
                (2 * (y31 * x12 - y21 * x13)) ;;
  g <- floordiv (sx13 * y12 + sy13 * y12 + sx21 * y13 + sy21 * y13)
                (2 * (x31 * y12 - x21 * y13)) ;;
  let c := - x1 ^ 2 - y1 ^ 2 - 2 * g * x1 - 2 * f * y1 in
  let h := - g in
  let k := - f in
  let sqr_of_r := h * h + k * k - c in
  let r := round_ndigits (sqrt sqr_of_r) 5 in
  Ok (mkwxPoint (int h) (int k), r).

End ViaFenceArc.

(* ===================================================================== *)
(** * Concrete boards, paths and polygons used in the examples *)
(* ===================================================================== *)

Module Examples.

Import ViaFence ViaFenceAction.

(** A via candidate next to a track, a pad and an existing via. *)
Definition candidate : Point := (1000, 0).
Definition track : Track := mkTrack (mkwxPoint 0 0) (mkwxPoint 5000 0) 200.
Definition pad : Pad := mkPad (mkwxPoint 0 0) (mkwxPoint 400 400).
Definition via : Via := mkVia (mkwxPoint 2000 0) 600.

(** A square polygon and a leaf vertex in its interior. *)
Definition square : Path := [(0, 0); (4, 0); (4, 2); (0, 2)].
Definition innerLeaf : Point := (1, 1).

(** An L-shaped path: one unit east, then one unit north. *)
Definition elbow : Path := [(0, 0); (1, 0); (1, 1)].

(** A straight two-vertex track of length 10. *)
Definition straight : Path := [(0, 0); (10, 0)].

(** A path that doubles back at its middle vertex by about 170 degrees. *)
Definition hairpin : Path := [(0, 0); (1000, 0); (15, 174)].

(** A path whose first two vertices coincide. *)
Definition stutter : Path := [(0, 0); (0, 0); (1, 0)].

(** A single-point path. *)
Definition dot : Path := [(0, 0)].

(** An offsetter that returns no polygon, as the library does when it is
    given no path, or open paths with an offset that is not positive; the
    other operations are not reached then. *)
Definition emptyClipper : Clipper :=
  mkClipper (fun _ _ => []) (fun path _ => [path]) (fun polys => polys)
            (fun _ _ => false).

(** Two candidates one unit apart. *)
Definition nearPair : list Point := [(0, 0); (1, 0)].

(** The interpolators of the two example paths. *)
Definition elbowInterpolator : PathInterpolator :=
  mkPathInterpolator
    (mkLinearInterpolator [0; 1; 2] [0; 1; 1]
       [(1 - 0) / (1 - 0); (1 - 1) / (2 - 1)])
    (mkLinearInterpolator [0; 1; 2] [0; 0; 1]
       [(0 - 0) / (1 - 0); (1 - 0) / (2 - 1)]).

Definition straightInterpolator : PathInterpolator :=
  mkPathInterpolator
    (mkLinearInterpolator [0; 10] [0; 10] [(10 - 0) / (10 - 0)])
    (mkLinearInterpolator [0; 10] [0; 0] [(0 - 0) / (10 - 0)]).

(** A stand-in for the polygon library on the track [straight]: the
    offsetter returns the bounding rectangle at the given offset (square
    caps in place of round ones), trimming cuts the rectangle flush at the
    two ends of the track, and the track lies inside its polygon. *)
Definition straightClipper : Clipper :=
  mkClipper
    (fun _ offset =>
       [[(0 - offset, - offset); (10 + offset, - offset);
         (10 + offset, offset); (0 - offset, offset)]])
    (fun path _ => [map (fun v => (Rmax 0 (Rmin 10 (fst v)), snd v)) path])
    (fun polys => polys)
    (fun _ _ => true).

(** What single-row generation returns for [straight] at offset [o] and
    pitch 3: the two fence paths, each with its end points first and its
    two interior candidates after them. *)
Definition straightRow (o : R) : list Point :=
  [(10, o); (0, o); (10 - 10 / 3, o); (10 - 20 / 3, o);
   (0, - o); (10, - o); (10 / 3, - o); (20 / 3, - o)].

(** A board with the pad, the track (on net 1) and the via above, and a
    clearance of 200 units. *)
Definition board : Board :=
  mkBoard [pad] [PCB_TRACK track 1; PCB_VIA via 0] 200.

(** What single-row generation returns for [straight] at offset [o] and
    pitch [p]: for each of the two fence paths its two end points, then
    its interior candidates. *)
Definition straightRowAt (o p : R) : list Point :=
  let n := Zfloor (10 / p) in
  ([(10, o); (0, o)]
   ++ map (fun k => (10 - IZR k * 10 / IZR n, o)) (range 1 n))
  ++ ([(0, - o); (10, - o)]
      ++ map (fun k => (IZR k * 10 / IZR n, - o)) (range 1 n)).

End Examples.

(* ===================================================================== *)
(** * Predicates used in the statements *)
(* ===================================================================== *)

Module Specs.

Import ViaFence ViaFenceAction.

(** No polygon edge passes through a point of [pointList]. *)
Definition noEdgeThrough (path : Path) (pointList : list Point) : Prop :=
  forall vertexIdx point,
    (vertexIdx < length path)%nat -> In point pointList ->
    isPointOnLine point (vertex path vertexIdx)
      (vertex path (Nat.modulo (vertexIdx + 1) (length path))) = false.

(** Any two candidates of the list are more than [tol] apart. *)
Definition separated (tol : Z) (l : list Point) : Prop :=
  ForallOrdPairs
    (fun a b => IZR tol < distance (wxPointOf a) (wxPointOf b)) l.

(** A strictly increasing list of distances. *)
Fixpoint increasing (l : list R) : Prop :=
  match l with
  | a :: ((b :: _) as l') => a < b /\ increasing l'
  | _ => True
  end.

(** No two consecutive vertices of the path coincide: the path has no
    segment of length zero. *)
Fixpoint noZeroSegment (path : Path) : Prop :=
  match path with
  | a :: ((b :: _) as path') => a <> b /\ noZeroSegment path'
  | _ => True
  end.

(** The total length [distList[-1]] of a path. *)
Definition pathLength (path : Path) : R := last (getPathCumDist path) 0.

(** [pt] is the point of the path at distance [d] from its first vertex,
    measured along the path: it lies on the segment from vertex [i] to
    vertex [i + 1], at the fraction [t] of that segment. *)
Definition pointAt (path : Path) (d : R) (pt : Point) : Prop :=
  exists (i : nat) (t : R),
    (i + 1 < length path)%nat /\ 0 <= t <= 1
    /\ fst pt = fst (vertex path i)
                + t * (fst (vertex path (i + 1)) - fst (vertex path i))
    /\ snd pt = snd (vertex path i)
                + t * (snd (vertex path (i + 1)) - snd (vertex path i))
    /\ d = nth i (getPathCumDist path) 0
           + t * lineLength (vertex path (i + 1)) (vertex path i).

(** The test of the length filter, as it is for a path of at least two
    vertices: the first two vertices differ. *)
Definition firstSegmentNonZero (path : Path) : bool :=
  if Point_eq_dec (vertex path 0) (vertex path 1) then false else true.

(** The arcs among the items of [GetTracks()]. *)
Definition isArc (t : TrackItem) : bool :=
  match t with PCB_ARC _ _ => true | _ => false end.

(** [pt] lies on the polyline through the vertices of [path]: it is one of
    the vertices or a point of one of the segments. *)
Definition onPath (path : Path) (pt : Point) : Prop :=
  In pt path
  \/ exists (i : nat) (t : R),
       (i + 1 < length path)%nat /\ 0 <= t <= 1
       /\ fst pt = fst (vertex path i)
                   + t * (fst (vertex path (i + 1)) - fst (vertex path i))
       /\ snd pt = snd (vertex path i)
                   + t * (snd (vertex path (i + 1)) - snd (vertex path i)).

(** [pt] lies on the boundary of the closed polygon [path]: on the edge
    from vertex [i] to vertex [(i + 1) % len(path)] for some [i]. *)
Definition onPolygon (path : Path) (pt : Point) : Prop :=
  exists (i : nat) (t : R),
    (i < length path)%nat /\ 0 <= t <= 1
    /\ fst pt
       = fst (vertex path i)
         + t * (fst (vertex path (Nat.modulo (i + 1) (length path)))
                - fst (vertex path i))
    /\ snd pt
       = snd (vertex path i)
         + t * (snd (vertex path (Nat.modulo (i + 1) (length path)))
                - snd (vertex path i)).

End Specs.

Import ViaFence ViaFenceAction ViaFenceArc Specs.

(** Decide the comparisons of concrete reals that a definition branches
    on, discarding the impossible branches. *)
Ltac rdecide :=
  repeat match goal with
         | |- context [Rle_dec ?a ?b] => destruct (Rle_dec a b); try lra
         | |- context [Rlt_dec ?a ?b] => destruct (Rlt_dec a b); try lra
         | |- context [Req_dec_T ?a ?b] => destruct (Req_dec_T a b); try lra
         end.

(* ===================================================================== *)
(** * Basic facts about the prelude *)
(* ===================================================================== *)

Lemma ltb_true_iff (a b : R) : ltb a b = true <-> a < b.
Proof. unfold ltb; destruct (Rlt_dec a b); split; intros; congruence || lra. Qed.

Lemma ltb_false_iff (a b : R) : ltb a b = false <-> b <= a.
Proof. unfold ltb; destruct (Rlt_dec a b); split; intros; congruence || lra. Qed.

Lemma leb_true_iff (a b : R) : leb a b = true <-> a <= b.
Proof. unfold leb; destruct (Rle_dec a b); split; intros; congruence || lra. Qed.

Lemma leb_false_iff (a b : R) : leb a b = false <-> b < a.
Proof. unfold leb; destruct (Rle_dec a b); split; intros; congruence || lra. Qed.

Lemma eqb_true_iff (a b : R) : Py.eqb a b = true <-> a = b.
Proof.
  unfold Py.eqb; destruct (Req_dec_T a b); split; intros; congruence.
Qed.


Lemma hypot_nonneg (x y : R) : 0 <= hypot x y.
Proof. apply sqrt_pos. Qed.

Lemma hypot_pos_iff (x y : R) : 0 < hypot x y <-> (x <> 0 \/ y <> 0).
Proof.
  unfold hypot; split.
  - intros H. destruct (Req_dec_T x 0) as [-> | Hx]; [| now left].
    destruct (Req_dec_T y 0) as [-> | Hy]; [| now right].
    replace (0 * 0 + 0 * 0) with 0 in H by lra. rewrite sqrt_0 in H. lra.
  - intros H. apply sqrt_lt_R0. destruct H; nra.
Qed.

Lemma hypot_axis_x (x : R) : 0 <= x -> hypot x 0 = x.
Proof.
  intros Hx. unfold hypot. replace (x * x + 0 * 0) with (x * x) by lra.
  now apply sqrt_square.
Qed.

Lemma hypot_axis_y (y : R) : 0 <= y -> hypot 0 y = y.
Proof.
  intros Hy. unfold hypot. replace (0 * 0 + y * y) with (y * y) by lra.
  now apply sqrt_square.
Qed.

Lemma hypot_sym (x y : R) : hypot (- x) (- y) = hypot x y.
Proof. unfold hypot; f_equal; lra. Qed.

(* ===================================================================== *)
(** * Clearance filter: monotonicity (C7) *)
(* ===================================================================== *)

Lemma ltb_mono_r (d a b : R) : a <= b -> ltb d a = true -> ltb d b = true.
Proof. intros Hab H. apply ltb_true_iff in H. apply ltb_true_iff. lra. Qed.

(** C7.  Each overlap predicate is monotone in the clearance: an overlap
    reported at clearance [c1] is reported at every clearance [c2 >= c1],
    for the same via candidate, via diameter and pad, track or via. *)
Theorem overlap_monotone_in_clearance
  (via_pos : Point) (via_diam : R) (track : Track) (pad : Pad)
  (existing_via : Via) (c1 c2 : R) :
  c1 <= c2 ->
  (via_track_overlaps via_pos via_diam track c1 = true ->
   via_track_overlaps via_pos via_diam track c2 = true)
  /\ (via_pad_overlaps via_pos via_diam pad c1 = true ->
      via_pad_overlaps via_pos via_diam pad c2 = true)
  /\ (via_via_overlaps via_pos via_diam existing_via c1 = true ->
      via_via_overlaps via_pos via_diam existing_via c2 = true).
Proof.
  intros Hc. unfold via_track_overlaps, via_pad_overlaps, via_via_overlaps.
  repeat split; apply ltb_mono_r; lra.
Qed.

Lemma overlap_monotone_in_clearance_witness :
  150 <= 200
  /\ ((via_track_overlaps Examples.candidate 600 Examples.track 150 = true ->
       via_track_overlaps Examples.candidate 600 Examples.track 200 = true)
      /\ (via_pad_overlaps Examples.candidate 600 Examples.pad 150 = true ->
          via_pad_overlaps Examples.candidate 600 Examples.pad 200 = true)
      /\ (via_via_overlaps Examples.candidate 600 Examples.via 150 = true ->
          via_via_overlaps Examples.candidate 600 Examples.via 200 = true)).
Proof.
  split; [lra | apply overlap_monotone_in_clearance; lra].
Defined.

(* ===================================================================== *)
(** * Arc discretizer: bounds of the segment count (C8) *)
(* ===================================================================== *)

(** C8.  With a floor [min_segments] not above the ceiling 200, the segment
    count lies between the floor and 200 for every radius, swept angle and
    deviation bound; for a radius or angle that is not positive it is the
    floor itself. *)
Theorem calculate_adaptive_segments_clamped
  (radius arc_angle max_deviation_mm : R) (min_segments : Z) :
  (min_segments <= 200)%Z ->
  (min_segments
   <= calculate_adaptive_segments radius arc_angle max_deviation_mm
        min_segments <= 200)%Z
  /\ (radius <= 0 \/ arc_angle <= 0 ->
      calculate_adaptive_segments radius arc_angle max_deviation_mm
        min_segments = min_segments).
Proof.
  intros Hfloor. unfold calculate_adaptive_segments. split.
  - repeat match goal with
           | |- context [if ?c then _ else _] => destruct c
           end; lia.
  - intros Hdeg.
    assert (Hb : leb radius 0 || leb arc_angle 0 = true).
    { apply orb_true_iff. destruct Hdeg; [left | right];
        now apply leb_true_iff. }
    now rewrite Hb.
Qed.

Lemma calculate_adaptive_segments_clamped_witness :
  (16 <= 200)%Z
  /\ ((16 <= calculate_adaptive_segments 30000 (PI / 2) 0.1 16 <= 200)%Z
      /\ (30000 <= 0 \/ PI / 2 <= 0 ->
          calculate_adaptive_segments 30000 (PI / 2) 0.1 16 = 16%Z)).
Proof.
  split; [lia | apply calculate_adaptive_segments_clamped; lia].
Defined.

(* ===================================================================== *)
(** * Fence extraction without butt lines (C10) *)
(* ===================================================================== *)

Lemma filter_none {A : Type} (f : A -> bool) (l : list A) :
  (forall x, In x l -> f x = false) -> filter f l = [].
Proof.
  induction l as [| a l IH]; intros H; simpl; [reflexivity |].
  rewrite (H a (or_introl eq_refl)). apply IH.
  intros x Hx. apply H. now right.
Qed.

Lemma existsb_none {A : Type} (f : A -> bool) (l : list A) :
  (forall x, In x l -> f x = false) -> existsb f l = false.
Proof.
  intros H. apply not_true_iff_false. intros He.
  apply existsb_exists in He. destruct He as [x [Hx Hf]].
  rewrite (H x Hx) in Hf. discriminate.
Qed.

Lemma getPathsThroughPoints_none (path : Path) (pointList : list Point) :
  noEdgeThrough path pointList -> getPathsThroughPoints path pointList = [].
Proof.
  intros H. unfold getPathsThroughPoints.
  rewrite filter_none; [reflexivity |].
  intros idx Hidx. apply in_seq in Hidx. apply existsb_none.
  intros point Hp. apply H; [lia | exact Hp].
Qed.

Lemma splitPathByPaths_nil (path : Path) : splitPathByPaths path [] = Ok [].
Proof. reflexivity. Qed.

Lemma viasOnPolygon_no_butt_lines (path : Path) (pointList : list Point)
  (viaPitch : R) :
  noEdgeThrough path pointList -> viasOnPolygon path pointList viaPitch = Ok [].
Proof.
  intros H. unfold viasOnPolygon.
  now rewrite (getPathsThroughPoints_none _ _ H).
Qed.

(** The same at the level of one iteration of the loop over the offset
    polygons: whatever the polygon library returns, a trimmed polygon with
    no edge through a leaf vertex adds nothing to [viaPoints]. *)
Lemma fencePolygon_no_butt_lines (clipper : Clipper) (pathList : list Path)
  (viaOffset viaPitch : R) (offsetPoly trimmed : Path)
  (leaves : list Point * list R) :
  getLeafVertices (getPathsInsidePolygon clipper pathList offsetPoly)
    = Ok leaves ->
  index (trimFlushPolygonAtVertices clipper offsetPoly (fst leaves)
           (snd leaves) (1.1 * viaOffset)) 0 = Ok trimmed ->
  noEdgeThrough trimmed (fst leaves) ->
  fencePolygon clipper pathList viaOffset viaPitch offsetPoly = Ok [].
Proof.
  intros Hleaves Htrim Hnone. unfold fencePolygon.
  destruct (length (getPathsInsidePolygon clipper pathList offsetPoly) =? 0)%nat;
    [reflexivity |].
  rewrite Hleaves. simpl. rewrite Htrim. simpl.
  now apply viasOnPolygon_no_butt_lines.
Qed.

(** C10.  If no edge of the (trimmed) offset polygon passes through a leaf
    vertex, that is if [isPointOnLine] is false for every edge and every
    leaf, then [getPathsThroughPoints] returns the empty list, splitting
    returns no fence path, and the polygon contributes no via candidate;
    nothing is raised. *)
Theorem no_butt_line_no_vias (offsetPoly : Path)
  (leafVertexList : list Point) (viaPitch : R) :
  noEdgeThrough offsetPoly leafVertexList ->
  getPathsThroughPoints offsetPoly leafVertexList = []
  /\ splitPathByPaths offsetPoly
       (getPathsThroughPoints offsetPoly leafVertexList) = Ok []
  /\ viasOnPolygon offsetPoly leafVertexList viaPitch = Ok [].
Proof.
  intros H. split; [| split].
  - now apply getPathsThroughPoints_none.
  - rewrite (getPathsThroughPoints_none _ _ H). apply splitPathByPaths_nil.
  - now apply viasOnPolygon_no_butt_lines.
Qed.

Lemma square_noEdgeThrough :
  noEdgeThrough Examples.square [Examples.innerLeaf].
Proof.
  intros idx point Hidx Hin. simpl in Hidx, Hin.
  destruct Hin as [<- | []].
  do 4 (destruct idx as [| idx];
        [unfold isPointOnLine, leb, Py.eqb; simpl; rdecide; reflexivity |]).
  lia.
Defined.

Lemma no_butt_line_no_vias_witness :
  noEdgeThrough Examples.square [Examples.innerLeaf]
  /\ (getPathsThroughPoints Examples.square [Examples.innerLeaf] = []
      /\ splitPathByPaths Examples.square
           (getPathsThroughPoints Examples.square [Examples.innerLeaf])
         = Ok []
      /\ viasOnPolygon Examples.square [Examples.innerLeaf] 1000 = Ok []).
Proof.
  split; [exact square_noEdgeThrough
         | apply no_butt_line_no_vias; exact square_noEdgeThrough].
Defined.

(* ===================================================================== *)
(** * De-duplication before the clearance filter (C9) *)
(* ===================================================================== *)

Lemma distance_sq (p q : wxPoint) :
  distance p q
  = sqrt (IZR ((wy p - wy q) * (wy p - wy q) + (wx p - wx q) * (wx p - wx q))).
Proof. unfold distance, hypot. now rewrite plus_IZR, !mult_IZR. Qed.


Lemma distance_sym (p q : wxPoint) : distance p q = distance q p.
Proof. rewrite !distance_sq. do 2 f_equal. ring. Qed.

Lemma wxPointOf_key (u v : Point) : key u = key v -> wxPointOf u = wxPointOf v.
Proof. unfold key, wxPointOf. now intros [= -> ->]. Qed.

(** ** The loop over [combinedViaPoints] *)



(** ** The loop of [dedupe_points] *)


Lemma separated_snoc (tol : Z) (l : list Point) (v : Point) :
  separated tol l ->
  (forall u, In u l -> IZR tol < distance (wxPointOf u) (wxPointOf v)) ->
  separated tol (l ++ [v]).
Proof.
  unfold separated. induction l as [| a l IH]; intros Hsep Hv; simpl.
  - constructor; constructor.
  - inversion Hsep as [| a' l' Ha Hl]; subst.
    constructor.
    + apply Forall_app. split; [exact Ha |].
      constructor; [| constructor]. apply Hv. now left.
    + apply IH; [exact Hl |]. intros u Hu. apply Hv. now right.
Qed.

Lemma dedupeLoop_app (tol : Z) (unique points : list Point) :
  exists added,
    dedupeLoop tol unique points = unique ++ added
    /\ (forall v, In v added -> In v points)
    /\ (forall v, In v points ->
                  exists u, In u (unique ++ added)
                            /\ (u = v
                                \/ distance (wxPointOf v) (wxPointOf u)
                                   <= IZR tol))
    /\ (separated tol unique -> separated tol (unique ++ added))
    /\ (NoDup (map key (unique ++ points)) ->
        NoDup (map key (unique ++ added))).
Proof.
  revert unique. induction points as [| v rest IH]; intros unique.
  - exists []. simpl. rewrite app_nil_r.
    split; [reflexivity |]. split; [tauto |]. split; [tauto |].
    split; auto.
  - simpl.
    destruct (existsb
                (fun u => leb (distance (wxPointOf v) (wxPointOf u)) (IZR tol))
                unique) eqn:Hnear; simpl.
    + destruct (IH unique) as [added [Heq [Hsub [Hcov [Hsep Hnd]]]]].
      exists added. split; [exact Heq |]. split; [| split; [| split]].
      * intros u Hu. right. now apply Hsub.
      * intros u [<- | Hu]; [| now apply Hcov].
        apply existsb_exists in Hnear. destruct Hnear as [w [Hw Hle]].
        exists w. split; [apply in_or_app; now left |].
        right. now apply leb_true_iff.
      * exact Hsep.
      * intros H. apply Hnd. rewrite map_app in *. simpl in H.
        now apply NoDup_remove_1 in H.
    + destruct (IH (unique ++ [v])) as [added [Heq [Hsub [Hcov [Hsep Hnd]]]]].
      exists (v :: added).
      replace (unique ++ v :: added) with ((unique ++ [v]) ++ added)
        by (rewrite <- app_assoc; reflexivity).
      split; [exact Heq |]. split; [| split; [| split]].
      * intros u [<- | Hu]; [now left | right; now apply Hsub].
      * intros u [<- | Hu]; [| now apply Hcov].
        exists v. split; [| now left].
        apply in_or_app. left. apply in_or_app. right. now left.
      * intros H. apply Hsep. apply separated_snoc; [exact H |].
        intros u Hu. rewrite distance_sym. apply leb_false_iff.
        destruct (leb (distance (wxPointOf v) (wxPointOf u)) (IZR tol)) eqn:E;
          [| reflexivity].
        assert (Hex : existsb
                  (fun u => leb (distance (wxPointOf v) (wxPointOf u)) (IZR tol))
                  unique = true)
          by (apply existsb_exists; exists u; split; assumption).
        congruence.
      * intros H. apply Hnd.
        now rewrite <- app_assoc.
Qed.







(* ===================================================================== *)
(** * Indexing, [mapM] and [bisect_left] *)
(* ===================================================================== *)

Lemma index_nat {A : Type} (l : list A) (i : nat) (d : A) :
  (i < length l)%nat -> index l (Z.of_nat i) = Ok (nth i l d).
Proof.
  intros Hi. unfold index.
  destruct (Z.ltb_spec (Z.of_nat i) 0) as [H | _]; [lia |].
  destruct (Z.ltb_spec (Z.of_nat i) 0) as [H | _]; [lia |].
  rewrite Nat2Z.id.
  destruct (nth_error l i) as [a |] eqn:E.
  - now rewrite (nth_error_nth _ _ d E).
  - apply nth_error_None in E. lia.
Qed.

Lemma nth_pred_length {A : Type} (l : list A) (d : A) :
  nth (length l - 1) l d = last l d.
Proof.
  induction l as [| a l IH]; [reflexivity |].
  destruct l as [| b l]; [reflexivity |].
  replace (length (a :: b :: l) - 1)%nat with (S (length (b :: l) - 1))
    by (simpl; lia).
  exact IH.
Qed.

Lemma index_last {A : Type} (l : list A) (d : A) :
  l <> [] -> index l (-1) = Ok (last l d).
Proof.
  intros Hl. unfold index.
  destruct (Z.ltb_spec (-1) 0) as [_ | H]; [| lia].
  assert (Hlen : (0 < length l)%nat)
    by (destruct l; [congruence | simpl; lia]).
  destruct (Z.ltb_spec (-1 + Z.of_nat (length l)) 0) as [H | _]; [lia |].
  replace (Z.to_nat (-1 + Z.of_nat (length l))) with (length l - 1)%nat by lia.
  destruct (nth_error l (length l - 1)) as [a |] eqn:E.
  - apply (nth_error_nth _ _ d) in E. rewrite nth_pred_length in E.
    now subst a.
  - apply nth_error_None in E. lia.
Qed.

Lemma index_out_of_range {A : Type} (l : list A) (i : Z) :
  (Z.of_nat (length l) <= i)%Z -> index l i = Raise IndexError.
Proof.
  intros Hi. unfold index.
  destruct (Z.ltb_spec i 0) as [H | _]; [lia |].
  destruct (Z.ltb_spec i 0) as [H | _]; [lia |].
  destruct (nth_error l (Z.to_nat i)) as [a |] eqn:E; [| reflexivity].
  assert (Hlt : (Z.to_nat i < length l)%nat)
    by (apply nth_error_Some; congruence).
  lia.
Qed.

Lemma mapM_ok {A B : Type} (f : A -> py B) (g : A -> B) (l : list A) :
  (forall a, In a l -> f a = Ok (g a)) -> mapM f l = Ok (map g l).
Proof.
  induction l as [| a l IH]; intros H; simpl; [reflexivity |].
  rewrite (H a (or_introl eq_refl)). simpl.
  rewrite IH; [reflexivity |]. intros b Hb. apply H. now right.
Qed.

Lemma in_range (a b k : Z) : In k (range a b) <-> (a <= k < b)%Z.
Proof.
  unfold range. rewrite in_map_iff. split.
  - intros [i [<- Hi]]. apply in_seq in Hi. lia.
  - intros Hk. exists (Z.to_nat (k - a)). split; [lia |].
    apply in_seq. lia.
Qed.

Lemma length_range (a b : Z) : length (range a b) = Z.to_nat (b - a).
Proof. unfold range. now rewrite length_map, length_seq. Qed.

Lemma nth_range (a b : Z) (i : nat) :
  (i < Z.to_nat (b - a))%nat -> nth i (range a b) 0%Z = (a + Z.of_nat i)%Z.
Proof.
  intros Hi. unfold range.
  rewrite (nth_indep _ 0%Z (a + Z.of_nat 0)%Z)
    by now rewrite length_map, length_seq.
  change (a + Z.of_nat 0)%Z with ((fun k => (a + Z.of_nat k)%Z) O).
  rewrite map_nth, seq_nth by exact Hi. reflexivity.
Qed.

Lemma bisect_left_le (a : list R) (x : R) :
  (bisect_left a x <= length a)%nat.
Proof.
  induction a as [| h t IH]; simpl; [lia |].
  destruct (Rlt_dec h x); lia.
Qed.

Lemma bisect_left_before (a : list R) (x : R) (i : nat) :
  (i < bisect_left a x)%nat -> nth i a 0 < x.
Proof.
  revert i. induction a as [| h t IH]; intros i Hi; simpl in *; [lia |].
  destruct (Rlt_dec h x) as [Hlt | _]; [| lia].
  destruct i as [| i]; [exact Hlt | apply IH; lia].
Qed.

Lemma bisect_left_at (a : list R) (x : R) :
  (bisect_left a x < length a)%nat -> x <= nth (bisect_left a x) a 0.
Proof.
  induction a as [| h t IH]; simpl; [lia |].
  destruct (Rlt_dec h x) as [_ | Hge]; intros H.
  - apply IH. lia.
  - lra.
Qed.

Lemma bisect_left_last (a : list R) (x : R) :
  a <> [] -> x <= last a 0 -> (bisect_left a x < length a)%nat.
Proof.
  induction a as [| h t IH]; intros Hne Hx; [congruence |].
  simpl. destruct (Rlt_dec h x) as [Hlt | _]; [| lia].
  destruct t as [| h' t']; [simpl in Hx; lra |].
  assert (bisect_left (h' :: t') x < length (h' :: t'))%nat
    by (apply IH; [congruence | exact Hx]).
  lia.
Qed.

Lemma bisect_left_past (a : list R) (x : R) :
  (forall y, In y a -> y < x) -> bisect_left a x = length a.
Proof.
  induction a as [| h t IH]; intros H; simpl; [reflexivity |].
  destruct (Rlt_dec h x) as [_ | Hge].
  - f_equal. apply IH. intros y Hy. apply H. now right.
  - exfalso. apply Hge. apply H. now left.
Qed.

Lemma bisect_left_first (h : R) (t : list R) (x : R) :
  x <= h -> bisect_left (h :: t) x = O.
Proof. intros Hx. simpl. destruct (Rlt_dec h x); [lra | reflexivity]. Qed.

(* ===================================================================== *)
(** * Cumulative distances and slopes *)
(* ===================================================================== *)

Lemma lineLength_pos (a b : Point) : a <> b -> 0 < lineLength a b.
Proof.
  intros Hab. unfold lineLength. apply hypot_pos_iff.
  destruct a as [ax ay], b as [bx by_]; simpl.
  destruct (Req_dec_T ax bx) as [-> | Hx]; [| left; lra].
  right. intros Hy. apply Hab. f_equal. lra.
Qed.

Lemma lineLength_same (a : Point) : lineLength a a = 0.
Proof.
  unfold lineLength, hypot.
  replace ((fst a - fst a) * (fst a - fst a)
           + (snd a - snd a) * (snd a - snd a)) with 0 by ring.
  apply sqrt_0.
Qed.

Lemma length_cumDistFrom (acc : R) (prev : Point) (rest : Path) :
  length (cumDistFrom acc prev rest) = length rest.
Proof.
  revert acc prev. induction rest as [| p rest IH]; intros; simpl;
    [reflexivity | now rewrite IH].
Qed.

Lemma length_getPathCumDist (path : Path) :
  path <> [] -> length (getPathCumDist path) = length path.
Proof.
  destruct path as [| p0 rest]; [congruence |]. intros _.
  simpl. now rewrite length_cumDistFrom.
Qed.

Lemma cumDistFrom_increasing (acc : R) (prev : Point) (rest : Path) :
  noZeroSegment (prev :: rest) -> increasing (acc :: cumDistFrom acc prev rest).
Proof.
  revert acc prev. induction rest as [| p rest IH]; intros acc prev H;
    [exact I |].
  destruct H as [Hne Hrest]. cbn [cumDistFrom]. split.
  - assert (0 < lineLength p prev) by (apply lineLength_pos; congruence). lra.
  - now apply IH.
Qed.

Lemma getPathCumDist_increasing (path : Path) :
  noZeroSegment path -> increasing (getPathCumDist path).
Proof.
  destruct path as [| p0 rest]; intros H; [exact I |].
  now apply cumDistFrom_increasing.
Qed.

Lemma cumDistFrom_step (acc : R) (prev : Point) (rest : Path) (i : nat) :
  (i < length rest)%nat ->
  nth (S i) (acc :: cumDistFrom acc prev rest) 0
  = nth i (acc :: cumDistFrom acc prev rest) 0
    + lineLength (nth (S i) (prev :: rest) (0, 0))
        (nth i (prev :: rest) (0, 0)).
Proof.
  revert acc prev i. induction rest as [| p rest IH]; intros acc prev i Hi;
    [simpl in Hi; lia |].
  destruct i as [| i]; [reflexivity |].
  assert (Hi' : (i < length rest)%nat) by (simpl in Hi; lia).
  exact (IH (acc + lineLength p prev) p i Hi').
Qed.

(** Consecutive cumulative distances differ by the length of the segment. *)
Lemma getPathCumDist_step (path : Path) (i : nat) :
  (i + 1 < length path)%nat ->
  nth (i + 1) (getPathCumDist path) 0
  = nth i (getPathCumDist path) 0
    + lineLength (vertex path (i + 1)) (vertex path i).
Proof.
  destruct path as [| p0 rest]; [simpl; lia |]. intros Hi.
  rewrite Nat.add_1_r. unfold vertex, getPathCumDist.
  apply cumDistFrom_step. simpl in Hi. lia.
Qed.

Lemma increasing_step (xs : list R) (i : nat) :
  increasing xs -> (S i < length xs)%nat -> nth i xs 0 < nth (S i) xs 0.
Proof.
  revert i. induction xs as [| a xs IH]; intros i Hinc Hi; [simpl in Hi; lia |].
  destruct xs as [| b xs]; [simpl in Hi; lia |].
  destruct Hinc as [Hab Hinc].
  destruct i as [| i]; [exact Hab |].
  change (nth i (b :: xs) 0 < nth (S i) (b :: xs) 0).
  apply IH; [exact Hinc | simpl in *; lia].
Qed.

Lemma slopesOf_ok (xs ys : list R) :
  increasing xs ->
  exists s,
    slopesOf xs ys = Ok s
    /\ length s = (Nat.min (length xs) (length ys) - 1)%nat
    /\ forall i, (S i < length xs)%nat -> (S i < length ys)%nat ->
                 nth i s 0 = (nth (S i) ys 0 - nth i ys 0)
                             / (nth (S i) xs 0 - nth i xs 0).
Proof.
  revert ys. induction xs as [| x1 xs IH]; intros ys Hinc.
  - exists []. simpl. repeat split. intros i Hi; lia.
  - destruct xs as [| x2 xs].
    + exists []. simpl. split; [reflexivity |]. split.
      * destruct ys; simpl; [reflexivity | ].
        destruct (length ys); reflexivity.
      * intros i Hi; lia.
    + destruct Hinc as [H12 Hinc].
      destruct ys as [| y1 ys].
      { exists []. simpl. repeat split. intros i _ Hi; lia. }
      destruct ys as [| y2 ys].
      { exists []. simpl. repeat split. intros i _ Hi; lia. }
      destruct (IH (y2 :: ys) Hinc) as [s [Hs [Hlen Hnth]]].
      exists ((y2 - y1) / (x2 - x1) :: s).
      split; [| split].
      * cbn [slopesOf]. destruct (Req_dec_T (x2 - x1) 0); [lra |].
        cbn [slopesOf] in Hs. rewrite Hs. reflexivity.
      * simpl in *. rewrite Hlen. lia.
      * intros i Hi1 Hi2. destruct i as [| i]; [reflexivity |].
        change (nth i s 0
                = (nth (S i) (y2 :: ys) 0 - nth i (y2 :: ys) 0)
                  / (nth (S i) (x2 :: xs) 0 - nth i (x2 :: xs) 0)).
        apply Hnth; simpl in *; lia.
Qed.

Lemma slopesOf_zero_segment (x1 : R) (xs ys : list R) (y1 y2 : R) :
  slopesOf (x1 :: x1 :: xs) (y1 :: y2 :: ys) = Raise ZeroDivisionError.
Proof.
  cbn [slopesOf]. destruct (Req_dec_T (x1 - x1) 0) as [_ | H];
    [reflexivity | lra].
Qed.

(* ===================================================================== *)
(** * The interpolators inside the path *)
(* ===================================================================== *)

(** For a distance [x] after the first and not after the last abscissa,
    [LinearInterpolator.__call__] interpolates on the segment that
    contains [x]. *)
Lemma LinearInterpolator_call_inside (xs ys s : list R) (x : R) :
  increasing xs -> length ys = length xs -> slopesOf xs ys = Ok s ->
  nth 0 xs 0 < x -> x <= last xs 0 ->
  let i := (bisect_left xs x - 1)%nat in
  (S i < length xs)%nat
  /\ nth i xs 0 < x <= nth (S i) xs 0
  /\ LinearInterpolator_call (mkLinearInterpolator xs ys s) x
     = Ok (nth i ys 0
           + (nth (S i) ys 0 - nth i ys 0) / (nth (S i) xs 0 - nth i xs 0)
             * (x - nth i xs 0)).
Proof.
  intros Hinc Hlen Hs Hlo Hhi i.
  assert (Hne : xs <> []) by (intros ->; simpl in *; lra).
  assert (Hb : (bisect_left xs x < length xs)%nat)
    by now apply bisect_left_last.
  assert (Hpos : (1 <= bisect_left xs x)%nat).
  { destruct (bisect_left xs x) eqn:E; [| lia].
    pose proof (bisect_left_at xs x) as H. rewrite E in H.
    specialize (H Hb). lra. }
  assert (HSi : S i = bisect_left xs x) by (unfold i; lia).
  split; [lia |]. split.
  - split.
    + apply bisect_left_before. lia.
    + rewrite HSi. now apply bisect_left_at.
  - destruct (slopesOf_ok xs ys Hinc) as [s' [Hs' [Hls Hnth]]].
    assert (s' = s) by congruence. subst s'.
    unfold LinearInterpolator_call. cbn [x_list y_list slopes].
    replace (Z.of_nat (bisect_left xs x) - 1)%Z with (Z.of_nat i)
      by (unfold i; lia).
    rewrite (index_nat ys i 0) by lia. cbn [bind].
    rewrite (index_nat s i 0) by lia. cbn [bind].
    rewrite (index_nat xs i 0) by lia. cbn [bind].
    rewrite Hnth by lia. reflexivity.
Qed.

Lemma nth_getPathCumDist_0 (path : Path) : nth 0 (getPathCumDist path) 0 = 0.
Proof. reflexivity. Qed.

Lemma PathInterpolator_init_ok (path : Path) :
  noZeroSegment path ->
  exists sx sy,
    slopesOf (getPathCumDist path) (map fst path) = Ok sx
    /\ slopesOf (getPathCumDist path) (map snd path) = Ok sy
    /\ PathInterpolator_init (getPathCumDist path) path
       = Ok (mkPathInterpolator
               (mkLinearInterpolator (getPathCumDist path) (map fst path) sx)
               (mkLinearInterpolator (getPathCumDist path) (map snd path) sy)).
Proof.
  intros Hpath. apply getPathCumDist_increasing in Hpath.
  destruct (slopesOf_ok _ (map fst path) Hpath) as [sx [Hsx _]].
  destruct (slopesOf_ok _ (map snd path) Hpath) as [sy [Hsy _]].
  exists sx, sy. split; [exact Hsx |]. split; [exact Hsy |].
  unfold PathInterpolator_init, LinearInterpolator_init.
  now rewrite Hsx, Hsy.
Qed.

Lemma pathLength_short (path : Path) :
  (length path < 2)%nat -> pathLength path = 0.
Proof.
  destruct path as [| p0 [| p1 rest]]; simpl; intros H; try reflexivity; lia.
Qed.

(** For a path without zero-length segment and a distance [d] with
    [0 < d <= pathLength path], the interpolator returns the point of the
    path at distance [d]. *)
Lemma PathInterpolator_call_inside (path : Path) (pi : PathInterpolator)
  (d : R) :
  noZeroSegment path ->
  PathInterpolator_init (getPathCumDist path) path = Ok pi ->
  0 < d <= pathLength path ->
  exists pt, PathInterpolator_call pi d = Ok pt /\ pointAt path d pt.
Proof.
  intros Hpath Hinit [Hlo Hhi].
  destruct (PathInterpolator_init_ok path Hpath) as [sx [sy [Hsx [Hsy Hpi]]]].
  assert (pi = mkPathInterpolator
                 (mkLinearInterpolator (getPathCumDist path) (map fst path) sx)
                 (mkLinearInterpolator (getPathCumDist path) (map snd path) sy))
    by congruence.
  subst pi. clear Hinit Hpi.
  assert (Hlen2 : (2 <= length path)%nat).
  { destruct (Nat.lt_ge_cases (length path) 2) as [H | H]; [| exact H].
    rewrite (pathLength_short path H) in Hhi. lra. }
  assert (Hne : path <> []) by (intros ->; simpl in Hlen2; lia).
  pose proof (length_getPathCumDist path Hne) as Hlc.
  pose proof (getPathCumDist_increasing path Hpath) as Hinc.
  set (cum := getPathCumDist path) in *.
  destruct (LinearInterpolator_call_inside cum (map fst path) sx d)
    as [Hi [[Hci Hcs] Hx]]; auto.
  { now rewrite length_map. }
  destruct (LinearInterpolator_call_inside cum (map snd path) sy d)
    as [_ [_ Hy]]; auto.
  { now rewrite length_map. }
  set (i := (bisect_left cum d - 1)%nat) in *.
  unfold PathInterpolator_call. cbn [xInterp yInterp].
  rewrite Hx, Hy. cbn [bind]. eexists. split; [reflexivity |].
  assert (Hstep := getPathCumDist_step path i).
  fold cum in Hstep. rewrite Nat.add_1_r in Hstep.
  specialize (Hstep ltac:(lia)).
  assert (Hseg : nth i cum 0 < nth (S i) cum 0)
    by (apply increasing_step; [exact Hinc | exact Hi]).
  exists i, ((d - nth i cum 0) / (nth (S i) cum 0 - nth i cum 0)).
  rewrite Nat.add_1_r.
  assert (Hfst : forall k, nth k (map fst path) 0 = fst (vertex path k)).
  { intros k. unfold vertex. change 0 with (fst (0, 0)) at 1.
    apply map_nth. }
  assert (Hsnd : forall k, nth k (map snd path) 0 = snd (vertex path k)).
  { intros k. unfold vertex. change 0 with (snd (0, 0)) at 1.
    apply map_nth. }
  split; [lia |]. split.
  - split.
    + apply Rmult_le_pos; [lra |]. left. apply Rinv_0_lt_compat. lra.
    + apply Rmult_le_reg_r with (nth (S i) cum 0 - nth i cum 0); [lra |].
      unfold Rdiv. rewrite Rmult_assoc, Rinv_l by lra. lra.
  - cbn [fst snd]. rewrite !Hfst, !Hsnd.
    split; [field; lra |]. split; [field; lra |].
    replace (lineLength (vertex path (S i)) (vertex path i))
      with (nth (S i) cum 0 - nth i cum 0) by lra.
    fold cum. field; lra.
Qed.

Lemma mapM_all {A B : Type} (f : A -> py B) (P : A -> B -> Prop)
  (l : list A) (da : A) (db : B) :
  (forall a, In a l -> exists b, f a = Ok b /\ P a b) ->
  exists bs, mapM f l = Ok bs
             /\ length bs = length l
             /\ forall i, (i < length l)%nat -> P (nth i l da) (nth i bs db).
Proof.
  induction l as [| a l IH]; intros H.
  - exists []. simpl. repeat split. intros i Hi; lia.
  - destruct (H a (or_introl eq_refl)) as [b [Hb HP]].
    destruct IH as [bs [Hbs [Hlen Hnth]]].
    { intros a' Ha'. apply H. now right. }
    exists (b :: bs). simpl. rewrite Hb. simpl. rewrite Hbs. simpl.
    split; [reflexivity |]. split; [now rewrite Hlen |].
    intros [| i] Hi; [exact HP | apply Hnth; lia].
Qed.

Lemma getPathCumDist_nonempty (path : Path) : getPathCumDist path <> [].
Proof. unfold getPathCumDist. discriminate. Qed.

(* ===================================================================== *)
(** * Uniform distribution along a sub-path *)
(* ===================================================================== *)

(** What holds of the distribution.  For a sub-path without zero-length
    segment, of length [L], and a
    pitch [p > 0], with [n = floor(L / p)]: [distributeAlongPath] returns
    [n - 1] candidates (none when [L < p]) and raises nothing; when
    [p < L] the spacing [L / n] is at least [p] and less than [2 p]; the
    [k]-th candidate is the point of the path at distance [k * (L / n)],
    which is strictly between [0] and [L]. *)
Theorem distributeAlongPath_uniform (path : Path) (minimumSpacing : R) :
  noZeroSegment path -> 0 < minimumSpacing ->
  exists pts,
    distributeAlongPath path minimumSpacing = Ok pts
    /\ length pts
       = Z.to_nat (Zfloor (pathLength path / minimumSpacing) - 1)
    /\ (pathLength path < minimumSpacing -> pts = [])
    /\ (minimumSpacing < pathLength path ->
        Z.of_nat (length pts)
        = (Zfloor (pathLength path / minimumSpacing) - 1)%Z
        /\ minimumSpacing
           <= pathLength path / IZR (Zfloor (pathLength path / minimumSpacing))
           < 2 * minimumSpacing)
    /\ (forall k,
          (1 <= k < Zfloor (pathLength path / minimumSpacing))%Z ->
          let d := IZR k * pathLength path
                   / IZR (Zfloor (pathLength path / minimumSpacing)) in
          0 < d < pathLength path
          /\ pointAt path d (nth (Z.to_nat (k - 1)) pts (0, 0))).
Proof.
  intros Hpath Hp.
  set (L := pathLength path).
  set (n := Zfloor (L / minimumSpacing)).
  assert (Hfloor : IZR n <= L / minimumSpacing < IZR n + 1)
    by apply Zfloor_bound.
  assert (Hmul : IZR n * minimumSpacing <= L < (IZR n + 1) * minimumSpacing).
  { destruct Hfloor as [H1 H2]. split.
    - apply Rmult_le_compat_r with (r := minimumSpacing) in H1; [| lra].
      unfold Rdiv in H1. rewrite Rmult_assoc, Rinv_l in H1 by lra. lra.
    - apply Rmult_lt_compat_r with (r := minimumSpacing) in H2; [| lra].
      unfold Rdiv in H2. rewrite Rmult_assoc, Rinv_l in H2 by lra. lra. }
  assert (Hinside : forall k, (1 <= k < n)%Z ->
                              0 < IZR k * L / IZR n < L).
  { intros k [Hk1 Hkn].
    assert (H1 : 1 <= IZR k) by now apply IZR_le.
    assert (H2 : IZR k + 1 <= IZR n)
      by (rewrite <- plus_IZR; apply IZR_le; lia).
    assert (HL : 0 < L) by nra.
    assert (Hn : 0 < IZR n) by lra.
    split.
    - apply Rmult_lt_0_compat; [nra |]. now apply Rinv_0_lt_compat.
    - apply Rmult_lt_reg_r with (IZR n); [exact Hn |].
      unfold Rdiv. rewrite Rmult_assoc, Rinv_l by lra. nra. }
  destruct (PathInterpolator_init_ok path Hpath) as [sx [sy [_ [_ Hinit]]]].
  destruct (mapM_all
              (fun ptIdx =>
                 PathInterpolator_call
                   (mkPathInterpolator
                      (mkLinearInterpolator (getPathCumDist path)
                         (map fst path) sx)
                      (mkLinearInterpolator (getPathCumDist path)
                         (map snd path) sy))
                   (IZR ptIdx * L / IZR n))
              (fun ptIdx pt => pointAt path (IZR ptIdx * L / IZR n) pt)
              (range 1 n) 0%Z (0, 0))
    as [pts [Hpts [Hlen Hnth]]].
  { intros k Hk. apply in_range in Hk.
    apply (PathInterpolator_call_inside path _ _ Hpath Hinit).
    destruct (Hinside k Hk). fold L. lra. }
  rewrite length_range in Hlen, Hnth.
  exists pts. split; [| split; [| split; [| split]]].
  - unfold distributeAlongPath.
    rewrite (index_last _ 0 (getPathCumDist_nonempty path)). cbn [bind].
    destruct (Req_dec_T minimumSpacing 0) as [H0 | _]; [lra |].
    rewrite Hinit. cbn [bind]. exact Hpts.
  - exact Hlen.
  - intros Hshort.
    assert (Hn : (n <= 0)%Z).
    { destruct (Z.le_gt_cases n 0) as [H | H]; [exact H |].
      assert (1 <= IZR n) by (apply IZR_le; lia). nra. }
    destruct pts as [| pt pts]; [reflexivity |].
    simpl in Hlen. lia.
  - intros Hlong.
    assert (Hn : (1 <= n)%Z).
    { destruct (Z.le_gt_cases 1 n) as [H | H]; [exact H |].
      assert (IZR n <= 0) by (apply IZR_le; lia). nra. }
    assert (Hn' : 1 <= IZR n) by now apply IZR_le.
    split; [rewrite Hlen; lia |]. split.
    + apply Rmult_le_reg_r with (IZR n); [lra |].
      unfold Rdiv. rewrite Rmult_assoc, Rinv_l by lra. lra.
    + apply Rmult_lt_reg_r with (IZR n); [lra |].
      unfold Rdiv. rewrite Rmult_assoc, Rinv_l by lra. nra.
  - intros k Hk d. split; [now apply Hinside |].
    specialize (Hnth (Z.to_nat (k - 1)) ltac:(lia)).
    rewrite nth_range in Hnth by lia.
    replace (1 + Z.of_nat (Z.to_nat (k - 1)))%Z with k in Hnth by lia.
    exact Hnth.
Qed.

Lemma straight_noZeroSegment : noZeroSegment Examples.straight.
Proof.
  simpl. split; [| exact I]. intros H. injection H as H. lra.
Defined.

Lemma distributeAlongPath_uniform_witness :
  noZeroSegment Examples.straight /\ 0 < 3
  /\ exists pts,
       distributeAlongPath Examples.straight 3 = Ok pts
       /\ length pts
          = Z.to_nat (Zfloor (pathLength Examples.straight / 3) - 1)
       /\ (pathLength Examples.straight < 3 -> pts = [])
       /\ (3 < pathLength Examples.straight ->
           Z.of_nat (length pts)
           = (Zfloor (pathLength Examples.straight / 3) - 1)%Z
           /\ 3 <= pathLength Examples.straight
                   / IZR (Zfloor (pathLength Examples.straight / 3))
              < 2 * 3)
       /\ (forall k,
             (1 <= k < Zfloor (pathLength Examples.straight / 3))%Z ->
             let d := IZR k * pathLength Examples.straight
                      / IZR (Zfloor (pathLength Examples.straight / 3)) in
             0 < d < pathLength Examples.straight
             /\ pointAt Examples.straight d
                  (nth (Z.to_nat (k - 1)) pts (0, 0))).
Proof.
  split; [exact straight_noZeroSegment |]. split; [lra |].
  apply distributeAlongPath_uniform; [exact straight_noZeroSegment | lra].
Defined.

(* ===================================================================== *)
(** * The interpolators outside the path (C3) *)
(* ===================================================================== *)

Lemma increasing_le_last (a : R) (l : list R) :
  increasing (a :: l) -> forall y, In y (a :: l) -> y <= last (a :: l) 0.
Proof.
  revert a. induction l as [| b l IH]; intros a Hinc y Hy.
  - destruct Hy as [<- | []]. simpl. lra.
  - destruct Hinc as [Hab Hinc].
    change (last (a :: b :: l) 0) with (last (b :: l) 0).
    destruct Hy as [<- | Hy].
    + apply Rle_trans with b; [lra |]. apply IH; [exact Hinc | now left].
    + now apply IH.
Qed.

(** Past the total length the interpolator raises [IndexError]: the index
    [bisect_left(...) - 1] is the last vertex, which has no slope. *)
Lemma PathInterpolator_call_beyond (path : Path) (pi : PathInterpolator)
  (d : R) :
  noZeroSegment path ->
  PathInterpolator_init (getPathCumDist path) path = Ok pi ->
  pathLength path < d ->
  PathInterpolator_call pi d = Raise IndexError.
Proof.
  intros Hpath Hinit Hd.
  destruct (PathInterpolator_init_ok path Hpath) as [sx [sy [Hsx [_ Hpi]]]].
  rewrite Hpi in Hinit. injection Hinit as <-.
  pose proof (getPathCumDist_increasing path Hpath) as Hinc.
  destruct (slopesOf_ok _ (map fst path) Hinc) as [sx' [Hsx' [Hlen _]]].
  assert (sx' = sx) by congruence. subst sx'.
  assert (Hb : bisect_left (getPathCumDist path) d
               = length (getPathCumDist path)).
  { apply bisect_left_past. intros y Hy. unfold pathLength in Hd.
    unfold getPathCumDist in *.
    pose proof (increasing_le_last _ _ Hinc y Hy). lra. }
  unfold PathInterpolator_call, LinearInterpolator_call.
  cbn [xInterp x_list y_list slopes]. rewrite Hb.
  destruct path as [| p0 rest].
  - simpl. reflexivity.
  - rewrite length_getPathCumDist in * by discriminate.
    rewrite length_map in Hlen.
    replace (Z.of_nat (length (p0 :: rest)) - 1)%Z
      with (Z.of_nat (length rest)) by (simpl length; lia).
    rewrite (index_nat (map fst (p0 :: rest)) (length rest) 0)
      by (rewrite length_map; simpl; apply Nat.lt_succ_diag_r).
    cbn [bind]. rewrite index_out_of_range; [reflexivity |].
    rewrite Hlen. simpl length. lia.
Qed.

(** A segment of length zero makes the constructor raise
    [ZeroDivisionError]. *)
Lemma slopesOf_cumDistFrom_zero (acc : R) (prev : Point) (rest : Path)
  (ys : list R) :
  ~ noZeroSegment (prev :: rest) -> length ys = S (length rest) ->
  slopesOf (acc :: cumDistFrom acc prev rest) ys = Raise ZeroDivisionError.
Proof.
  revert acc prev ys. induction rest as [| p rest IH]; intros acc prev ys Hz Hlen.
  - exfalso. apply Hz. exact I.
  - destruct ys as [| y1 [| y2 ys]]; try (simpl in Hlen; lia).
    cbn [cumDistFrom slopesOf].
    destruct (Req_dec_T (acc + lineLength p prev - acc) 0) as [_ | Hne];
      [reflexivity |].
    destruct (Point_eq_dec prev p) as [-> | Hpp].
    + rewrite lineLength_same in Hne. lra.
    + assert (Hrest : ~ noZeroSegment (p :: rest)).
      { intros H. apply Hz. split; assumption. }
      pose proof (IH (acc + lineLength p prev) p (y2 :: ys) Hrest
                    ltac:(simpl in *; lia)) as Hr.
      cbn [cumDistFrom slopesOf] in Hr |- *.
      destruct rest as [| q rest]; [exfalso; apply Hrest; exact I |].
      cbn [cumDistFrom] in Hr |- *. rewrite Hr. reflexivity.
Qed.

Lemma PathInterpolator_init_zero_segment (path : Path) :
  ~ noZeroSegment path ->
  PathInterpolator_init (getPathCumDist path) path = Raise ZeroDivisionError.
Proof.
  intros Hz. destruct path as [| p0 rest]; [exfalso; apply Hz; exact I |].
  unfold PathInterpolator_init, LinearInterpolator_init, getPathCumDist.
  rewrite slopesOf_cumDistFrom_zero;
    [reflexivity | exact Hz | now rewrite length_map].
Qed.

Lemma increasing_lt_last (a b : R) (l : list R) :
  increasing (a :: b :: l) -> a < last (b :: l) 0.
Proof.
  intros [Hab Hinc].
  pose proof (increasing_le_last b l Hinc b (or_introl eq_refl)). lra.
Qed.

Lemma bisect_left_cons_lt (h : R) (t : list R) (x : R) :
  h < x -> bisect_left (h :: t) x = S (bisect_left t x).
Proof. intros Hx. simpl. destruct (Rlt_dec h x); [reflexivity | lra]. Qed.

Lemma bisect_left_at_last (xs : list R) :
  increasing xs -> xs <> [] ->
  bisect_left xs (last xs 0) = (length xs - 1)%nat.
Proof.
  induction xs as [| a xs IH]; intros Hinc Hne; [congruence |].
  destruct xs as [| b xs].
  - simpl. destruct (Rlt_dec a a); [lra | reflexivity].
  - change (last (a :: b :: xs) 0) with (last (b :: xs) 0).
    rewrite bisect_left_cons_lt by now apply increasing_lt_last.
    rewrite IH; [simpl; lia | apply Hinc | discriminate].
Qed.

(** At the total length the interpolator returns the last vertex. *)
Lemma PathInterpolator_call_total_length (path : Path)
  (pi : PathInterpolator) :
  noZeroSegment path -> (2 <= length path)%nat ->
  PathInterpolator_init (getPathCumDist path) path = Ok pi ->
  PathInterpolator_call pi (pathLength path) = Ok (last path (0, 0)).
Proof.
  intros Hpath Hlen2 Hinit.
  destruct (PathInterpolator_init_ok path Hpath) as [sx [sy [Hsx [Hsy Hpi]]]].
  rewrite Hpi in Hinit. injection Hinit as <-.
  assert (Hne : path <> []) by (intros ->; simpl in Hlen2; lia).
  pose proof (length_getPathCumDist path Hne) as Hlc.
  pose proof (getPathCumDist_increasing path Hpath) as Hinc.
  unfold pathLength. set (cum := getPathCumDist path) in *.
  assert (Hcne : cum <> []) by apply getPathCumDist_nonempty.
  assert (Hlast : nth 0 cum 0 < last cum 0).
  { unfold cum. destruct path as [| p0 [| p1 rest]];
      try (simpl in Hlen2; lia).
    apply (increasing_lt_last _ _ _ Hinc). }
  pose proof (bisect_left_at_last cum Hinc Hcne) as Hb.
  destruct (LinearInterpolator_call_inside cum (map fst path) sx (last cum 0))
    as [Hi [_ Hx]]; auto; try lra.
  { now rewrite length_map. }
  destruct (LinearInterpolator_call_inside cum (map snd path) sy (last cum 0))
    as [_ [_ Hy]]; auto; try lra.
  { now rewrite length_map. }
  rewrite Hb in Hi, Hx, Hy.
  assert (HS : S (length cum - 1 - 1) = (length cum - 1)%nat) by lia.
  rewrite HS in Hx, Hy.
  assert (Hseg : nth (length cum - 1 - 1) cum 0 < nth (length cum - 1) cum 0).
  { rewrite <- HS at 2. apply increasing_step; [exact Hinc | lia]. }
  unfold PathInterpolator_call. cbn [xInterp yInterp].
  rewrite Hx, Hy. cbn [bind].
  rewrite <- (nth_pred_length cum 0) in *.
  rewrite <- (nth_pred_length path (0, 0)).
  rewrite Hlc.
  assert (Hfx : nth (length path - 1) (map fst path) 0
                = fst (nth (length path - 1) path (0, 0))).
  { change 0 with (fst (0, 0)) at 1. apply map_nth. }
  assert (Hfy : nth (length path - 1) (map snd path) 0
                = snd (nth (length path - 1) path (0, 0))).
  { change 0 with (snd (0, 0)) at 1. apply map_nth. }
  rewrite Hlc in *. rewrite Hfx, Hfy.
  apply f_equal. apply injective_projections; cbn [fst snd]; field; lra.
Qed.

(** ** The interpolator on concrete paths *)

Lemma elbow_cumDist : getPathCumDist Examples.elbow = [0; 1; 2].
Proof.
  unfold Examples.elbow, getPathCumDist. cbn [cumDistFrom].
  assert (H1 : lineLength (1, 0) (0, 0) = 1).
  { unfold lineLength. cbn [fst snd].
    replace (1 - 0) with 1 by lra. replace (0 - 0) with 0 by lra.
    apply hypot_axis_x. lra. }
  assert (H2 : lineLength (1, 1) (1, 0) = 1).
  { unfold lineLength. cbn [fst snd].
    replace (1 - 0) with 1 by lra. replace (1 - 1) with 0 by lra.
    apply hypot_axis_y. lra. }
  rewrite H1, H2.
  replace (0 + 1 + 1) with 2 by lra. replace (0 + 1) with 1 by lra.
  reflexivity.
Qed.

Lemma straight_cumDist : getPathCumDist Examples.straight = [0; 10].
Proof.
  unfold Examples.straight, getPathCumDist. cbn [cumDistFrom].
  assert (H1 : lineLength (10, 0) (0, 0) = 10).
  { unfold lineLength. cbn [fst snd].
    replace (10 - 0) with 10 by lra. replace (0 - 0) with 0 by lra.
    apply hypot_axis_x. lra. }
  rewrite H1. replace (0 + 10) with 10 by lra. reflexivity.
Qed.

Lemma stutter_zero_segment : ~ noZeroSegment Examples.stutter.
Proof. intros [H _]. now apply H. Qed.

Lemma elbow_init :
  PathInterpolator_init (getPathCumDist Examples.elbow) Examples.elbow
  = Ok Examples.elbowInterpolator.
Proof.
  rewrite elbow_cumDist.
  unfold PathInterpolator_init, LinearInterpolator_init, Examples.elbow.
  cbn [map fst snd slopesOf]. rdecide. reflexivity.
Qed.

Lemma straight_init :
  PathInterpolator_init (getPathCumDist Examples.straight) Examples.straight
  = Ok Examples.straightInterpolator.
Proof.
  rewrite straight_cumDist.
  unfold PathInterpolator_init, LinearInterpolator_init, Examples.straight.
  cbn [map fst snd slopesOf]. rdecide. reflexivity.
Qed.

(** C3.  The interpolator does not clamp.  On the three-vertex path
    [elbow], of length 2: at distance 0 it returns [(1, -1)], not the first
    vertex [(0, 0)]; at distance 3 it raises [IndexError].  On the
    two-vertex path [straight]: at distance -1 it returns [(-1, 0)], not
    the first vertex.  On [stutter], whose first segment has length zero,
    the constructor raises [ZeroDivisionError]. *)
Theorem PathInterpolator_does_not_clamp :
  PathInterpolator_init (getPathCumDist Examples.elbow) Examples.elbow
  = Ok Examples.elbowInterpolator
  /\ pathLength Examples.elbow = 2
  /\ PathInterpolator_call Examples.elbowInterpolator 0 = Ok (1, -1)
  /\ PathInterpolator_call Examples.elbowInterpolator 3 = Raise IndexError
  /\ PathInterpolator_init (getPathCumDist Examples.straight)
       Examples.straight = Ok Examples.straightInterpolator
  /\ PathInterpolator_call Examples.straightInterpolator (-1) = Ok (-1, 0)
  /\ PathInterpolator_init (getPathCumDist Examples.stutter) Examples.stutter
     = Raise ZeroDivisionError.
Proof.
  split; [exact elbow_init |].
  split; [unfold pathLength; now rewrite elbow_cumDist |].
  split.
  { unfold PathInterpolator_call, LinearInterpolator_call, Examples.elbowInterpolator.
    cbn [xInterp yInterp x_list y_list slopes bisect_left]. rdecide.
    cbn [Z.of_nat Z.sub Z.add Z.opp]. rewrite !(index_last _ 0) by discriminate.
    cbn [bind last]. f_equal. f_equal; field. }
  split.
  { unfold PathInterpolator_call, LinearInterpolator_call, Examples.elbowInterpolator.
    cbn [xInterp yInterp x_list y_list slopes bisect_left]. rdecide.
    change (Z.of_nat 3 - 1)%Z with (Z.of_nat 2).
    rewrite (index_nat [0; 1; 1] 2 0) by (simpl; lia). cbn [bind].
    rewrite index_out_of_range by (simpl; lia). reflexivity. }
  split; [exact straight_init |].
  split.
  { unfold PathInterpolator_call, LinearInterpolator_call,
      Examples.straightInterpolator.
    cbn [xInterp yInterp x_list y_list slopes bisect_left]. rdecide.
    cbn [Z.of_nat Z.sub Z.add Z.opp]. rewrite !(index_last _ 0) by discriminate.
    cbn [bind last]. f_equal. f_equal; field. }
  apply PathInterpolator_init_zero_segment. exact stutter_zero_segment.
Qed.

(* ===================================================================== *)
(** * Parameters that are not positive (C6) *)
(* ===================================================================== *)

Lemma pathLength_nonneg (path : Path) :
  noZeroSegment path -> 0 <= pathLength path.
Proof.
  intros Hpath. apply getPathCumDist_increasing in Hpath.
  unfold pathLength, getPathCumDist in *.
  apply (increasing_le_last _ _ Hpath). now left.
Qed.

Lemma range_empty (a b : Z) : (b <= a)%Z -> range a b = [].
Proof.
  intros H. unfold range. replace (Z.to_nat (b - a)) with O by lia.
  reflexivity.
Qed.

Lemma distributeAlongPath_zero_pitch (path : Path) :
  distributeAlongPath path 0 = Raise ZeroDivisionError.
Proof.
  unfold distributeAlongPath.
  rewrite (index_last _ 0 (getPathCumDist_nonempty path)). cbn [bind].
  destruct (Req_dec_T 0 0) as [_ | H]; [reflexivity | lra].
Qed.

Lemma distributeAlongPath_negative_pitch (path : Path) (p : R) :
  noZeroSegment path -> p < 0 -> distributeAlongPath path p = Ok [].
Proof.
  intros Hpath Hp. unfold distributeAlongPath.
  rewrite (index_last _ 0 (getPathCumDist_nonempty path)). cbn [bind].
  destruct (Req_dec_T p 0) as [H | _]; [lra |].
  destruct (PathInterpolator_init_ok path Hpath) as [sx [sy [_ [_ Hinit]]]].
  rewrite Hinit. cbn [bind].
  rewrite range_empty; [reflexivity |].
  fold (pathLength path).
  assert (Hq : pathLength path / p <= 0).
  { pose proof (pathLength_nonneg path Hpath) as HL.
    unfold Rdiv. assert (/ p < 0) by now apply Rinv_lt_0_compat. nra. }
  pose proof (Zfloor_bound (pathLength path / p)) as [Hf _].
  assert (IZR (Zfloor (pathLength path / p)) <= 0) by lra.
  assert (Zfloor (pathLength path / p) <= 0)%Z by now apply le_IZR.
  lia.
Qed.

Lemma generateViaFence_no_polygon (clipper : Clipper)
  (pathList kept : list Path) (viaOffset viaPitch : R) :
  removeZeroLengthTracks pathList = Ok kept ->
  expandPathsToPolygons clipper kept viaOffset = [] ->
  generateViaFence clipper pathList viaOffset viaPitch = Ok [].
Proof.
  intros Hkept Hnone. unfold generateViaFence.
  rewrite Hkept. cbn [bind]. rewrite Hnone. reflexivity.
Qed.

Lemma getLineLength_two (a b : Point) (rest : Path) :
  getLineLength (a :: b :: rest) = Ok (lineLength a b).
Proof. reflexivity. Qed.

Lemma removeZeroLengthTracks_straight :
  removeZeroLengthTracks [Examples.straight] = Ok [Examples.straight].
Proof.
  unfold Examples.straight. cbn [removeZeroLengthTracks].
  rewrite getLineLength_two. cbn [bind].
  assert (H : 0 < lineLength (0, 0) (10, 0)).
  { apply lineLength_pos. intros E. injection E as E. lra. }
  apply ltb_true_iff in H. now rewrite H.
Qed.

(** C6.  Fence generation has no parameter check.  For a pitch that is not
    positive, [distributeAlongPath] raises [ZeroDivisionError] at its
    division when the pitch is zero and returns no interior candidate, with
    no error, when the pitch is negative; and [generateViaFence] returns
    the empty list, whatever the pitch and the offset, when the offsetter
    returns no polygon for the retained paths. *)
Theorem non_positive_parameters_not_rejected (clipper : Clipper)
  (pathList kept : list Path) (path : Path) (viaOffset viaPitch : R) :
  noZeroSegment path -> viaPitch <= 0 ->
  (viaPitch = 0 -> distributeAlongPath path viaPitch = Raise ZeroDivisionError)
  /\ (viaPitch < 0 -> distributeAlongPath path viaPitch = Ok [])
  /\ (removeZeroLengthTracks pathList = Ok kept ->
      expandPathsToPolygons clipper kept viaOffset = [] ->
      generateViaFence clipper pathList viaOffset viaPitch = Ok []).
Proof.
  intros Hpath Hp. split; [| split].
  - intros ->. apply distributeAlongPath_zero_pitch.
  - intros Hneg. now apply distributeAlongPath_negative_pitch.
  - apply generateViaFence_no_polygon.
Qed.

Lemma non_positive_parameters_not_rejected_witness :
  noZeroSegment Examples.straight /\ -1000 <= 0
  /\ ((-1000 = 0 ->
       distributeAlongPath Examples.straight (-1000) = Raise ZeroDivisionError)
      /\ (-1000 < 0 -> distributeAlongPath Examples.straight (-1000) = Ok [])
      /\ (removeZeroLengthTracks [Examples.straight] = Ok [Examples.straight] ->
          expandPathsToPolygons Examples.emptyClipper [Examples.straight]
            (-500) = [] ->
          generateViaFence Examples.emptyClipper [Examples.straight]
            (-500) (-1000) = Ok [])).
Proof.
  split; [exact straight_noZeroSegment |]. split; [lra |].
  apply non_positive_parameters_not_rejected;
    [exact straight_noZeroSegment | lra].
Defined.

(** C6, counterexample.  With offset -500 and pitch -1000, both not
    positive, generation returns normally: nothing is rejected, neither by
    [generateViaFence] (the offsetter yields no polygon for a negative
    offset) nor by [distributeAlongPath]; with pitch 0 the error is the
    [ZeroDivisionError] of the division in [distributeAlongPath]. *)
Lemma negative_parameters_accepted :
  generateViaFence Examples.emptyClipper [Examples.straight] (-500) (-1000)
  = Ok []
  /\ ~ raises (generateViaFence Examples.emptyClipper [Examples.straight]
                 (-500) (-1000))
  /\ distributeAlongPath Examples.straight (-1000) = Ok []
  /\ distributeAlongPath Examples.straight 0 = Raise ZeroDivisionError.
Proof.
  assert (H : generateViaFence Examples.emptyClipper [Examples.straight]
                (-500) (-1000) = Ok []).
  { apply (generateViaFence_no_polygon _ _ [Examples.straight]);
      [exact removeZeroLengthTracks_straight | reflexivity]. }
  split; [exact H |]. split.
  - rewrite H. intros [e He]. discriminate He.
  - split.
    + apply distributeAlongPath_negative_pitch;
        [exact straight_noZeroSegment | lra].
    + apply distributeAlongPath_zero_pitch.
Qed.

(* ===================================================================== *)
(** * The length filter of [generateViaFence] (C5) *)
(* ===================================================================== *)

Lemma getLineLength_short (line : list Point) :
  (length line < 2)%nat -> getLineLength line = Raise IndexError.
Proof.
  destruct line as [| a [| b rest]]; simpl; intros H; try reflexivity; lia.
Qed.

Lemma ltb_lineLength (a b : Point) :
  ltb 0 (lineLength a b) = if Point_eq_dec a b then false else true.
Proof.
  destruct (Point_eq_dec a b) as [-> | Hab].
  - rewrite lineLength_same. apply ltb_false_iff. lra.
  - apply ltb_true_iff. now apply lineLength_pos.
Qed.

Lemma removeZeroLengthTracks_filter (pathList : list Path) :
  (forall path, In path pathList -> (2 <= length path)%nat) ->
  removeZeroLengthTracks pathList = Ok (filter firstSegmentNonZero pathList).
Proof.
  induction pathList as [| path rest IH]; intros Hlen; [reflexivity |].
  cbn [removeZeroLengthTracks filter].
  assert (H2 : (2 <= length path)%nat) by (apply Hlen; now left).
  destruct path as [| a [| b tail]]; try (simpl in H2; lia).
  rewrite getLineLength_two. cbn [bind].
  rewrite IH by (intros p Hp; apply Hlen; now right). cbn [bind].
  rewrite ltb_lineLength. unfold firstSegmentNonZero, vertex. cbn [nth].
  reflexivity.
Qed.

Lemma removeZeroLengthTracks_single_point (p : Point) (rest : list Path) :
  removeZeroLengthTracks ([p] :: rest) = Raise IndexError.
Proof. reflexivity. Qed.

Lemma filter_twice {A : Type} (f : A -> bool) (l : list A) :
  filter f (filter f l) = filter f l.
Proof.
  induction l as [| a l IH]; [reflexivity |]. simpl.
  destruct (f a) eqn:E; simpl; [rewrite E |]; now rewrite IH.
Qed.

Lemma pathLength_two (a b : Point) : pathLength [a; b] = 0 + lineLength b a.
Proof. reflexivity. Qed.

Lemma lineLength_swap (a b : Point) : lineLength a b = lineLength b a.
Proof.
  unfold lineLength.
  rewrite <- (hypot_sym (fst b - fst a)). f_equal; lra.
Qed.

(** C5.  For a path list whose paths have at least two vertices, the
    length filter raises nothing and keeps exactly the paths whose first
    two vertices differ: a path with all points equal is dropped, a
    two-vertex track is kept exactly when its length is positive, and the
    result of [generateViaFence] is the one for the kept paths alone, so a
    dropped path adds no candidate.  An empty path list gives no candidate
    when the offsetter returns no polygon for it. *)
Theorem zero_length_tracks_filtered (clipper : Clipper)
  (pathList : list Path) (viaOffset viaPitch : R) :
  (forall path, In path pathList -> (2 <= length path)%nat) ->
  removeZeroLengthTracks pathList = Ok (filter firstSegmentNonZero pathList)
  /\ (forall path, In path pathList ->
        (forall v, In v path -> v = vertex path 0) ->
        ~ In path (filter firstSegmentNonZero pathList))
  /\ (forall a b, In [a; b] pathList ->
        (In [a; b] (filter firstSegmentNonZero pathList)
         <-> 0 < pathLength [a; b]))
  /\ generateViaFence clipper pathList viaOffset viaPitch
     = generateViaFence clipper (filter firstSegmentNonZero pathList)
         viaOffset viaPitch
  /\ (expandPathsToPolygons clipper [] viaOffset = [] ->
      generateViaFence clipper [] viaOffset viaPitch = Ok []).
Proof.
  intros Hlen. split; [now apply removeZeroLengthTracks_filter |].
  split; [| split; [| split]].
  - intros path Hin Hall Hkept. apply filter_In in Hkept.
    destruct Hkept as [_ Hk]. unfold firstSegmentNonZero in Hk.
    destruct (Point_eq_dec (vertex path 0) (vertex path 1)) as [_ | Hne];
      [discriminate |].
    apply Hne. symmetry. apply Hall. apply nth_In.
    specialize (Hlen path Hin). lia.
  - intros a b Hin. rewrite filter_In, pathLength_two.
    unfold firstSegmentNonZero, vertex. cbn [nth].
    destruct (Point_eq_dec a b) as [-> | Hab].
    + rewrite lineLength_same. split; [intros [_ H]; discriminate | lra].
    + split; [| now split].
      intros _. pose proof (lineLength_pos b a) as H.
      assert (b <> a) by congruence. specialize (H ltac:(assumption)). lra.
  - unfold generateViaFence.
    rewrite (removeZeroLengthTracks_filter pathList Hlen).
    rewrite removeZeroLengthTracks_filter.
    + now rewrite filter_twice.
    + intros p Hp. apply filter_In in Hp. now apply Hlen.
  - intros Hnone. now apply (generateViaFence_no_polygon _ _ []).
Qed.

Lemma zero_length_tracks_filtered_witness :
  (forall path, In path [Examples.straight; Examples.stutter] ->
                (2 <= length path)%nat)
  /\ (removeZeroLengthTracks [Examples.straight; Examples.stutter]
      = Ok (filter firstSegmentNonZero [Examples.straight; Examples.stutter])
      /\ (forall path, In path [Examples.straight; Examples.stutter] ->
            (forall v, In v path -> v = vertex path 0) ->
            ~ In path (filter firstSegmentNonZero
                         [Examples.straight; Examples.stutter]))
      /\ (forall a b, In [a; b] [Examples.straight; Examples.stutter] ->
            (In [a; b] (filter firstSegmentNonZero
                          [Examples.straight; Examples.stutter])
             <-> 0 < pathLength [a; b]))
      /\ generateViaFence Examples.emptyClipper
           [Examples.straight; Examples.stutter] 500 1000
         = generateViaFence Examples.emptyClipper
             (filter firstSegmentNonZero [Examples.straight; Examples.stutter])
             500 1000
      /\ (expandPathsToPolygons Examples.emptyClipper [] 500 = [] ->
          generateViaFence Examples.emptyClipper [] 500 1000 = Ok [])).
Proof.
  assert (H : forall path, In path [Examples.straight; Examples.stutter] ->
                           (2 <= length path)%nat).
  { intros path [<- | [<- | []]]; simpl; lia. }
  split; [exact H | apply zero_length_tracks_filtered; exact H].
Defined.

Lemma stutter_pathLength : pathLength Examples.stutter = 1.
Proof.
  unfold pathLength, Examples.stutter, getPathCumDist. cbn [cumDistFrom last].
  rewrite lineLength_same.
  assert (H1 : lineLength (1, 0) (0, 0) = 1).
  { unfold lineLength. cbn [fst snd].
    replace (1 - 0) with 1 by lra. replace (0 - 0) with 0 by lra.
    apply hypot_axis_x. lra. }
  rewrite H1. lra.
Qed.

(** C5, counterexample.  A single-point path makes [generateViaFence]
    raise [IndexError], whatever the polygon library does; and the path
    [stutter], of total length 1, is dropped by the filter. *)
Lemma single_point_path_raises :
  generateViaFence Examples.emptyClipper [Examples.dot] 500 1000
  = Raise IndexError
  /\ raises (generateViaFence Examples.emptyClipper [Examples.dot] 500 1000)
  /\ 0 < pathLength Examples.stutter
  /\ removeZeroLengthTracks [Examples.stutter] = Ok [].
Proof.
  split; [reflexivity |]. split; [exists IndexError; reflexivity |].
  split; [rewrite stutter_pathLength; lra |].
  rewrite removeZeroLengthTracks_filter.
  - unfold Examples.stutter. cbn [filter]. unfold firstSegmentNonZero, vertex.
    cbn [nth].
    destruct (Point_eq_dec (0, 0) (0, 0)) as [_ | H];
      [reflexivity | congruence].
  - intros path [<- | []]. simpl. lia.
Qed.

(* ===================================================================== *)
(** * Multi-row generation (C1) *)
(* ===================================================================== *)

Lemma generateRow_unshifted (clipper : Clipper) (pathList : list Path)
  (viaOffset viaPitch rowSpacing : R) (rowIdx : Z) :
  generateRow clipper pathList viaOffset viaPitch rowSpacing rowIdx
  = generateViaFence clipper pathList (viaOffset + IZR rowIdx * rowSpacing)
      viaPitch.
Proof.
  unfold generateRow.
  destruct (generateViaFence clipper pathList
              (viaOffset + IZR rowIdx * rowSpacing) viaPitch) as [vias | e];
    cbn [bind]; [| reflexivity].
  destruct (rowIdx mod 2 =? 1)%Z; reflexivity.
Qed.

(** The first candidate that a fence path contributes is its first vertex,
    [fencePath[0]], whose distance along the fence path is
    [getPathCumDist(fencePath)[0] = 0]. *)
Lemma viasOnFencePath_first (fencePath : Path) (viaPitch : R)
  (vias : list Point) :
  viasOnFencePath fencePath viaPitch = Ok vias ->
  exists rest, vias = vertex fencePath 0 :: rest
               /\ nth 0 (getPathCumDist fencePath) 0 = 0.
Proof.
  unfold viasOnFencePath, fixPointIdxList. cbn [app mapM].
  destruct fencePath as [| p0 tail]; [discriminate |].
  change (index (p0 :: tail) 0) with (Ok p0). cbn [bind].
  intros H.
  destruct (mapM (index (p0 :: tail)) _) as [fixed |]; [| discriminate].
  cbn [bind] in H.
  destruct (splitPathByPoints (p0 :: tail) _) as [subPaths |];
    [| discriminate].
  cbn [bind] in H.
  destruct (mapM _ subPaths) as [placed |]; [| discriminate].
  cbn [bind] in H. injection H as <-.
  exists (fixed ++ concat placed). split; reflexivity.
Qed.

(** What the code does for the rows: every row, odd or even, is the plain
    result of [generateViaFence] at the row's offset, and two-row
    generation is the concatenation of the two results.  No candidate of
    row 1 is moved by half a pitch along the path. *)
Lemma generateViaFenceMultiRow_rows (clipper : Clipper)
  (pathList : list Path) (viaOffset viaPitch rowSpacing : R) :
  (forall rowIdx,
     generateRow clipper pathList viaOffset viaPitch rowSpacing rowIdx
     = generateViaFence clipper pathList
         (viaOffset + IZR rowIdx * rowSpacing) viaPitch)
  /\ generateViaFenceMultiRow clipper pathList viaOffset viaPitch 2
       (Some rowSpacing)
     = (row0 <- generateViaFence clipper pathList
                  (viaOffset + 0 * rowSpacing) viaPitch ;;
        row1 <- generateViaFence clipper pathList
                  (viaOffset + 1 * rowSpacing) viaPitch ;;
        Ok (row0 ++ row1)).
Proof.
  split; [intros rowIdx; apply generateRow_unshifted |].
  unfold generateViaFenceMultiRow. cbn [Z.leb Z.compare].
  change (range 0 2) with [0%Z; 1%Z]. cbn [mapM].
  rewrite !generateRow_unshifted.
  destruct (generateViaFence clipper pathList (viaOffset + 0 * rowSpacing)
              viaPitch) as [row0 |]; cbn [bind]; [| reflexivity].
  destruct (generateViaFence clipper pathList (viaOffset + 1 * rowSpacing)
              viaPitch) as [row1 |]; cbn [bind]; [| reflexivity].
  cbn [concat]. now rewrite app_nil_r.
Qed.

(** ** A complete run on the straight track *)

(** A two-vertex fence path has no bend: its candidates are its two end
    points and what [distributeAlongPath] places between them. *)
Lemma viasOnFencePath_two (a b : Point) (viaPitch : R) (placed : list Point) :
  distributeAlongPath [a; b] viaPitch = Ok placed ->
  viasOnFencePath [a; b] viaPitch = Ok (a :: b :: placed).
Proof.
  intros H. unfold viasOnFencePath, fixPointIdxList.
  change (getPathVertices [a; b] tolerance_degree) with (@nil Z).
  change (filterSharpJunctions [a; b] []) with (@nil Z).
  change (mapM (index [a; b]) ([0%Z] ++ [] ++ [(-1)%Z])) with (Ok [a; b]).
  cbn [bind].
  change (splitPathByPoints [a; b] ([0%Z] ++ [] ++ [(-1)%Z]))
    with (Ok [[a; b]]).
  cbn [bind mapM]. rewrite H. cbn [bind concat]. now rewrite app_nil_r.
Qed.

(** The candidates on a straight two-vertex sub-path of length [L]: the
    points at the distances [k * L / n] from [a], for [k = 1 .. n - 1]. *)
Lemma distributeAlongPath_two (a b : Point) (p : R) :
  a <> b -> p <> 0 ->
  let L := 0 + lineLength b a in
  let n := Zfloor (L / p) in
  distributeAlongPath [a; b] p
  = Ok (map (fun k =>
               (fst a + (fst b - fst a) / (L - 0) * (IZR k * L / IZR n - 0),
                snd a + (snd b - snd a) / (L - 0) * (IZR k * L / IZR n - 0)))
            (range 1 n)).
Proof.
  intros Hab Hp L n.
  assert (HL : 0 < L).
  { unfold L. assert (0 < lineLength b a)
      by (apply lineLength_pos; congruence). lra. }
  unfold distributeAlongPath.
  change (getPathCumDist [a; b]) with [0; L].
  change (index [0; L] (-1)) with (Ok L). cbn [bind].
  destruct (Req_dec_T p 0) as [H0 | _]; [contradiction |].
  fold n. unfold PathInterpolator_init, LinearInterpolator_init.
  cbn [map slopesOf].
  destruct (Req_dec_T (L - 0) 0) as [H0 | _]; [lra |].
  cbn [bind].
  apply mapM_ok. intros k Hk. apply in_range in Hk.
  assert (H1 : 1 <= IZR k) by (apply IZR_le; lia).
  assert (H2 : IZR k + 1 <= IZR n)
    by (rewrite <- plus_IZR; apply IZR_le; lia).
  assert (Hd : 0 < IZR k * L / IZR n < L).
  { split.
    - apply Rmult_lt_0_compat; [nra |]. apply Rinv_0_lt_compat. lra.
    - apply Rmult_lt_reg_r with (IZR n); [lra |].
      unfold Rdiv. rewrite Rmult_assoc, Rinv_l by lra. nra. }
  unfold PathInterpolator_call, LinearInterpolator_call.
  cbn [xInterp yInterp x_list y_list slopes bisect_left].
  destruct (Rlt_dec 0 (IZR k * L / IZR n)) as [_ | H]; [| lra].
  destruct (Rlt_dec L (IZR k * L / IZR n)) as [H | _]; [lra |].
  reflexivity.
Qed.

Lemma lineLength_horizontal (x1 x2 y : R) :
  x2 <= x1 -> lineLength (x1, y) (x2, y) = x1 - x2.
Proof.
  intros H. unfold lineLength. cbn [fst snd].
  replace (y - y) with 0 by lra. apply hypot_axis_x. lra.
Qed.

Lemma Zfloor_10_3 : Zfloor ((0 + 10) / 3) = 3%Z.
Proof. apply Zfloor_eq. lra. Qed.

(** The candidates on the upper fence path, which runs from [(10, o)] back
    to [(0, o)], and on the lower one, from [(0, -o)] to [(10, -o)]. *)
Lemma distributeAlongPath_upper (o : R) :
  distributeAlongPath [(10, o); (0, o)] 3
  = Ok [(10 - 10 / 3, o); (10 - 20 / 3, o)].
Proof.
  rewrite distributeAlongPath_two;
    [| intros H; injection H as H; lra | lra].
  rewrite lineLength_swap, lineLength_horizontal by lra.
  replace (10 - 0) with 10 by lra. rewrite Zfloor_10_3.
  change (range 1 3) with [1%Z; 2%Z]. cbn [map fst snd].
  apply f_equal.
  repeat (apply f_equal2; [apply f_equal2; field |]). reflexivity.
Qed.

Lemma distributeAlongPath_lower (o : R) :
  distributeAlongPath [(0, - o); (10, - o)] 3
  = Ok [(10 / 3, - o); (20 / 3, - o)].
Proof.
  rewrite distributeAlongPath_two;
    [| intros H; injection H as H; lra | lra].
  rewrite lineLength_horizontal by lra.
  replace (10 - 0) with 10 by lra. rewrite Zfloor_10_3.
  change (range 1 3) with [1%Z; 2%Z]. cbn [map fst snd].
  apply f_equal.
  repeat (apply f_equal2; [apply f_equal2; field |]). reflexivity.
Qed.

Lemma straight_leaves :
  getLeafVertices [Examples.straight]
  = Ok ([(0, 0); (10, 0)],
        [getLineSlope (10, 0) (0, 0); getLineSlope (0, 0) (10, 0)]).
Proof.
  unfold getLeafVertices, leafAt, Examples.straight.
  cbn [concat app mapM].
  change (index [(0, 0); (10, 0)] 0) with (Ok (0, 0) : py Point).
  change (index [(0, 0); (10, 0)] (-1)) with (Ok (10, 0) : py Point).
  cbn [bind count_occ].
  repeat match goal with
         | |- context [Point_eq_dec ?a ?b] =>
             let E := fresh "E" in
             destruct (Point_eq_dec a b) as [E | E];
             [try (exfalso; injection E; intros; lra) | try congruence]
         end.
  reflexivity.
Qed.

Lemma straight_trimmed (o : R) (leaves : list Point) (slopes : list R)
  (radius : R) :
  0 < o ->
  index (trimFlushPolygonAtVertices Examples.straightClipper
           [(0 - o, - o); (10 + o, - o); (10 + o, o); (0 - o, o)]
           leaves slopes radius) 0
  = Ok [(0, - o); (10, - o); (10, o); (0, o)].
Proof.
  intros Ho. unfold trimFlushPolygonAtVertices, Examples.straightClipper.
  cbn [clipPolygonWithPolygons unionPolygons map fst snd].
  assert (Hlo : Rmax 0 (Rmin 10 (0 - o)) = 0).
  { rewrite Rmin_right by lra. apply Rmax_left. lra. }
  assert (Hhi : Rmax 0 (Rmin 10 (10 + o)) = 10).
  { rewrite Rmin_left by lra. apply Rmax_right. lra. }
  rewrite Hlo, Hhi. reflexivity.
Qed.

Lemma straight_butt_lines (o : R) :
  0 < o ->
  getPathsThroughPoints [(0, - o); (10, - o); (10, o); (0, o)]
    [(0, 0); (10, 0)]
  = [(1, 2); (3, 0)]%Z.
Proof.
  intros Ho. unfold getPathsThroughPoints, isPointOnLine, vertex, leb, Py.eqb.
  simpl. rdecide; reflexivity.
Qed.

Lemma straight_polygon (o : R) :
  0 < o ->
  viasOnPolygon [(0, - o); (10, - o); (10, o); (0, o)] [(0, 0); (10, 0)] 3
  = Ok (Examples.straightRow o).
Proof.
  intros Ho. unfold viasOnPolygon.
  rewrite (straight_butt_lines o Ho).
  change (splitPathByPaths [(0, - o); (10, - o); (10, o); (0, o)]
            [(1, 2); (3, 0)]%Z)
    with (Ok [[(10, o); (0, o)]; [(0, - o); (10, - o)]]).
  cbn [bind mapM].
  pose proof (viasOnFencePath_two _ _ _ _ (distributeAlongPath_upper o))
    as Hupper.
  pose proof (viasOnFencePath_two _ _ _ _ (distributeAlongPath_lower o))
    as Hlower.
  unfold Path, Point in *. rewrite Hupper, Hlower. reflexivity.
Qed.

(** Single-row generation on [straight], at any offset [o > 0] and pitch
    3. *)
Lemma straight_row (o : R) :
  0 < o ->
  generateViaFence Examples.straightClipper [Examples.straight] o 3
  = Ok (Examples.straightRow o).
Proof.
  intros Ho. unfold generateViaFence.
  rewrite removeZeroLengthTracks_straight. cbn [bind].
  cbn [expandPathsToPolygons Examples.straightClipper mapM].
  unfold fencePolygon at 1.
  change (getPathsInsidePolygon Examples.straightClipper [Examples.straight] _)
    with [Examples.straight].
  cbn [length Nat.eqb]. rewrite straight_leaves. cbn [bind fst snd].
  rewrite (straight_trimmed o _ _ _ Ho). cbn [bind].
  rewrite (straight_polygon o Ho). cbn [bind concat].
  now rewrite app_nil_r.
Qed.

Lemma default_row_spacing_3 : int (3 * 1.5) = 4%Z.
Proof.
  unfold int. destruct (Rle_dec 0 (3 * 1.5)); [| lra].
  apply Zfloor_eq. lra.
Qed.

(** C1.  Two rows on the track [straight], at offset 1 and pitch 3, with
    the default row spacing [int(3 * 1.5) = 4]: the result is the plain row
    at offset 1 followed by the plain row at offset 5.  The first candidate
    of row 0 is [(10, 1)] and the first candidate of row 1 is [(10, 5)]:
    both are the first vertex of their fence path, at distance 0 along it,
    and at the same position along the track, where the brick pattern
    asks for a difference of half a pitch, 1.5. *)
Theorem two_rows_not_staggered :
  generateViaFenceMultiRow Examples.straightClipper [Examples.straight]
    1 3 2 None
  = Ok (Examples.straightRow 1 ++ Examples.straightRow 5)
  /\ hd (0, 0) (Examples.straightRow 1) = (10, 1)
  /\ hd (0, 0) (Examples.straightRow 5) = (10, 5)
  /\ fst (hd (0, 0) (Examples.straightRow 5))
     - fst (hd (0, 0) (Examples.straightRow 1)) <> 3 / 2.
Proof.
  split; [| split; [reflexivity | split; [reflexivity |]]].
  - unfold generateViaFenceMultiRow. cbn [Z.leb Z.compare].
    rewrite default_row_spacing_3.
    change (range 0 2) with [0%Z; 1%Z]. cbn [mapM].
    rewrite !generateRow_unshifted.
    rewrite (straight_row (1 + 0 * 4)) by lra. cbn [bind].
    rewrite (straight_row (1 + 1 * 4)) by lra. cbn [bind concat].
    rewrite app_nil_r.
    replace (1 + 0 * 4) with 1 by lra. replace (1 + 1 * 4) with 5 by lra.
    reflexivity.
  - cbn [Examples.straightRow hd fst]. lra.
Qed.

(* ===================================================================== *)
(** * Sharp junctions among the fixed points (C2) *)
(* ===================================================================== *)

(** With at least two bend points the filter does what its docstring
    says: an interior bend point that survives deviates by less than 85
    degrees. *)
Lemma filterSharpJunctions_sound (path : Path) (vertexIndices : list Z)
  (idx : Z) :
  (2 <= length vertexIndices)%nat ->
  In idx (filterSharpJunctions path vertexIndices) ->
  (0 < idx < Z.of_nat (length path) - 1)%Z ->
  Rabs (deviationAngle path (Z.to_nat idx)) < sharp_angle_deg * PI / 180.
Proof.
  intros Hlen Hin Hidx. unfold filterSharpJunctions in Hin.
  destruct (Nat.ltb_spec (length vertexIndices) 2) as [H | _]; [lia |].
  apply filter_In in Hin. destruct Hin as [_ Hkeep].
  destruct (Z.leb_spec idx 0) as [H | _]; [lia |].
  destruct (Z.leb_spec (Z.of_nat (length path) - 1) idx) as [H | _]; [lia |].
  cbn [orb] in Hkeep. now apply ltb_true_iff.
Qed.

(** A bend point that is alone is returned as it is, however sharp. *)
Lemma filterSharpJunctions_single (path : Path) (idx : Z) :
  filterSharpJunctions path [idx] = [idx].
Proof. reflexivity. Qed.

Lemma atan2_west (y x : R) :
  x < 0 -> 0 <= y -> atan2 y x = atan (y / x) + PI.
Proof. intros Hx Hy. unfold atan2. rdecide; try reflexivity. Qed.

(** The deviation at the middle vertex of [hairpin] is more than 90
    degrees (it is about 170 degrees: [174 / 985] is the tangent of 10
    degrees). *)
Lemma hairpin_deviation :
  PI / 2 < Rabs (deviationAngle Examples.hairpin 1).
Proof.
  unfold deviationAngle, vertex, Examples.hairpin, getLineSlope.
  cbn [nth Nat.add Nat.sub fst snd].
  rewrite !atan2_west by lra.
  replace ((0 - 0) / (0 - 1000)) with 0 by (field; lra).
  rewrite atan_0.
  set (a := atan ((174 - 0) / (15 - 1000))).
  assert (Hlo : - PI / 2 < a) by apply atan_bound.
  assert (Hhi : a < 0).
  { rewrite <- atan_0. apply atan_increasing.
    apply Rmult_lt_reg_r with (1000 - 15); [lra |].
    replace ((174 - 0) / (15 - 1000) * (1000 - 15)) with (- 174)
      by (field; lra).
    lra. }
  pose proof PI_RGT_0 as Hpi.
  replace (a + PI - (0 + PI)) with a by lra.
  rewrite (Rabs_left a) by lra.
  rewrite Rabs_left by lra. lra.
Qed.

Lemma hairpin_bend_points :
  getPathVertices Examples.hairpin tolerance_degree = [1%Z].
Proof.
  unfold getPathVertices, tolerance_degree.
  change (seq 1 (length Examples.hairpin - 2)) with [1%nat].
  cbn [filter].
  assert (H : ltb (20 * PI / 180) (Rabs (deviationAngle Examples.hairpin 1))
              = true).
  { apply ltb_true_iff. pose proof hairpin_deviation. pose proof PI_RGT_0.
    lra. }
  rewrite H. reflexivity.
Qed.


(** A sub-path shorter than the pitch receives no interior candidate. *)
Lemma distributeAlongPath_short (path : Path) (p : R) :
  noZeroSegment path -> 0 <= pathLength path < p ->
  distributeAlongPath path p = Ok [].
Proof.
  intros Hpath [HL Hp]. unfold distributeAlongPath.
  rewrite (index_last _ 0 (getPathCumDist_nonempty path)). cbn [bind].
  destruct (Req_dec_T p 0) as [H | _]; [lra |].
  destruct (PathInterpolator_init_ok path Hpath) as [sx [sy [_ [_ Hinit]]]].
  rewrite Hinit. cbn [bind].
  rewrite range_empty; [reflexivity |].
  fold (pathLength path).
  assert (Hq : pathLength path / p < 1).
  { apply Rmult_lt_reg_r with p; [lra |].
    unfold Rdiv. rewrite Rmult_assoc, Rinv_l by lra. lra. }
  pose proof (Zfloor_bound (pathLength path / p)) as [Hf _].
  assert (IZR (Zfloor (pathLength path / p)) < 1) by lra.
  assert (Zfloor (pathLength path / p) < 1)%Z by now apply lt_IZR.
  lia.
Qed.

Lemma hypot_lt (x y c : R) : 0 < c -> x * x + y * y < c * c -> hypot x y < c.
Proof.
  intros Hc H. unfold hypot. rewrite <- (sqrt_square c) by lra.
  apply sqrt_lt_1_alt. split; [nra | exact H].
Qed.

Lemma hairpin_first_leg :
  distributeAlongPath [(0, 0); (1000, 0)] 2000 = Ok [].
Proof.
  apply distributeAlongPath_short.
  - split; [| exact I]. intros H. injection H as H. lra.
  - rewrite pathLength_two, lineLength_horizontal by lra. lra.
Qed.

Lemma hairpin_second_leg :
  distributeAlongPath [(1000, 0); (15, 174)] 2000 = Ok [].
Proof.
  apply distributeAlongPath_short.
  - split; [| exact I]. intros H. injection H as H. lra.
  - rewrite pathLength_two. split.
    + pose proof (hypot_nonneg (15 - 1000) (174 - 0)).
      unfold lineLength. cbn [fst snd]. lra.
    + assert (hypot (15 - 1000) (174 - 0) < 2000)
        by (apply hypot_lt; lra).
      unfold lineLength. cbn [fst snd]. lra.
Qed.

(** With a pitch of 2000, longer than both legs, the candidates on
    [hairpin] are its fixed points alone. *)
Lemma hairpin_vias :
  viasOnFencePath Examples.hairpin 2000
  = Ok [(0, 0); (1000, 0); (15, 174)].
Proof.
  unfold viasOnFencePath, fixPointIdxList.
  rewrite hairpin_bend_points.
  change (filterSharpJunctions Examples.hairpin [1%Z]) with [1%Z].
  change (mapM (index Examples.hairpin) ([0%Z] ++ [1%Z] ++ [(-1)%Z]))
    with (Ok [(0, 0); (1000, 0); (15, 174)] : py (list Point)).
  cbn [bind].
  change (splitPathByPoints Examples.hairpin ([0%Z] ++ [1%Z] ++ [(-1)%Z]))
    with (Ok [[(0, 0); (1000, 0)]; [(1000, 0); (15, 174)]] : py (list Path)).
  cbn [bind mapM].
  pose proof hairpin_first_leg as H1. pose proof hairpin_second_leg as H2.
  unfold Path, Point in *. rewrite H1, H2. reflexivity.
Qed.

(** C2.  On the path [hairpin], [(0, 0)], [(1000, 0)], [(15, 174)], the
    only interior bend turns back by about 170 degrees: its deviation
    exceeds the threshold of 85 degrees.  [filterSharpJunctions] returns a
    list with fewer than two indices unchanged, so the bend stays in the
    fixed-point index list, the bend vertex [(1000, 0)] is among the fixed
    points, and it is emitted as a via candidate. *)
Theorem lone_sharp_bend_kept :
  sharp_angle_deg * PI / 180 < Rabs (deviationAngle Examples.hairpin 1)
  /\ getPathVertices Examples.hairpin tolerance_degree = [1%Z]
  /\ filterSharpJunctions Examples.hairpin [1%Z] = [1%Z]
  /\ fixPointIdxList Examples.hairpin = [0; 1; -1]%Z
  /\ mapM (index Examples.hairpin) (fixPointIdxList Examples.hairpin)
     = Ok [(0, 0); (1000, 0); (15, 174)]
  /\ viasOnFencePath Examples.hairpin 2000
     = Ok [(0, 0); (1000, 0); (15, 174)].
Proof.
  assert (Hfix : fixPointIdxList Examples.hairpin = [0; 1; -1]%Z).
  { unfold fixPointIdxList. rewrite hairpin_bend_points. reflexivity. }
  split.
  { pose proof hairpin_deviation. pose proof PI_RGT_0.
    unfold sharp_angle_deg. lra. }
  split; [exact hairpin_bend_points |].
  split; [reflexivity |].
  split; [exact Hfix |].
  split; [rewrite Hfix; reflexivity | exact hairpin_vias].
Qed.

(* ===================================================================== *)
(** * Further properties of the path primitives *)
(* ===================================================================== *)

Lemma lineLength_nonneg (a b : Point) : 0 <= lineLength a b.
Proof. apply hypot_nonneg. Qed.

Lemma getPathCumDist_monotone (path : Path) (i j : nat) :
  (i <= j)%nat -> (j < length path)%nat ->
  nth i (getPathCumDist path) 0 <= nth j (getPathCumDist path) 0.
Proof.
  intros Hij Hj. induction Hij as [| j Hij IH]; [lra |].
  apply Rle_trans with (nth j (getPathCumDist path) 0); [apply IH; lia |].
  pose proof (getPathCumDist_step path j) as Hs.
  rewrite Nat.add_1_r in Hs. rewrite Hs by lia.
  pose proof (lineLength_nonneg (vertex path (S j)) (vertex path j)). lra.
Qed.

(** X1.  The cumulative distance vector of any path starts with 0, has one
    entry per vertex, grows from one vertex to the next by the length of
    the segment between them, and is therefore non-decreasing. *)
Theorem getPathCumDist_profile (path : Path) :
  nth 0 (getPathCumDist path) 0 = 0
  /\ (path <> [] -> length (getPathCumDist path) = length path)
  /\ (forall i, (i + 1 < length path)%nat ->
        nth (i + 1) (getPathCumDist path) 0
        = nth i (getPathCumDist path) 0
          + lineLength (vertex path (i + 1)) (vertex path i))
  /\ (forall i j, (i <= j)%nat -> (j < length path)%nat ->
        nth i (getPathCumDist path) 0 <= nth j (getPathCumDist path) 0).
Proof.
  split; [reflexivity |]. split; [apply length_getPathCumDist |].
  split; [apply getPathCumDist_step | apply getPathCumDist_monotone].
Qed.

Lemma PathInterpolator_init_ok_iff (path : Path) :
  noZeroSegment path
  <-> exists pi, PathInterpolator_init (getPathCumDist path) path = Ok pi.
Proof.
  split.
  - intros H. destruct (PathInterpolator_init_ok path H) as [sx [sy [_ [_ E]]]].
    eexists. exact E.
  - intros [pi Hpi].
    assert (Hdec : noZeroSegment path \/ ~ noZeroSegment path).
    { clear Hpi. induction path as [| a path IH]; [now left |].
      destruct path as [| b path]; [now left |].
      destruct (Point_eq_dec a b) as [-> | Hab].
      - right. intros [H _]. now apply H.
      - destruct IH as [IH | IH]; [left; now split | right].
        intros [_ H]. now apply IH. }
    destruct Hdec as [H | H]; [exact H |].
    rewrite (PathInterpolator_init_zero_segment path H) in Hpi. discriminate.
Qed.

(** X2.  The interpolator of a path can be built exactly when the path has
    no segment of length zero; otherwise the constructor raises
    [ZeroDivisionError].  Once built, it raises [IndexError] for every
    distance greater than the length of the path. *)
Theorem PathInterpolator_domain (path : Path) :
  (noZeroSegment path
   <-> exists pi, PathInterpolator_init (getPathCumDist path) path = Ok pi)
  /\ (~ noZeroSegment path ->
      PathInterpolator_init (getPathCumDist path) path
      = Raise ZeroDivisionError)
  /\ (forall pi d,
        PathInterpolator_init (getPathCumDist path) path = Ok pi ->
        pathLength path < d ->
        PathInterpolator_call pi d = Raise IndexError).
Proof.
  split; [apply PathInterpolator_init_ok_iff |].
  split; [apply PathInterpolator_init_zero_segment |].
  intros pi d Hpi Hd. apply (PathInterpolator_call_beyond path); auto.
  apply PathInterpolator_init_ok_iff. now exists pi.
Qed.

(** X3.  On a path without zero-length segment, for every distance [d]
    with [0 < d <= L], where [L] is the length of the path, the
    interpolator returns the point of the path at distance [d] from the
    first vertex; at [d = L] this is the last vertex. *)
Theorem PathInterpolator_on_path (path : Path) (pi : PathInterpolator)
  (d : R) :
  noZeroSegment path ->
  PathInterpolator_init (getPathCumDist path) path = Ok pi ->
  0 < d <= pathLength path ->
  (exists pt, PathInterpolator_call pi d = Ok pt /\ pointAt path d pt)
  /\ PathInterpolator_call pi (pathLength path) = Ok (last path (0, 0)).
Proof.
  intros Hpath Hinit Hd. split.
  - now apply PathInterpolator_call_inside.
  - apply PathInterpolator_call_total_length; auto.
    destruct (Nat.lt_ge_cases (length path) 2) as [H | H]; [| exact H].
    rewrite (pathLength_short path H) in Hd. lra.
Qed.

Lemma straight_pathLength : pathLength Examples.straight = 10.
Proof. unfold pathLength. now rewrite straight_cumDist. Qed.

Lemma PathInterpolator_on_path_witness :
  noZeroSegment Examples.straight
  /\ PathInterpolator_init (getPathCumDist Examples.straight)
       Examples.straight = Ok Examples.straightInterpolator
  /\ 0 < 4 <= pathLength Examples.straight
  /\ ((exists pt,
         PathInterpolator_call Examples.straightInterpolator 4 = Ok pt
         /\ pointAt Examples.straight 4 pt)
      /\ PathInterpolator_call Examples.straightInterpolator
           (pathLength Examples.straight)
         = Ok (last Examples.straight (0, 0))).
Proof.
  assert (Hd : 0 < 4 <= pathLength Examples.straight)
    by (rewrite straight_pathLength; lra).
  split; [exact straight_noZeroSegment |].
  split; [exact straight_init |].
  split; [exact Hd |].
  apply PathInterpolator_on_path;
    [exact straight_noZeroSegment | exact straight_init | exact Hd].
Defined.

(** X4.  On a straight sub-path from [a] to [b], of length [L], with a
    pitch [p > 0] and [n = floor(L / p)], the candidates are the points
    [a + (k / n) (b - a)] for [k = 1, ..., n - 1], in this order. *)
Theorem distributeAlongPath_straight (a b : Point) (p : R) :
  a <> b -> 0 < p ->
  distributeAlongPath [a; b] p
  = Ok (map (fun k =>
               (fst a + IZR k / IZR (Zfloor (lineLength b a / p))
                        * (fst b - fst a),
                snd a + IZR k / IZR (Zfloor (lineLength b a / p))
                        * (snd b - snd a)))
            (range 1 (Zfloor (lineLength b a / p)))).
Proof.
  intros Hab Hp. rewrite distributeAlongPath_two by (auto; lra).
  assert (HL : 0 < lineLength b a) by (apply lineLength_pos; congruence).
  replace (0 + lineLength b a) with (lineLength b a) by lra.
  f_equal. apply map_ext_in. intros k Hk. apply in_range in Hk.
  assert (Hn : 2 <= IZR (Zfloor (lineLength b a / p)))
    by (apply IZR_le; lia).
  f_equal; field; lra.
Qed.

Lemma distributeAlongPath_straight_witness :
  (0, 0) <> (10, 0) /\ 0 < 3
  /\ distributeAlongPath [(0, 0); (10, 0)] 3
     = Ok (map (fun k =>
                  (fst (0, 0)
                   + IZR k / IZR (Zfloor (lineLength (10, 0) (0, 0) / 3))
                     * (fst (10, 0) - fst (0, 0)),
                   snd (0, 0)
                   + IZR k / IZR (Zfloor (lineLength (10, 0) (0, 0) / 3))
                     * (snd (10, 0) - snd (0, 0))))
               (range 1 (Zfloor (lineLength (10, 0) (0, 0) / 3)))).
Proof.
  assert (H : (0, 0) <> (10, 0) :> Point)
    by (intros E; injection E as E; lra).
  split; [exact H |]. split; [lra |].
  apply distributeAlongPath_straight; [exact H | lra].
Defined.

(* ===================================================================== *)
(** * Points on polygon edges *)
(* ===================================================================== *)

Lemma isPointOnLine_true (p l0 l1 : Point) :
  isPointOnLine p l0 l1 = true
  <-> ((fst l0 <= fst p <= fst l1 \/ fst l1 <= fst p <= fst l0)
       /\ (snd l0 <= snd p <= snd l1 \/ snd l1 <= snd p <= snd l0)
       /\ (snd l1 - snd p) * (fst l0 - fst p)
          - (fst l1 - fst p) * (snd l0 - snd p) = 0).
Proof.
  unfold isPointOnLine.
  rewrite !andb_true_iff, !orb_true_iff, !andb_true_iff, !leb_true_iff,
    eqb_true_iff.
  tauto.
Qed.

(** X5.  [isPointOnLine] holds exactly for the points of the closed
    segment from [l0] to [l1]: the points [l0 + t (l1 - l0)] with
    [0 <= t <= 1]. *)
Theorem isPointOnLine_iff_on_segment (p l0 l1 : Point) :
  isPointOnLine p l0 l1 = true
  <-> exists t, 0 <= t <= 1
                /\ fst p = fst l0 + t * (fst l1 - fst l0)
                /\ snd p = snd l0 + t * (snd l1 - snd l0).
Proof.
  rewrite isPointOnLine_true.
  destruct p as [px py], l0 as [x0 y0], l1 as [x1 y1]. cbn [fst snd].
  split.
  - intros [Hx [Hy Hcross]].
    assert (Ey : py * (x1 - x0) = y0 * (x1 - px) + y1 * (px - x0))
      by (apply Rminus_diag_uniq; rewrite <- Hcross; ring).
    destruct (Req_dec_T x0 x1) as [Ex | Nx].
    + subst x1. assert (px = x0) by lra. subst px.
      destruct (Req_dec_T y0 y1) as [Ey0 | Ny].
      * subst y1. exists 0. repeat split; lra.
      * exists ((py - y0) / (y1 - y0)). split; [| split].
        -- split.
           ++ destruct Hy as [Hy | Hy].
              ** apply Rmult_le_pos; [lra |]. left.
                 apply Rinv_0_lt_compat. lra.
              ** replace ((py - y0) / (y1 - y0))
                   with ((y0 - py) / (y0 - y1)) by (field; lra).
                 apply Rmult_le_pos; [lra |]. left.
                 apply Rinv_0_lt_compat. lra.
           ++ destruct Hy as [Hy | Hy].
              ** apply Rmult_le_reg_r with (y1 - y0); [lra |].
                 unfold Rdiv. rewrite Rmult_assoc, Rinv_l by lra. lra.
              ** replace ((py - y0) / (y1 - y0))
                   with ((y0 - py) / (y0 - y1)) by (field; lra).
                 apply Rmult_le_reg_r with (y0 - y1); [lra |].
                 unfold Rdiv. rewrite Rmult_assoc, Rinv_l by lra. lra.
        -- lra.
        -- field. lra.
    + exists ((px - x0) / (x1 - x0)). split; [| split].
      * split.
        -- destruct Hx as [Hx | Hx].
           ++ apply Rmult_le_pos; [lra |]. left.
              apply Rinv_0_lt_compat. lra.
           ++ replace ((px - x0) / (x1 - x0))
                with ((x0 - px) / (x0 - x1)) by (field; lra).
              apply Rmult_le_pos; [lra |]. left.
              apply Rinv_0_lt_compat. lra.
        -- destruct Hx as [Hx | Hx].
           ++ apply Rmult_le_reg_r with (x1 - x0); [lra |].
              unfold Rdiv. rewrite Rmult_assoc, Rinv_l by lra. lra.
           ++ replace ((px - x0) / (x1 - x0))
                with ((x0 - px) / (x0 - x1)) by (field; lra).
              apply Rmult_le_reg_r with (x0 - x1); [lra |].
              unfold Rdiv. rewrite Rmult_assoc, Rinv_l by lra. lra.
      * field. lra.
      * apply Rmult_eq_reg_r with (x1 - x0); [| lra].
        rewrite Ey. field. lra.
  - intros [t [[Ht0 Ht1] [-> ->]]]. split; [| split].
    + destruct (Rle_dec x0 x1); [left | right]; split; nra.
    + destruct (Rle_dec y0 y1); [left | right]; split; nra.
    + ring.
Qed.

(** X6.  [getPathsThroughPoints] returns exactly the polygon edges
    [[i, (i + 1) % n]] that carry a point of [pointList], each edge once
    and by increasing start index; in particular it returns at most [n]
    edges. *)
Theorem getPathsThroughPoints_spec (path : Path) (pointList : list Point) :
  (forall a b,
     In (a, b) (getPathsThroughPoints path pointList)
     <-> exists i, (i < length path)%nat
                   /\ a = Z.of_nat i
                   /\ b = Z.of_nat (Nat.modulo (i + 1) (length path))
                   /\ exists point,
                        In point pointList
                        /\ isPointOnLine point (vertex path i)
                             (vertex path (Nat.modulo (i + 1) (length path)))
                           = true)
  /\ StronglySorted Z.lt (map fst (getPathsThroughPoints path pointList))
  /\ (length (getPathsThroughPoints path pointList) <= length path)%nat.
Proof.
  unfold getPathsThroughPoints.
  set (n := length path).
  set (touches := fun vertexIdx =>
         existsb (fun point =>
                    isPointOnLine point (vertex path vertexIdx)
                      (vertex path (Nat.modulo (vertexIdx + 1) n)))
                 pointList).
  split; [| split].
  - intros a b. rewrite in_map_iff. split.
    + intros [i [E Hi]]. injection E as <- <-.
      apply filter_In in Hi. destruct Hi as [Hi Ht]. apply in_seq in Hi.
      exists i. split; [lia |]. split; [reflexivity |].
      split; [reflexivity |].
      unfold touches in Ht. apply existsb_exists in Ht. exact Ht.
    + intros [i [Hi [-> [-> Hex]]]]. exists i. split; [reflexivity |].
      apply filter_In. split; [apply in_seq; lia |].
      unfold touches. apply existsb_exists. exact Hex.
  - rewrite map_map. cbn [fst].
    assert (Hs : forall len start,
               StronglySorted Z.lt
                 (map Z.of_nat (filter touches (seq start len)))).
    { induction len as [| len IH]; intros start; [constructor |].
      cbn [seq filter]. destruct (touches start).
      - cbn [map]. constructor; [apply IH |].
        apply Forall_forall. intros z Hz. apply in_map_iff in Hz.
        destruct Hz as [k [<- Hk]]. apply filter_In in Hk.
        destruct Hk as [Hk _]. apply in_seq in Hk. lia.
      - apply IH. }
    apply Hs.
  - rewrite length_map.
    pose proof (filter_length_le touches (seq 0 n)) as H.
    now rewrite length_seq in H.
Qed.

(* ===================================================================== *)
(** * Sub-paths of a closed polygon *)
(* ===================================================================== *)

(** On a non-empty path every index of the requested range is reduced
    modulo the path's length, so no lookup fails. *)
Lemma getSubPath_ok (path : Path) (pathSpec : Z * Z) (d : Point) :
  path <> [] ->
  getSubPath path pathSpec
  = Ok (map (fun i => nth (Z.to_nat (i mod Z.of_nat (length path))) path d)
            (range (fst pathSpec)
                   ((if (snd pathSpec <? fst pathSpec)%Z
                     then snd pathSpec + Z.of_nat (length path)
                     else snd pathSpec) + 1))).
Proof.
  intros Hne. unfold getSubPath. apply mapM_ok. intros i _.
  assert (Hn : (0 < Z.of_nat (length path))%Z).
  { destruct path; [congruence | cbn [length]; lia]. }
  destruct (Z.eqb_spec (Z.of_nat (length path)) 0) as [E | _]; [lia |].
  pose proof (Z.mod_pos_bound i _ Hn) as Hb.
  rewrite <- (Z2Nat.id (i mod Z.of_nat (length path))) at 1 by lia.
  apply index_nat. lia.
Qed.

Lemma getSubPath_forward (path : Path) (i j : nat) :
  (i <= j < length path)%nat ->
  getSubPath path (Z.of_nat i, Z.of_nat j)
  = Ok (firstn (j - i + 1) (skipn i path)).
Proof.
  intros H.
  assert (Hne : path <> []) by (destruct path; [cbn in H; lia | congruence]).
  rewrite (getSubPath_ok path _ (0, 0) Hne). cbn [fst snd].
  destruct (Z.ltb_spec (Z.of_nat j) (Z.of_nat i)) as [Hlt | _]; [lia |].
  apply f_equal.
  apply (nth_ext _ _ (0, 0) (0, 0)).
  - rewrite length_map, length_range, length_firstn, length_skipn. lia.
  - intros k Hk. rewrite length_map, length_range in Hk.
    rewrite (nth_indep _ (0, 0)
               ((fun i0 => nth (Z.to_nat (i0 mod Z.of_nat (length path)))
                             path (0, 0)) 0%Z))
      by (rewrite length_map, length_range; exact Hk).
    rewrite (map_nth (fun i0 => nth (Z.to_nat (i0 mod Z.of_nat (length path)))
                                  path (0, 0))).
    rewrite nth_range by exact Hk.
    rewrite Z.mod_small by lia.
    rewrite nth_firstn, nth_skipn.
    destruct (Nat.ltb_spec k (j - i + 1)) as [_ | Hge]; [| lia].
    f_equal. lia.
Qed.

Lemma getSubPath_wrap (path : Path) (i j : nat) :
  (j < i <= length path)%nat ->
  getSubPath path (Z.of_nat i, Z.of_nat j)
  = Ok (skipn i path ++ firstn (j + 1) path).
Proof.
  intros H.
  assert (Hne : path <> []) by (destruct path; [cbn in H; lia | congruence]).
  rewrite (getSubPath_ok path _ (0, 0) Hne). cbn [fst snd].
  destruct (Z.ltb_spec (Z.of_nat j) (Z.of_nat i)) as [_ | Hge]; [| lia].
  apply f_equal.
  apply (nth_ext _ _ (0, 0) (0, 0)).
  - rewrite length_map, length_range, length_app, length_firstn, length_skipn.
    lia.
  - intros k Hk. rewrite length_map, length_range in Hk.
    rewrite (nth_indep _ (0, 0)
               ((fun i0 => nth (Z.to_nat (i0 mod Z.of_nat (length path)))
                             path (0, 0)) 0%Z))
      by (rewrite length_map, length_range; exact Hk).
    rewrite (map_nth (fun i0 => nth (Z.to_nat (i0 mod Z.of_nat (length path)))
                                  path (0, 0))).
    rewrite nth_range by exact Hk.
    destruct (Nat.lt_ge_cases k (length path - i)) as [Hlo | Hhi].
    + rewrite Z.mod_small by lia.
      rewrite app_nth1 by (rewrite length_skipn; exact Hlo).
      rewrite nth_skipn. f_equal. lia.
    + rewrite app_nth2 by (rewrite length_skipn; exact Hhi).
      rewrite length_skipn, nth_firstn.
      destruct (Nat.ltb_spec (k - (length path - i)) (j + 1)) as [_ | Hge];
        [| lia].
      replace ((Z.of_nat i + Z.of_nat k) mod Z.of_nat (length path))%Z
        with (Z.of_nat (k - (length path - i))).
      * f_equal. lia.
      * apply Z.mod_unique_pos with 1%Z; lia.
Qed.

Lemma getSubPath_empty_path (start stop : Z) :
  getSubPath [] (start, stop)
  = if (start <=? stop)%Z then Raise ZeroDivisionError else Ok [].
Proof.
  unfold getSubPath. cbn [fst snd length].
  destruct (Z.leb_spec start stop) as [Hle | Hgt].
  - destruct (Z.ltb_spec stop start) as [Hlt | _]; [lia |].
    unfold range.
    replace (Z.to_nat (stop + 1 - start))
      with (S (Z.to_nat (stop - start))) by lia.
    reflexivity.
  - destruct (Z.ltb_spec stop start) as [_ | Hge]; [| lia].
    rewrite range_empty by lia. reflexivity.
Qed.

(** X7.  [getSubPath] reads a closed polygon cyclically.  With vertex
    indices inside the path, a specification [[i, j]] with [i <= j]
    yields the slice [path[i : j + 1]], one with [j < i] wraps around the
    end, [path[i:] + path[: j + 1]], and in both cases no lookup fails.
    On an empty path a specification with [start <= stop] raises
    [ZeroDivisionError]. *)
Theorem getSubPath_cyclic_slice (path : Path) (i j : nat) :
  ((i <= j < length path)%nat ->
   getSubPath path (Z.of_nat i, Z.of_nat j)
   = Ok (firstn (j - i + 1) (skipn i path)))
  /\ ((j < i < length path)%nat ->
      getSubPath path (Z.of_nat i, Z.of_nat j)
      = Ok (skipn i path ++ firstn (j + 1) path))
  /\ ((i <= j)%nat ->
      getSubPath [] (Z.of_nat i, Z.of_nat j) = Raise ZeroDivisionError).
Proof.
  split; [| split].
  - apply getSubPath_forward.
  - intros H. apply getSubPath_wrap. lia.
  - intros H. rewrite getSubPath_empty_path.
    destruct (Z.leb_spec (Z.of_nat i) (Z.of_nat j)); [reflexivity | lia].
Qed.

(** X8.  Splitting a closed polygon around two butt edges [[i, i + 1]] and
    [[j, (j + 1) % n]] that are neither adjacent to each other on the
    [i + 1 .. j] side nor on the wrap-around side gives exactly two fence
    paths: the vertices [i + 1 .. j] and the vertices from [j + 1] around
    the end to [i].  Together they hold every vertex of the polygon once:
    their concatenation is the polygon rotated to start at vertex
    [i + 1]. *)
Theorem splitPathByPaths_two_butt_lines (path : Path) (i j : nat) :
  (i + 1 < j)%nat -> (j < length path)%nat ->
  ~ (i = 0%nat /\ j = (length path - 1)%nat) ->
  let buttLines :=
    [(Z.of_nat i, Z.of_nat (i + 1));
     (Z.of_nat j, Z.of_nat (Nat.modulo (j + 1) (length path)))] in
  let left := firstn (j - i) (skipn (i + 1) path) in
  let right := skipn (j + 1) path ++ firstn (i + 1) path in
  splitPathByPaths path buttLines = Ok [left; right]
  /\ left ++ right = skipn (i + 1) path ++ firstn (i + 1) path.
Proof.
  intros Hij Hj Hends buttLines left right. split.
  - change (splitPathByPaths path buttLines)
      with (getSubPaths path
              [(Z.of_nat (i + 1), Z.of_nat j);
               (Z.of_nat (Nat.modulo (j + 1) (length path)), Z.of_nat i)]).
    unfold getSubPaths. cbn [filter fst snd].
    destruct (Z.eqb_spec (Z.of_nat (i + 1)) (Z.of_nat j)) as [E | _]; [lia |].
    cbn [negb].
    destruct (Z.eqb_spec (Z.of_nat (Nat.modulo (j + 1) (length path)))
                (Z.of_nat i)) as [E | _].
    { exfalso. apply Nat2Z.inj in E.
      destruct (Nat.eq_dec (j + 1) (length path)) as [En | Nn].
      - rewrite En, Nat.Div0.mod_same in E. apply Hends. lia.
      - rewrite Nat.mod_small in E by lia. lia. }
    cbn [negb mapM].
    rewrite (getSubPath_forward path (i + 1) j) by lia.
    cbn [bind].
    replace (j - (i + 1) + 1)%nat with (j - i)%nat by lia.
    destruct (Nat.eq_dec (j + 1) (length path)) as [En | Nn].
    + rewrite En, Nat.Div0.mod_same.
      rewrite (getSubPath_forward path 0 i) by lia.
      cbn [bind]. unfold left, right.
      rewrite En, skipn_all. cbn [skipn app].
      now replace (i - 0 + 1)%nat with (i + 1)%nat by lia.
    + rewrite Nat.mod_small by lia.
      rewrite (getSubPath_wrap path (j + 1) i) by lia.
      reflexivity.
  - unfold left, right. rewrite app_assoc. f_equal.
    rewrite <- (firstn_skipn (j - i) (skipn (i + 1) path)) at 2.
    f_equal. rewrite skipn_skipn. f_equal. lia.
Qed.

Lemma splitPathByPaths_two_butt_lines_witness :
  (0 + 1 < 2)%nat /\ (2 < length Examples.square)%nat
  /\ ~ (0%nat = 0%nat /\ 2%nat = (length Examples.square - 1)%nat)
  /\ splitPathByPaths Examples.square
       [(Z.of_nat 0, Z.of_nat (0 + 1));
        (Z.of_nat 2, Z.of_nat (Nat.modulo (2 + 1) (length Examples.square)))]
     = Ok [firstn (2 - 0) (skipn (0 + 1) Examples.square);
           skipn (2 + 1) Examples.square ++ firstn (0 + 1) Examples.square].
Proof.
  assert (H1 : (0 + 1 < 2)%nat) by lia.
  assert (H2 : (2 < length Examples.square)%nat) by (cbn; lia).
  assert (H3 : ~ (0%nat = 0%nat /\ 2%nat = (length Examples.square - 1)%nat))
    by (cbn; lia).
  split; [exact H1 |]. split; [exact H2 |]. split; [exact H3 |].
  exact (proj1 (splitPathByPaths_two_butt_lines Examples.square 0 2 H1 H2 H3)).
Defined.

(* ===================================================================== *)
(** * Bend points *)
(* ===================================================================== *)

Lemma atan2_opposite (y x : R) :
  (x <> 0 \/ y <> 0) -> Rabs (atan2 y x - atan2 (- y) (- x)) = PI.
Proof.
  intros Hnz. pose proof PI_RGT_0 as Hpi.
  assert (Hq : x <> 0 -> - y / - x = y / x) by (intros; field; assumption).
  unfold atan2.
  destruct (Rlt_dec 0 x) as [Hx | Hx].
  - destruct (Rlt_dec 0 (- x)) as [H | _]; [lra |].
    destruct (Rlt_dec (- x) 0) as [_ | H]; [| lra].
    rewrite Hq by lra.
    destruct (Rle_dec 0 (- y)).
    + replace (atan (y / x) - (atan (y / x) + PI)) with (- PI) by ring.
      rewrite Rabs_Ropp. apply Rabs_pos_eq. lra.
    + replace (atan (y / x) - (atan (y / x) - PI)) with PI by ring.
      apply Rabs_pos_eq. lra.
  - destruct (Rlt_dec x 0) as [Hx' | Hx'].
    + destruct (Rlt_dec 0 (- x)) as [_ | H]; [| lra].
      rewrite Hq by lra.
      destruct (Rle_dec 0 y).
      * replace (atan (y / x) + PI - atan (y / x)) with PI by ring.
        apply Rabs_pos_eq. lra.
      * replace (atan (y / x) - PI - atan (y / x)) with (- PI) by ring.
        rewrite Rabs_Ropp. apply Rabs_pos_eq. lra.
    + assert (x = 0) by lra. subst x.
      destruct (Rlt_dec 0 (- 0)) as [H | _]; [lra |].
      destruct (Rlt_dec (- 0) 0) as [H | _]; [lra |].
      destruct (Rlt_dec 0 y) as [Hy | Hy].
      * destruct (Rlt_dec 0 (- y)) as [H | _]; [lra |].
        destruct (Rlt_dec (- y) 0) as [_ | H]; [| lra].
        replace (PI / 2 - - (PI / 2)) with PI by field.
        apply Rabs_pos_eq. lra.
      * destruct (Rlt_dec y 0) as [Hy' | Hy']; [| exfalso; lra].
        destruct (Rlt_dec 0 (- y)) as [_ | H]; [| lra].
        replace (- (PI / 2) - PI / 2) with (- PI) by field.
        rewrite Rabs_Ropp. apply Rabs_pos_eq. lra.
Qed.

Lemma atan2_scale (k y x : R) : 0 < k -> atan2 (k * y) (k * x) = atan2 y x.
Proof.
  intros Hk. unfold atan2.
  assert (Hq : x <> 0 -> k * y / (k * x) = y / x) by (intros; field; lra).
  destruct (Rlt_dec 0 x) as [Hx | Hx].
  - destruct (Rlt_dec 0 (k * x)) as [_ | H]; [| exfalso; nra].
    now rewrite Hq by lra.
  - destruct (Rlt_dec 0 (k * x)) as [H | _]; [exfalso; nra |].
    destruct (Rlt_dec x 0) as [Hx' | Hx'].
    + destruct (Rlt_dec (k * x) 0) as [_ | H]; [| exfalso; nra].
      rewrite Hq by lra.
      destruct (Rle_dec 0 y), (Rle_dec 0 (k * y)); try reflexivity;
        exfalso; nra.
    + destruct (Rlt_dec (k * x) 0) as [H | _]; [exfalso; nra |].
      destruct (Rlt_dec 0 y), (Rlt_dec 0 (k * y)); try (exfalso; nra);
        [reflexivity |].
      destruct (Rlt_dec y 0), (Rlt_dec (k * y) 0); try reflexivity;
        exfalso; nra.
Qed.

(** The deviation at a vertex that lies strictly between its two
    neighbours on the straight line through them is exactly zero. *)
Lemma deviationAngle_collinear (path : Path) (idx : nat) (t : R) :
  0 < t < 1 ->
  vertex path (idx - 1) <> vertex path (idx + 1) ->
  fst (vertex path idx)
  = fst (vertex path (idx - 1))
    + t * (fst (vertex path (idx + 1)) - fst (vertex path (idx - 1))) ->
  snd (vertex path idx)
  = snd (vertex path (idx - 1))
    + t * (snd (vertex path (idx + 1)) - snd (vertex path (idx - 1))) ->
  deviationAngle path idx = 0.
Proof.
  intros Ht Hne Hx Hy. unfold deviationAngle, getLineSlope.
  destruct (vertex path (idx - 1)) as [ax ay].
  destruct (vertex path (idx + 1)) as [bx by_].
  destruct (vertex path idx) as [vx vy].
  cbn [fst snd] in *. subst vx vy.
  assert (Hnz : bx - ax <> 0 \/ by_ - ay <> 0).
  { destruct (Req_dec_T ax bx) as [Ex | Nx]; [| left; lra].
    destruct (Req_dec_T ay by_) as [Ey | Ny]; [| right; lra].
    exfalso. apply Hne. congruence. }
  replace (by_ - (ay + t * (by_ - ay))) with ((1 - t) * (by_ - ay)) by ring.
  replace (bx - (ax + t * (bx - ax))) with ((1 - t) * (bx - ax)) by ring.
  replace (ay - (ay + t * (by_ - ay))) with (t * (- (by_ - ay))) by ring.
  replace (ax - (ax + t * (bx - ax))) with (t * (- (bx - ax))) by ring.
  rewrite !atan2_scale by lra.
  rewrite (atan2_opposite _ _ Hnz). ring.
Qed.

(** X9.  [getPathVertices] returns vertex indices in strictly increasing
    order, all of them interior ([1 <= idx <= len(path) - 2]); a path with
    fewer than three vertices has no bend point. *)
Theorem getPathVertices_interior_increasing (path : Path)
  (angleTolerance : R) :
  StronglySorted Z.lt (getPathVertices path angleTolerance)
  /\ (forall idx, In idx (getPathVertices path angleTolerance) ->
                  (1 <= idx <= Z.of_nat (length path) - 2)%Z)
  /\ ((length path < 3)%nat -> getPathVertices path angleTolerance = []).
Proof.
  unfold getPathVertices.
  set (f := fun idx => ltb (angleTolerance * PI / 180)
                         (Rabs (deviationAngle path idx))).
  split; [| split].
  - generalize (length path - 2)%nat as len. generalize 1%nat as start.
    intros start len. revert start.
    induction len as [| len IH]; intros start; [constructor |].
    cbn [seq filter]. destruct (f start).
    + cbn [map]. constructor; [apply IH |].
      apply Forall_forall. intros z Hz. apply in_map_iff in Hz.
      destruct Hz as [k [<- Hk]]. apply filter_In in Hk.
      destruct Hk as [Hk _]. apply in_seq in Hk. lia.
    + apply IH.
  - intros idx Hin. apply in_map_iff in Hin. destruct Hin as [k [<- Hk]].
    apply filter_In in Hk. destruct Hk as [Hk _]. apply in_seq in Hk. lia.
  - intros Hlen. replace (length path - 2)%nat with 0%nat by lia.
    reflexivity.
Qed.

Lemma filterSharpJunctions_incl (path : Path) (vertexIndices : list Z)
  (idx : Z) :
  In idx (filterSharpJunctions path vertexIndices) -> In idx vertexIndices.
Proof.
  unfold filterSharpJunctions.
  destruct (length vertexIndices <? 2)%nat; [tauto |].
  intros H. apply filter_In in H. apply H.
Qed.

(** X10.  With the tolerance of 20 degrees that [generateViaFence] works
    with, a vertex of a fence path that lies strictly between its two
    neighbours on the straight line through them is no bend point and no
    fixed point of the fence path: the list [[0] + bendPointIdxList +
    [-1]] does not hold its index, so no via is anchored at it. *)
Theorem collinear_vertex_is_no_fixed_point (fencePath : Path) (idx : nat)
  (t : R) :
  (1 <= idx)%nat ->
  0 < t < 1 ->
  vertex fencePath (idx - 1) <> vertex fencePath (idx + 1) ->
  fst (vertex fencePath idx)
  = fst (vertex fencePath (idx - 1))
    + t * (fst (vertex fencePath (idx + 1))
           - fst (vertex fencePath (idx - 1))) ->
  snd (vertex fencePath idx)
  = snd (vertex fencePath (idx - 1))
    + t * (snd (vertex fencePath (idx + 1))
           - snd (vertex fencePath (idx - 1))) ->
  ~ In (Z.of_nat idx) (getPathVertices fencePath tolerance_degree)
  /\ ~ In (Z.of_nat idx) (fixPointIdxList fencePath).
Proof.
  intros Hidx Ht Hne Hx Hy.
  pose proof (deviationAngle_collinear fencePath idx t Ht Hne Hx Hy) as Hdev.
  assert (Hbend : ~ In (Z.of_nat idx)
                      (getPathVertices fencePath tolerance_degree)).
  { unfold getPathVertices. intros Hin. apply in_map_iff in Hin.
    destruct Hin as [k [Ek Hk]]. apply Nat2Z.inj in Ek. subst k.
    apply filter_In in Hk. destruct Hk as [_ Hk].
    apply ltb_true_iff in Hk. rewrite Hdev, Rabs_R0 in Hk.
    unfold tolerance_degree in Hk. pose proof PI_RGT_0. lra. }
  split; [exact Hbend |].
  unfold fixPointIdxList. intros Hin.
  apply in_app_or in Hin. destruct Hin as [[E | []] | Hin]; [lia |].
  apply in_app_or in Hin. destruct Hin as [Hin | [E | []]]; [| lia].
  apply Hbend. now apply filterSharpJunctions_incl in Hin.
Qed.

Lemma collinear_vertex_is_no_fixed_point_witness :
  (1 <= 1)%nat /\ 0 < 1 / 2 < 1
  /\ vertex [(0, 0); (5, 1); (10, 2)] (1 - 1)
     <> vertex [(0, 0); (5, 1); (10, 2)] (1 + 1)
  /\ ~ In (Z.of_nat 1)
         (getPathVertices [(0, 0); (5, 1); (10, 2)] tolerance_degree)
  /\ ~ In (Z.of_nat 1) (fixPointIdxList [(0, 0); (5, 1); (10, 2)]).
Proof.
  assert (Hne : vertex [(0, 0); (5, 1); (10, 2)] (1 - 1)
                <> vertex [(0, 0); (5, 1); (10, 2)] (1 + 1)).
  { unfold vertex; cbn [nth Nat.sub Nat.add]. intros E. injection E. lra. }
  split; [lia |]. split; [lra |]. split; [exact Hne |].
  apply (collinear_vertex_is_no_fixed_point [(0, 0); (5, 1); (10, 2)] 1
           (1 / 2)).
  - lia.
  - lra.
  - exact Hne.
  - unfold vertex; cbn [nth Nat.sub Nat.add fst snd]. lra.
  - unfold vertex; cbn [nth Nat.sub Nat.add fst snd]. lra.
Defined.

(* ===================================================================== *)
(** * Arc discretisation *)
(* ===================================================================== *)

(** The deviation that [calculate_adaptive_segments] works with: the
    allowed deviation in internal units, at most half the radius. *)
Lemma calculate_adaptive_segments_unfold (radius arc_angle max_deviation_mm : R)
  (min_segments : Z) :
  0 < radius -> 0 < arc_angle -> 0 < max_deviation_mm ->
  let max_dev := Rmin (if ltb 100000 radius
                       then max_deviation_mm * 1000000
                       else max_deviation_mm * 10000) (radius * 0.5) in
  0 < max_dev <= radius * 0.5
  /\ 0 < acos (1 - max_dev / radius) <= PI
  /\ calculate_adaptive_segments radius arc_angle max_deviation_mm
       min_segments
     = Z.max min_segments
         (Z.min (Zceil (arc_angle / (2 * acos (1 - max_dev / radius)))) 200).
Proof.
  intros Hr Ha Hd max_dev.
  assert (Hdev : 0 < max_dev <= radius * 0.5).
  { unfold max_dev. split; [| apply Rmin_r].
    apply Rmin_glb_lt; [| lra]. destruct (ltb 100000 radius); lra. }
  assert (Hq : 0 < max_dev / radius <= 1 / 2).
  { split.
    - apply Rdiv_lt_0_compat; lra.
    - apply Rmult_le_reg_r with radius; [lra |].
      unfold Rdiv at 1. rewrite Rmult_assoc, Rinv_l by lra. lra. }
  assert (Hacos : 0 < acos (1 - max_dev / radius) <= PI).
  { split; [| apply acos_bound]. apply acos_bound_lt. lra. }
  split; [exact Hdev |]. split; [exact Hacos |].
  unfold calculate_adaptive_segments. fold max_dev.
  assert (E1 : leb radius 0 = false) by (apply leb_false_iff; lra).
  assert (E2 : leb arc_angle 0 = false) by (apply leb_false_iff; lra).
  assert (E3 : leb radius max_dev = false) by (apply leb_false_iff; lra).
  assert (E4 : leb max_dev 0 = false) by (apply leb_false_iff; lra).
  rewrite E1, E2, E3, E4. cbn [orb].
  rewrite (Rmin_right 1 (1 - max_dev / radius)) by lra.
  rewrite (Rmax_right (-1) (1 - max_dev / radius)) by lra.
  assert (E5 : leb (2 * acos (1 - max_dev / radius)) 0 = false)
    by (apply leb_false_iff; lra).
  rewrite E5. reflexivity.
Qed.

(** X11.  The segment count does what the sagitta formula of the docstring
    asks for: for a proper arc, whenever fewer than 200 segments are
    returned, a chord over [arc_angle / n] of the circle deviates from the
    arc by at most the allowed deviation (in internal units, and at most
    half the radius): [radius * (1 - cos (arc_angle / (2 n))) <= max_dev]. *)
Theorem calculate_adaptive_segments_sagitta
  (radius arc_angle max_deviation_mm : R) (min_segments : Z) :
  0 < radius -> 0 < arc_angle -> 0 < max_deviation_mm ->
  (calculate_adaptive_segments radius arc_angle max_deviation_mm min_segments
   < 200)%Z ->
  let n := calculate_adaptive_segments radius arc_angle max_deviation_mm
             min_segments in
  let max_dev := Rmin (if ltb 100000 radius
                       then max_deviation_mm * 1000000
                       else max_deviation_mm * 10000) (radius * 0.5) in
  (1 <= n)%Z
  /\ radius * (1 - cos (arc_angle / (2 * IZR n))) <= max_dev.
Proof.
  intros Hr Ha Hd Hcap n max_dev.
  destruct (calculate_adaptive_segments_unfold radius arc_angle
              max_deviation_mm min_segments Hr Ha Hd)
    as [Hdev [Hacos Hn]].
  fold max_dev in Hdev, Hacos, Hn. fold n in Hn. unfold n in Hcap.
  fold n in Hcap.
  set (theta := acos (1 - max_dev / radius)) in *.
  set (segments := Zceil (arc_angle / (2 * theta))) in *.
  assert (Hseg : (segments <= n)%Z) by lia.
  pose proof (Zceil_bound (arc_angle / (2 * theta))) as [_ Hup].
  fold segments in Hup.
  assert (Hpos : 0 < arc_angle / (2 * theta))
    by (apply Rdiv_lt_0_compat; lra).
  assert (Hseg1 : (1 <= segments)%Z).
  { assert (0 < IZR segments) by lra.
    assert (0 < segments)%Z by now apply lt_IZR. lia. }
  assert (Hn1 : (1 <= n)%Z) by lia.
  split; [exact Hn1 |].
  assert (HnR : 1 <= IZR n) by now apply IZR_le.
  assert (HsegR : IZR segments <= IZR n) by now apply IZR_le.
  assert (Hle : arc_angle / (2 * IZR n) <= theta).
  { apply Rmult_le_reg_r with (2 * IZR n); [lra |].
    unfold Rdiv. rewrite Rmult_assoc, Rinv_l by lra.
    assert (arc_angle <= IZR segments * (2 * theta)).
    { apply Rmult_le_reg_r with (/ (2 * theta)).
      - apply Rinv_0_lt_compat. lra.
      - rewrite Rmult_assoc, Rinv_r by lra. unfold Rdiv in Hup. lra. }
    nra. }
  assert (Hge0 : 0 <= arc_angle / (2 * IZR n)).
  { apply Rlt_le, Rdiv_lt_0_compat; lra. }
  assert (Hcos : cos theta <= cos (arc_angle / (2 * IZR n))).
  { apply cos_decr_1; lra. }
  assert (Hq : 0 < max_dev / radius <= 1 / 2).
  { split.
    - apply Rdiv_lt_0_compat; lra.
    - apply Rmult_le_reg_r with radius; [lra |].
      unfold Rdiv at 1. rewrite Rmult_assoc, Rinv_l by lra. lra. }
  unfold theta in Hcos. rewrite cos_acos in Hcos by lra.
  apply Rle_trans with (radius * (max_dev / radius));
    [apply Rmult_le_compat_l; lra | right; field; lra].
Qed.

Lemma acos_half : acos (1 / 2) = PI / 3.
Proof.
  rewrite <- cos_PI3. apply acos_cos. pose proof PI_RGT_0. lra.
Qed.

Lemma calculate_adaptive_segments_half_turn :
  calculate_adaptive_segments 1 PI 1 1 = 2%Z.
Proof.
  pose proof PI_RGT_0 as Hpi.
  destruct (calculate_adaptive_segments_unfold 1 PI 1 1) as [_ [_ E]];
    try lra.
  rewrite E.
  assert (Ef : ltb 100000 1 = false) by (apply ltb_false_iff; lra).
  rewrite Ef. rewrite Rmin_right by lra.
  replace (1 - 1 * 0.5 / 1) with (1 / 2) by lra.
  rewrite acos_half.
  replace (PI / (2 * (PI / 3))) with (3 / 2) by (field; lra).
  rewrite (Zceil_eq 2) by lra. reflexivity.
Qed.

Lemma calculate_adaptive_segments_sagitta_witness :
  0 < 1 /\ 0 < PI /\ (calculate_adaptive_segments 1 PI 1 1 < 200)%Z
  /\ (1 <= calculate_adaptive_segments 1 PI 1 1)%Z
  /\ 1 * (1 - cos (PI / (2 * IZR (calculate_adaptive_segments 1 PI 1 1))))
     <= Rmin (if ltb 100000 1 then 1 * 1000000 else 1 * 10000) (1 * 0.5).
Proof.
  assert (Hcap : (calculate_adaptive_segments 1 PI 1 1 < 200)%Z)
    by (rewrite calculate_adaptive_segments_half_turn; lia).
  split; [lra |]. split; [apply PI_RGT_0 |]. split; [exact Hcap |].
  apply (calculate_adaptive_segments_sagitta 1 PI 1 1);
    [lra | apply PI_RGT_0 | lra | exact Hcap].
Defined.

(** X12.  For fixed radius, deviation and minimum, a longer arc never gets
    fewer segments. *)
Theorem calculate_adaptive_segments_monotone
  (radius arc_angle arc_angle' max_deviation_mm : R) (min_segments : Z) :
  arc_angle <= arc_angle' ->
  (calculate_adaptive_segments radius arc_angle max_deviation_mm min_segments
   <= calculate_adaptive_segments radius arc_angle' max_deviation_mm
        min_segments)%Z.
Proof.
  intros Hle. unfold calculate_adaptive_segments.
  destruct (leb radius 0) eqn:Er; cbn [orb]; [lia |].
  set (max_dev := Rmin (if ltb 100000 radius
                        then max_deviation_mm * 1000000
                        else max_deviation_mm * 10000) (radius * 0.5)).
  set (aps := 2 * acos (Rmax (-1) (Rmin 1 (1 - max_dev / radius)))).
  destruct (leb arc_angle' 0) eqn:Ea'.
  - apply leb_true_iff in Ea'.
    assert (Ea : leb arc_angle 0 = true) by (apply leb_true_iff; lra).
    rewrite Ea. lia.
  - destruct (leb radius max_dev || leb max_dev 0) eqn:Ed.
    + destruct (leb arc_angle 0); lia.
    + destruct (leb aps 0) eqn:Eaps.
      * destruct (leb arc_angle 0); lia.
      * apply leb_false_iff in Eaps.
        destruct (leb arc_angle 0); [lia |].
        assert (Hz : (Zceil (arc_angle / aps) <= Zceil (arc_angle' / aps))%Z).
        { apply Zceil_le. unfold Rdiv. apply Rmult_le_compat_r; [| exact Hle].
          apply Rlt_le, Rinv_0_lt_compat. lra. }
        lia.
Qed.

Lemma calculate_adaptive_segments_monotone_witness :
  1 <= 2
  /\ (calculate_adaptive_segments 30000 1 0.1 16
      <= calculate_adaptive_segments 30000 2 0.1 16)%Z.
Proof.
  split; [lra | apply calculate_adaptive_segments_monotone; lra].
Defined.

(* ===================================================================== *)
(** * Distance from a point to a track segment *)
(* ===================================================================== *)

Lemma hypot_le (a b c d : R) :
  a * a + b * b <= c * c + d * d -> hypot a b <= hypot c d.
Proof. intros H. unfold hypot. now apply sqrt_le_1_alt. Qed.

Lemma hypot_comm (x y : R) : hypot x y = hypot y x.
Proof. unfold hypot. f_equal. ring. Qed.

(** The clamped projection parameter minimises the squared distance to the
    points of the segment. *)
Lemma clamped_projection_minimal (vx vy dx dy t : R) :
  0 < dx * dx + dy * dy -> 0 <= t <= 1 ->
  let tc := Rmax 0 (Rmin 1 ((vx * dx + vy * dy) / (dx * dx + dy * dy))) in
  0 <= tc <= 1
  /\ (vx - tc * dx) * (vx - tc * dx) + (vy - tc * dy) * (vy - tc * dy)
     <= (vx - t * dx) * (vx - t * dx) + (vy - t * dy) * (vy - t * dy).
Proof.
  intros HD Ht.
  set (D := dx * dx + dy * dy) in *.
  set (N := vx * dx + vy * dy).
  set (ts := N / D).
  assert (Hts : ts * D = N) by (unfold ts; field; lra).
  intros tc.
  assert (Hdiff : forall u,
             (vx - u * dx) * (vx - u * dx) + (vy - u * dy) * (vy - u * dy)
             = (vx * vx + vy * vy) - 2 * u * N + u * u * D)
    by (intros u; unfold N, D; ring).
  rewrite (Hdiff tc), (Hdiff t).
  unfold tc, Rmax, Rmin.
  destruct (Rle_dec 1 ts) as [H1 | H1].
  - destruct (Rle_dec 0 1) as [_ | H]; [| lra].
    split; [lra |].
    assert (HDN : D <= N) by nra.
    assert (0 <= D * (1 - t)) by (apply Rmult_le_pos; lra).
    assert (0 <= (1 - t) * (2 * N - D * (1 + t)))
      by (apply Rmult_le_pos; lra).
    lra.
  - destruct (Rle_dec 0 ts) as [H0 | H0].
    + split; [lra |].
      rewrite <- Hts.
      assert (0 <= (t - ts) * (t - ts) * D)
        by (apply Rmult_le_pos; [apply Rle_0_sqr | lra]).
      lra.
    + split; [lra |].
      assert (HN : N <= 0) by nra.
      assert (0 <= t * t * D)
        by (apply Rmult_le_pos; [apply Rle_0_sqr | lra]).
      assert (0 <= t * - N) by (apply Rmult_le_pos; lra).
      lra.
Qed.

(** X13.  [point_segment_distance] is the distance from the point to the
    closed segment: it is attained at a point [start + t (end - start)]
    with [0 <= t <= 1], and no point of the segment is nearer.  A segment
    whose ends coincide is treated as the single point [start]. *)
Theorem point_segment_distance_is_minimum (point start end_ : wxPoint) :
  let at_ := fun t =>
    hypot (IZR (wx point)
           - (IZR (wx start) + t * IZR (wx end_ - wx start)))
          (IZR (wy point)
           - (IZR (wy start) + t * IZR (wy end_ - wy start))) in
  (exists t, 0 <= t <= 1 /\ point_segment_distance point start end_ = at_ t)
  /\ (forall t, 0 <= t <= 1 ->
                point_segment_distance point start end_ <= at_ t).
Proof.
  intros at_. unfold point_segment_distance.
  destruct (Z.eqb_spec (wx end_ - wx start) 0) as [Ex | Nx];
    [destruct (Z.eqb_spec (wy end_ - wy start) 0) as [Ey | Ny] |]; cbn [andb].
  - assert (Hat : forall t, at_ t = distance point start).
    { intros t. unfold at_, distance. rewrite Ex, Ey, !Rmult_0_r, !Rplus_0_r.
      rewrite !minus_IZR. apply hypot_comm. }
    split.
    + exists 0. split; [lra | now rewrite Hat].
    + intros t _. rewrite Hat. lra.
  - set (dx := (wx end_ - wx start)%Z) in *.
    set (dy := (wy end_ - wy start)%Z) in *.
    assert (HD : 0 < IZR dx * IZR dx + IZR dy * IZR dy).
    { assert (IZR dy <> 0) by (intros H; apply Ny; now apply eq_IZR).
      nra. }
    rewrite !plus_IZR, !mult_IZR, !minus_IZR.
    set (vx := IZR (wx point) - IZR (wx start)).
    set (vy := IZR (wy point) - IZR (wy start)).
    split.
    + destruct (clamped_projection_minimal vx vy (IZR dx) (IZR dy) 0 HD)
        as [Hc _]; [lra |].
      eexists. split; [exact Hc |]. unfold at_. reflexivity.
    + intros t Ht.
      destruct (clamped_projection_minimal vx vy (IZR dx) (IZR dy) t HD Ht)
        as [_ Hmin].
      unfold at_. apply hypot_le. cbv zeta in Hmin.
      unfold vx, vy in *. lra.
  - set (dx := (wx end_ - wx start)%Z) in *.
    set (dy := (wy end_ - wy start)%Z) in *.
    assert (HD : 0 < IZR dx * IZR dx + IZR dy * IZR dy).
    { assert (IZR dx <> 0) by (intros H; apply Nx; now apply eq_IZR).
      nra. }
    rewrite !plus_IZR, !mult_IZR, !minus_IZR.
    set (vx := IZR (wx point) - IZR (wx start)).
    set (vy := IZR (wy point) - IZR (wy start)).
    split.
    + destruct (clamped_projection_minimal vx vy (IZR dx) (IZR dy) 0 HD)
        as [Hc _]; [lra |].
      eexists. split; [exact Hc |]. unfold at_. reflexivity.
    + intros t Ht.
      destruct (clamped_projection_minimal vx vy (IZR dx) (IZR dy) t HD Ht)
        as [_ Hmin].
      unfold at_. apply hypot_le. cbv zeta in Hmin.
      unfold vx, vy in *. lra.
Qed.

(* ===================================================================== *)
(** * The two de-duplication passes *)
(* ===================================================================== *)

Lemma uniqLoop_cons (uniq : list Point) (seen : list (Z * Z))
  (points : list Point) :
  uniqLoop uniq seen points = uniq ++ uniqLoop [] seen points.
Proof.
  revert uniq seen. induction points as [| v rest IH]; intros uniq seen.
  - cbn [uniqLoop]. now rewrite app_nil_r.
  - cbn [uniqLoop]. destruct (in_dec key_eq_dec (key v) seen).
    + apply IH.
    + rewrite (IH (uniq ++ [v])), (IH ([] ++ [v])).
      now rewrite <- app_assoc.
Qed.

Lemma distance_self (p : wxPoint) : distance p p = 0.
Proof.
  rewrite distance_sq.
  replace ((wy p - wy p) * (wy p - wy p) + (wx p - wx p) * (wx p - wx p))%Z
    with 0%Z by ring.
  apply sqrt_0.
Qed.

(** Once every key of [seen] belongs to a candidate within [tol] of a
    retained point, the candidates that the [seen] set drops are dropped
    by [dedupe_points] as well. *)
Lemma dedupeLoop_uniqLoop (tol : Z) (points : list Point) :
  (0 <= tol)%Z ->
  forall (seen : list (Z * Z)) (unique : list Point),
    (forall v, In (key v) seen ->
               existsb (fun u => leb (distance (wxPointOf v) (wxPointOf u))
                                     (IZR tol)) unique = true) ->
    dedupeLoop tol unique (uniqLoop [] seen points)
    = dedupeLoop tol unique points.
Proof.
  intros Htol. induction points as [| v rest IH]; intros seen unique Hinv.
  - reflexivity.
  - cbn [uniqLoop]. destruct (in_dec key_eq_dec (key v) seen) as [Hin | Hnot].
    + cbn [dedupeLoop]. rewrite (Hinv v Hin). cbn [negb].
      apply IH. exact Hinv.
    + rewrite uniqLoop_cons. cbn [app dedupeLoop].
      destruct (existsb (fun u => leb (distance (wxPointOf v) (wxPointOf u))
                                      (IZR tol)) unique) eqn:Hnear;
        cbn [negb].
      * apply IH. intros w [Hw | Hw]; [| now apply Hinv].
        unfold key in Hw.
        assert (Ew : wxPointOf w = wxPointOf v)
          by (apply wxPointOf_key; unfold key; congruence).
        rewrite Ew. exact Hnear.
      * apply IH. intros w [Hw | Hw].
        -- assert (Ew : wxPointOf w = wxPointOf v)
             by (apply wxPointOf_key; unfold key in *; congruence).
           rewrite Ew, existsb_app. cbn [existsb].
           rewrite distance_self.
           assert (El : leb 0 (IZR tol) = true)
             by (apply leb_true_iff; now apply IZR_le).
           rewrite El. now rewrite orb_true_r.
        -- rewrite existsb_app, (Hinv w Hw). reflexivity.
Qed.

(** X14.  In [Run] the pass over the [seen] set of integer coordinates
    changes nothing: for a via size that is not negative,
    [dedupe_points] applied to the combined candidates gives the same list
    with or without it. *)
Theorem seen_pass_is_redundant (viaSize : Z)
  (combinedViaPoints : list Point) :
  (0 <= viaSize)%Z ->
  prefilterDedupe viaSize combinedViaPoints
  = dedupe_points combinedViaPoints (int (IZR viaSize * 1.05)).
Proof.
  intros Hsize. unfold prefilterDedupe, dedupe_points.
  apply dedupeLoop_uniqLoop.
  - assert (H0 : 0 <= IZR viaSize * 1.05).
    { apply IZR_le in Hsize. lra. }
    unfold int. destruct (Rle_dec 0 (IZR viaSize * 1.05)) as [_ | H]; [| lra].
    apply (Zfloor_lub 0). exact H0.
  - intros v [].
Qed.

Lemma seen_pass_is_redundant_witness :
  (0 <= 10)%Z
  /\ prefilterDedupe 10 Examples.nearPair
     = dedupe_points Examples.nearPair (int (IZR 10 * 1.05)).
Proof.
  split; [lia | apply seen_pass_is_redundant; lia].
Defined.

Lemma separated_head (tol : Z) (unique rest : list Point) (v : Point) :
  separated tol (unique ++ v :: rest) ->
  forall u, In u unique ->
            IZR tol < distance (wxPointOf u) (wxPointOf v).
Proof.
  unfold separated. induction unique as [| a l IH]; intros Hsep u Hu.
  - destruct Hu.
  - cbn [app] in Hsep. inversion Hsep as [| a' l' Ha Hl]; subst.
    destruct Hu as [<- | Hu].
    + rewrite Forall_forall in Ha. apply Ha. apply in_elt.
    + now apply IH.
Qed.

Lemma dedupeLoop_separated (tol : Z) (points unique : list Point) :
  separated tol (unique ++ points) ->
  dedupeLoop tol unique points = unique ++ points.
Proof.
  revert unique. induction points as [| v rest IH]; intros unique Hsep.
  - cbn [dedupeLoop]. now rewrite app_nil_r.
  - cbn [dedupeLoop].
    rewrite existsb_none.
    + cbn [negb]. rewrite IH; rewrite <- app_assoc; [reflexivity | exact Hsep].
    + intros u Hu. apply leb_false_iff. rewrite distance_sym.
      pose proof (separated_head tol unique rest v Hsep u Hu). lra.
Qed.

(** X15.  [dedupe_points] is idempotent: what it returns is pairwise more
    than [tol] apart, so a second pass with the same tolerance keeps every
    point. *)
Theorem dedupe_points_idempotent (points : list Point) (tol : Z) :
  dedupe_points (dedupe_points points tol) tol = dedupe_points points tol.
Proof.
  unfold dedupe_points at 1.
  apply (dedupeLoop_separated tol (dedupe_points points tol) []).
  cbn [app]. unfold dedupe_points.
  destruct (dedupeLoop_app tol [] points) as [added [E [_ [_ [Hsep _]]]]].
  rewrite E. apply Hsep. constructor.
Qed.

(* ===================================================================== *)
(** * The clearance filters of [Run] *)
(* ===================================================================== *)

Lemma notIn_flat_map {A : Type} (f : A -> Point -> bool) (xs : list A)
  (l : list Point) (p : Point) :
  In p l ->
  notIn p (flat_map (fun x => filter (f x) l) xs)
  = negb (existsb (fun x => f x p) xs).
Proof.
  intros Hp. unfold notIn. f_equal.
  destruct (existsb (fun x => f x p) xs) eqn:E.
  - apply existsb_exists in E. destruct E as [x [Hx Hf]].
    apply existsb_exists. exists p. split.
    + apply in_flat_map. exists x. split; [exact Hx |].
      apply filter_In. now split.
    + destruct (Point_eq_dec p p); congruence.
  - apply existsb_none. intros q Hq.
    destruct (Point_eq_dec p q) as [<- | _]; [| reflexivity].
    apply in_flat_map in Hq. destruct Hq as [x [Hx Hq]].
    apply filter_In in Hq. destruct Hq as [_ Hf].
    assert (Ht : existsb (fun x => f x p) xs = true)
      by (apply existsb_exists; now exists x).
    congruence.
Qed.

Lemma filter_notIn_flat_map {A : Type} (f : A -> Point -> bool)
  (xs : list A) (l : list Point) :
  filter (fun p => notIn p (flat_map (fun x => filter (f x) l) xs)) l
  = filter (fun p => negb (existsb (fun x => f x p) xs)) l.
Proof. apply filter_ext_in. intros p Hp. now apply notIn_flat_map. Qed.

Lemma filter_length_lt {A : Type} (f : A -> bool) (l : list A) :
  (length (filter f l) < length l)%nat <-> exists x, In x l /\ f x = false.
Proof.
  induction l as [| a l IH]; cbn [filter length].
  - split; [lia | intros [x [[] _]]].
  - pose proof (filter_length_le f l) as Hle.
    destruct (f a) eqn:E; cbn [length].
    + rewrite <- Nat.succ_lt_mono, IH. split.
      * intros [x [Hx Hf]]. exists x. split; [now right | exact Hf].
      * intros [x [[<- | Hx] Hf]]; [congruence | now exists x].
    + split; [| lia]. intros _. exists a. split; [now left | exact E].
Qed.

(** What one of the two checks does to the candidate list: [removed] says
    whether the list became shorter, and the list keeps the candidates
    that overlap nothing. *)
Lemma check_loop {A : Type} (f : A -> Point -> bool) (xs : list A)
  (l : list Point) :
  let viasToRemove := flat_map (fun x => filter (f x) l) xs in
  let kept := filter (fun p => negb (existsb (fun x => f x p) xs)) l in
  match viasToRemove with
  | [] => kept = l /\ (length kept <? length l)%nat = false
  | _ :: _ =>
      filter (fun p => notIn p viasToRemove) l = kept
      /\ (length kept <? length l)%nat = true
  end.
Proof.
  intros viasToRemove kept.
  pose proof (filter_notIn_flat_map f xs l) as Hf.
  fold viasToRemove in Hf. fold kept in Hf.
  destruct viasToRemove as [| q rest] eqn:E.
  - assert (Hk : kept = l).
    { rewrite <- Hf. unfold notIn. cbn [existsb negb].
      clear. induction l as [| a l IH]; cbn; [reflexivity | now rewrite IH]. }
    split; [exact Hk |]. rewrite Hk. apply Nat.ltb_irrefl.
  - split; [exact Hf |]. apply Nat.ltb_lt. apply filter_length_lt.
    assert (Hq : In q viasToRemove) by (rewrite E; now left).
    unfold viasToRemove in Hq. apply in_flat_map in Hq.
    destruct Hq as [x [Hx Hq]]. apply filter_In in Hq.
    destruct Hq as [Hl Hfq]. exists q. split; [exact Hl |].
    apply negb_false_iff. apply existsb_exists. now exists x.
Qed.

Lemma filter_filter_implied {A : Type} (f g : A -> bool) (l : list A) :
  (forall x, f x = true -> g x = true) ->
  filter f (filter g l) = filter f l.
Proof.
  intros H. induction l as [| a l IH]; [reflexivity |]. cbn [filter].
  destruct (g a) eqn:Eg; cbn [filter].
  - now rewrite IH.
  - destruct (f a) eqn:Ef; [| exact IH].
    apply H in Ef. congruence.
Qed.

Lemma via_pad_overlaps_mono (pt : Point) (via_diam : R) (pad : Pad)
  (c c' : R) :
  c <= c' -> via_pad_overlaps pt via_diam pad c = true ->
  via_pad_overlaps pt via_diam pad c' = true.
Proof.
  unfold via_pad_overlaps. intros Hc. apply ltb_mono_r. lra.
Qed.

Lemma via_track_overlaps_mono (pt : Point) (via_diam : R) (track : Track)
  (c c' : R) :
  c <= c' -> via_track_overlaps pt via_diam track c = true ->
  via_track_overlaps pt via_diam track c' = true.
Proof.
  unfold via_track_overlaps. intros Hc. apply ltb_mono_r. lra.
Qed.

Lemma via_via_overlaps_mono (pt : Point) (via_diam : R) (ev : Via)
  (c c' : R) :
  c <= c' -> via_via_overlaps pt via_diam ev c = true ->
  via_via_overlaps pt via_diam ev c' = true.
Proof.
  unfold via_via_overlaps. intros Hc. apply ltb_mono_r. lra.
Qed.

Lemma extra_clearance_mono (FromMM_half viaNetId c c' netCode : Z) :
  (c <= c')%Z ->
  (extra_clearance FromMM_half viaNetId c netCode
   <= extra_clearance FromMM_half viaNetId c' netCode)%Z.
Proof.
  intros Hc. unfold extra_clearance.
  destruct (netCode =? viaNetId)%Z; [| exact Hc].
  pose proof (Z.div_le_mono c c' 2 ltac:(lia) Hc). lia.
Qed.

Lemma existsb_impl {A : Type} (f g : A -> bool) (l : list A) :
  (forall x, f x = true -> g x = true) ->
  existsb f l = true -> existsb g l = true.
Proof.
  intros H E. apply existsb_exists in E. destruct E as [x [Hx Hf]].
  apply existsb_exists. exists x. split; [exact Hx | now apply H].
Qed.

(** X16.  The box "remove vias with clearance violation" has no effect on
    the outcome of [Run]: provided [self.clearance] is still unset, or
    holds a value not above the board's clearance, the vias handed to
    [createVias] and the flag [removed] are the same whether the box is
    checked or not.  The precise filter rejects everything that
    [checkPads] and [checkTracks] reject. *)
Theorem remove_violations_box_has_no_effect (FromMM_half : Z)
  (board : Board) (self : Self)
  (combinedViaPoints : list Point) :
  (forall c, self_clearance self = Some c -> (c <= board_clearance board)%Z) ->
  fst (Run_filters FromMM_half board self true combinedViaPoints)
  = fst (Run_filters FromMM_half board self false combinedViaPoints)
  /\ self_viaPointsSafe
       (snd (Run_filters FromMM_half board self true combinedViaPoints))
     = self_viaPointsSafe
         (snd (Run_filters FromMM_half board self false combinedViaPoints)).
Proof.
  intros Hold. unfold Run_filters.
  set (l := prefilterDedupe (self_viaSize self) combinedViaPoints).
  set (size := IZR (self_viaSize self)).
  set (padHit := fun (pad : Pad) (viaPos : Point) =>
         match self_clearance self with
         | Some clearance => via_pad_overlaps viaPos size pad (IZR clearance)
         | None => false
         end).
  set (trackHit := fun (track : Track * Z) (viaPos : Point) =>
         via_track_overlaps viaPos size (fst track)
           (IZR (extra_clearance FromMM_half (self_viaNetId self)
                   (board_clearance board) (snd track)))).
  set (l1 := filter (fun p => negb (existsb (fun x => padHit x p)
                                      (board_GetPads board))) l).
  set (l2 := filter (fun p => negb (existsb (fun x => trackHit x p)
                                      (plainTracks (board_GetTracks board))))
               l1).
  (* checkPads *)
  assert (Hpads :
    checkPads board
      (mkSelf (self_viaSize self) (self_viaNetId self) (self_clearance self) l)
    = ((length l1 <? length l)%nat,
       mkSelf (self_viaSize self) (self_viaNetId self) (self_clearance self)
              l1)).
  { unfold checkPads. cbn [self_viaSize self_viaNetId self_clearance
                            self_viaPointsSafe].
    pose proof (check_loop padHit (board_GetPads board) l) as H.
    cbv zeta in H. fold l1 in H. unfold padHit in H at 1 2. fold size.
    destruct (flat_map _ (board_GetPads board)) as [| q rest].
    - destruct H as [H1 H2]. now rewrite H2, H1.
    - destruct H as [H1 H2]. now rewrite H2, H1. }
  rewrite Hpads.
  (* checkTracks *)
  assert (Htracks :
    checkTracks FromMM_half board
      (mkSelf (self_viaSize self) (self_viaNetId self) (self_clearance self)
              l1)
    = ((length l2 <? length l1)%nat,
       mkSelf (self_viaSize self) (self_viaNetId self)
              (Some (board_clearance board)) l2)).
  { unfold checkTracks. cbn [self_viaSize self_viaNetId self_clearance
                              self_viaPointsSafe].
    pose proof (check_loop trackHit (plainTracks (board_GetTracks board)) l1)
      as H.
    cbv zeta in H. fold l2 in H. unfold trackHit in H at 1 2. fold size.
    destruct (flat_map _ (plainTracks (board_GetTracks board)))
      as [| q rest].
    - destruct H as [H1 H2]. now rewrite H2, H1.
    - destruct H as [H1 H2]. now rewrite H2, H1. }
  rewrite Htracks.
  cbn [fst snd self_viaPointsSafe self_viaSize self_viaNetId self_clearance].
  (* the precise filter does not look at [self.clearance] *)
  unfold filter_vias_precise.
  cbn [self_viaSize self_viaNetId self_clearance self_viaPointsSafe].
  fold size.
  set (ok := fun pt : Point =>
         if existsb (fun pad => via_pad_overlaps pt size pad
                                  (IZR (board_clearance board)))
              (board_GetPads board)
         then false
         else if existsb (fun trk => trackHit trk pt)
                   (plainTracks (board_GetTracks board))
         then false
         else negb (existsb (fun ev => via_via_overlaps pt size ev
                                         (IZR (board_clearance board)))
                      (existingVias (board_GetTracks board)))).
  change (filter _ l2) with (filter ok l2).
  change (filter _ l) with (filter ok l).
  assert (H2 : filter ok l2 = filter ok l1).
  { apply filter_filter_implied. intros p Hp. unfold ok in Hp.
    destruct (existsb _ (board_GetPads board)); [discriminate |].
    destruct (existsb (fun trk => trackHit trk p) _); [discriminate |].
    reflexivity. }
  assert (H1 : filter ok l1 = filter ok l).
  { apply filter_filter_implied. intros p Hp. unfold ok in Hp.
    destruct (existsb (fun pad => via_pad_overlaps p size pad
                                    (IZR (board_clearance board)))
                (board_GetPads board)) eqn:E; [discriminate |].
    apply negb_true_iff.
    destruct (existsb (fun x => padHit x p) (board_GetPads board)) eqn:E';
      [| reflexivity].
    rewrite <- E. symmetry. revert E'. apply existsb_impl.
    intros pad. unfold padHit.
    destruct (self_clearance self) as [c |] eqn:Ec; [| discriminate].
    apply via_pad_overlaps_mono. apply IZR_le. now apply Hold. }
  rewrite H2, H1.
  split; [| reflexivity].
  pose proof (filter_length_le ok l1) as L1. rewrite H1 in L1.
  pose proof (filter_length_le ok l2) as L2. rewrite H2, H1 in L2.
  assert (L21 : (length l2 <= length l1)%nat) by apply filter_length_le.
  assert (L10 : (length l1 <= length l)%nat) by apply filter_length_le.
  destruct (Nat.ltb_spec (length (filter ok l)) (length l2)),
           (Nat.ltb_spec (length (filter ok l)) (length l)),
           (Nat.ltb_spec (length l1) (length l)),
           (Nat.ltb_spec (length l2) (length l1));
    cbn [orb]; try reflexivity; lia.
Qed.

Lemma remove_violations_box_has_no_effect_witness :
  (forall c, self_clearance (mkSelf 10 0 (Some 0%Z) []) = Some c ->
             (c <= board_clearance Examples.board)%Z)
  /\ fst (Run_filters 500000 Examples.board (mkSelf 10 0 (Some 0%Z) []) true
            Examples.nearPair)
     = fst (Run_filters 500000 Examples.board (mkSelf 10 0 (Some 0%Z) [])
              false Examples.nearPair).
Proof.
  assert (H : forall c, self_clearance (mkSelf 10 0 (Some 0%Z) []) = Some c ->
                        (c <= board_clearance Examples.board)%Z).
  { intros c E. injection E as <-. unfold Examples.board. simpl. lia. }
  split; [exact H |].
  exact (proj1 (remove_violations_box_has_no_effect 500000 Examples.board
                  (mkSelf 10 0 (Some 0%Z) []) Examples.nearPair H)).
Defined.

(** X17.  Raising the board's clearance never lets in a candidate that a
    smaller clearance rejects: on the same pads and tracks, the candidates
    accepted by [filter_vias_precise] at the larger clearance are among
    those accepted at the smaller one, so filtering at the smaller
    clearance first loses nothing. *)
Theorem filter_vias_precise_clearance_monotone (FromMM_half : Z)
  (pads : list Pad) (tracks : list TrackItem) (clearance clearance' : Z)
  (self : Self) (candidate_points : list Point) :
  (clearance <= clearance')%Z ->
  filter_vias_precise FromMM_half (mkBoard pads tracks clearance') self
    (filter_vias_precise FromMM_half (mkBoard pads tracks clearance) self
       candidate_points)
  = filter_vias_precise FromMM_half (mkBoard pads tracks clearance') self
      candidate_points.
Proof.
  intros Hc. unfold filter_vias_precise.
  cbn [board_GetPads board_GetTracks board_clearance].
  apply filter_filter_implied. intros pt Hpt.
  assert (HcR : IZR clearance <= IZR clearance') by now apply IZR_le.
  destruct (existsb (fun pad => via_pad_overlaps pt _ pad (IZR clearance'))
              pads) eqn:E1'; [discriminate |].
  destruct (existsb (fun pad => via_pad_overlaps pt _ pad (IZR clearance))
              pads) eqn:E1.
  { exfalso.
    assert (Ht : existsb (fun pad => via_pad_overlaps pt
                            (IZR (self_viaSize self)) pad (IZR clearance'))
                   pads = true).
    { revert E1. apply existsb_impl. intros pad.
      now apply via_pad_overlaps_mono. }
    congruence. }
  destruct (existsb
              (fun trk => via_track_overlaps pt _ (fst trk)
                 (IZR (extra_clearance FromMM_half _ clearance' (snd trk))))
              (plainTracks tracks)) eqn:E2'; [discriminate |].
  destruct (existsb
              (fun trk => via_track_overlaps pt _ (fst trk)
                 (IZR (extra_clearance FromMM_half _ clearance (snd trk))))
              (plainTracks tracks)) eqn:E2.
  { exfalso.
    assert (Ht : existsb
              (fun trk => via_track_overlaps pt (IZR (self_viaSize self))
                 (fst trk)
                 (IZR (extra_clearance FromMM_half (self_viaNetId self)
                         clearance' (snd trk))))
              (plainTracks tracks) = true).
    { revert E2. apply existsb_impl. intros trk.
      apply via_track_overlaps_mono. apply IZR_le.
      now apply extra_clearance_mono. }
    congruence. }
  apply negb_true_iff in Hpt. apply negb_true_iff.
  destruct (existsb (fun ev => via_via_overlaps pt _ ev (IZR clearance))
              (existingVias tracks)) eqn:E3; [| reflexivity].
  exfalso.
  assert (Ht : existsb (fun ev => via_via_overlaps pt
                          (IZR (self_viaSize self)) ev (IZR clearance'))
                 (existingVias tracks) = true).
  { revert E3. apply existsb_impl. intros ev.
    now apply via_via_overlaps_mono. }
  congruence.
Qed.

Lemma filter_vias_precise_clearance_monotone_witness :
  (0 <= 200)%Z
  /\ filter_vias_precise 500000 (mkBoard [Examples.pad] [] 200)
       (mkSelf 10 0 None [])
       (filter_vias_precise 500000 (mkBoard [Examples.pad] [] 0)
          (mkSelf 10 0 None []) Examples.nearPair)
     = filter_vias_precise 500000 (mkBoard [Examples.pad] [] 200)
         (mkSelf 10 0 None []) Examples.nearPair.
Proof.
  split; [lia | apply filter_vias_precise_clearance_monotone; lia].
Defined.

Lemma plainTracks_without_arcs (items : list TrackItem) :
  plainTracks (filter (fun t => negb (isArc t)) items) = plainTracks items.
Proof.
  induction items as [| [track n | track n | via n] items IH];
    cbn [filter isArc negb plainTracks flat_map app] in *;
    [reflexivity | | | ]; unfold plainTracks in *; cbn [flat_map];
    now rewrite IH.
Qed.

Lemma existingVias_without_arcs (items : list TrackItem) :
  existingVias (filter (fun t => negb (isArc t)) items) = existingVias items.
Proof.
  induction items as [| [track n | track n | via n] items IH];
    cbn [filter isArc negb existingVias flat_map app] in *;
    [reflexivity | | | ]; unfold existingVias in *; cbn [flat_map];
    now rewrite IH.
Qed.

(** X18.  Arcs are never tested: the exact-type tests select plain tracks
    and vias only, so taking every arc off the board changes neither the
    vias that [Run] keeps nor the flag [removed].  A candidate is never
    rejected for lying on an arc. *)
Theorem arcs_are_never_tested (FromMM_half : Z) (pads : list Pad)
  (tracks : list TrackItem) (clearance : Z) (self : Self)
  (isRemoveViasWithClearanceViolationChecked : bool)
  (combinedViaPoints : list Point) :
  Run_filters FromMM_half
    (mkBoard pads (filter (fun t => negb (isArc t)) tracks) clearance)
    self isRemoveViasWithClearanceViolationChecked combinedViaPoints
  = Run_filters FromMM_half (mkBoard pads tracks clearance) self
      isRemoveViasWithClearanceViolationChecked combinedViaPoints.
Proof.
  unfold Run_filters, checkPads, checkTracks, filter_vias_precise.
  cbn [board_GetPads board_GetTracks board_clearance].
  rewrite !plainTracks_without_arcs, !existingVias_without_arcs.
  reflexivity.
Qed.

(* ===================================================================== *)
(** * The circle through three points *)
(* ===================================================================== *)

(** X19.  [getCircleCenterRadius] raises [ZeroDivisionError] whenever the
    three points are collinear: the divisor of the first floor division is
    twice the cross product
    [(y3 - y1) * (x1 - x2) - (y2 - y1) * (x1 - x3)], which is zero then.
    This is so for an arc whose start and end coincide and for one whose
    mid point is its start or its end. *)
Theorem getCircleCenterRadius_collinear_raises (sp ep ip : wxPoint) :
  ((wy ip - wy sp) * (wx sp - wx ep)
   = (wy ep - wy sp) * (wx sp - wx ip))%Z ->
  getCircleCenterRadius sp ep ip = Raise ZeroDivisionError
  /\ getCircleCenterRadius sp sp ip = Raise ZeroDivisionError
  /\ getCircleCenterRadius sp ep sp = Raise ZeroDivisionError
  /\ getCircleCenterRadius sp ep ep = Raise ZeroDivisionError.
Proof.
  intros Hcross.
  assert (Hraise : forall a b c : wxPoint,
             ((wy c - wy a) * (wx a - wx b)
              = (wy b - wy a) * (wx a - wx c))%Z ->
             getCircleCenterRadius a b c = Raise ZeroDivisionError).
  { intros a b c H. unfold getCircleCenterRadius, floordiv.
    apply (f_equal IZR) in H. rewrite !mult_IZR, !minus_IZR in H.
    destruct (Req_dec_T
                (2 * ((IZR (wy c) - IZR (wy a)) * (IZR (wx a) - IZR (wx b))
                      - (IZR (wy b) - IZR (wy a))
                        * (IZR (wx a) - IZR (wx c)))) 0) as [_ | N];
      [reflexivity | exfalso; apply N; lra]. }
  split; [now apply Hraise |].
  split; [apply Hraise; ring |].
  split; apply Hraise; ring.
Qed.

Lemma getCircleCenterRadius_collinear_raises_witness :
  ((wy (mkwxPoint 5 0) - wy (mkwxPoint 0 0))
   * (wx (mkwxPoint 0 0) - wx (mkwxPoint 10 0))
   = (wy (mkwxPoint 10 0) - wy (mkwxPoint 0 0))
     * (wx (mkwxPoint 0 0) - wx (mkwxPoint 5 0)))%Z
  /\ getCircleCenterRadius (mkwxPoint 0 0) (mkwxPoint 10 0) (mkwxPoint 5 0)
     = Raise ZeroDivisionError.
Proof.
  split; [reflexivity |].
  apply (getCircleCenterRadius_collinear_raises
           (mkwxPoint 0 0) (mkwxPoint 10 0) (mkwxPoint 5 0)).
  reflexivity.
Defined.

(* ===================================================================== *)
(** * Arcs as polylines *)
(* ===================================================================== *)








(* ===================================================================== *)
(** * Leaf vertices *)
(* ===================================================================== *)

Lemma index_from_end {A : Type} (l : list A) (k : nat) (d : A) :
  (1 <= k <= length l)%nat ->
  index l (- Z.of_nat k) = Ok (nth (length l - k) l d).
Proof.
  intros Hk. unfold index.
  destruct (Z.ltb_spec (- Z.of_nat k) 0) as [_ | H]; [| lia].
  destruct (Z.ltb_spec (- Z.of_nat k + Z.of_nat (length l)) 0) as [H | _];
    [lia |].
  replace (Z.to_nat (- Z.of_nat k + Z.of_nat (length l)))
    with (length l - k)%nat by lia.
  rewrite (nth_error_nth' l d) by lia. reflexivity.
Qed.

Lemma split_fst_map {A B : Type} (l : list (A * B)) :
  fst (split l) = map fst l.
Proof.
  induction l as [| [a b] l IH]; [reflexivity |].
  cbn [split map fst]. destruct (split l). cbn [fst] in *. now rewrite IH.
Qed.

(** What [leafAt] gives for the two ends of a path with at least two
    vertices. *)
Lemma leafAt_ends (allVertices : list Point) (path : Path) :
  (2 <= length path)%nat ->
  leafAt allVertices path 0
  = Ok (if Nat.eqb (count_occ Point_eq_dec allVertices (vertex path 0)) 1
        then [(vertex path 0,
               getLineSlope (vertex path 1) (vertex path 0))]
        else [])
  /\ leafAt allVertices path (-1)
     = Ok (if Nat.eqb (count_occ Point_eq_dec allVertices (last path (0, 0))) 1
           then [(last path (0, 0),
                  getLineSlope (vertex path (length path - 2))
                               (last path (0, 0)))]
           else []).
Proof.
  intros Hlen. unfold leafAt, vertex. split.
  - change (index path 0) with (index path (Z.of_nat 0)).
    rewrite (index_nat path 0 (0, 0)) by lia. cbn [bind].
    destruct (Nat.eqb (count_occ Point_eq_dec allVertices (nth 0 path (0, 0)))
                1);
      [| reflexivity].
    cbn [Z.eqb]. change (index path 1) with (index path (Z.of_nat 1)).
    rewrite (index_nat path 1 (0, 0)) by lia. reflexivity.
  - rewrite (index_last path (0, 0))
      by (destruct path; [cbn in Hlen; lia | congruence]).
    cbn [bind].
    destruct (Nat.eqb (count_occ Point_eq_dec allVertices (last path (0, 0)))
                1);
      [| reflexivity].
    cbn [Z.eqb].
    change (index path (-2)) with (index path (- Z.of_nat 2)).
    rewrite (index_from_end path 2 (0, 0)) by lia. reflexivity.
Qed.

(** X21.  On paths with at least two vertices [getLeafVertices] does not
    fail and returns as many slopes as vertices.  A vertex is returned
    exactly when it is the first or the last vertex of some path and occurs
    only once among all vertices of all paths: an end point shared by two
    paths is not a leaf.  A path with a single vertex that occurs nowhere
    else raises [IndexError]. *)
Theorem getLeafVertices_spec (pathList : list Path) :
  (forall path, In path pathList -> (2 <= length path)%nat) ->
  (exists leafVertices leafVertexSlopes,
     getLeafVertices pathList = Ok (leafVertices, leafVertexSlopes)
     /\ length leafVertices = length leafVertexSlopes
     /\ forall v,
          In v leafVertices
          <-> (count_occ Point_eq_dec (concat pathList) v = 1%nat
               /\ exists path, In path pathList
                               /\ (v = vertex path 0
                                   \/ v = last path (0, 0))))
  /\ forall v, getLeafVertices [[v]] = Raise IndexError.
Proof.
  intros Hlen. split.
  - unfold getLeafVertices.
    set (allVertices := concat pathList).
    set (g := fun path : Path =>
           (if Nat.eqb (count_occ Point_eq_dec allVertices (vertex path 0)) 1
            then [(vertex path 0,
                   getLineSlope (vertex path 1) (vertex path 0))]
            else [])
           ++ (if Nat.eqb (count_occ Point_eq_dec allVertices (last path (0, 0))) 1
               then [(last path (0, 0),
                      getLineSlope (vertex path (length path - 2))
                                   (last path (0, 0)))]
               else [])).
    rewrite (mapM_ok _ g).
    2:{ intros path Hp. destruct (leafAt_ends allVertices path (Hlen _ Hp))
          as [-> ->]. reflexivity. }
    cbn [bind].
    destruct (split (concat (map g pathList))) as [lv ls] eqn:Es.
    exists lv, ls. split; [reflexivity |].
    assert (Elv : lv = map fst (concat (map g pathList)))
      by (rewrite <- split_fst_map, Es; reflexivity).
    split.
    + pose proof (length_fst_split (concat (map g pathList))) as L1.
      pose proof (length_snd_split (concat (map g pathList))) as L2.
      rewrite Es in L1, L2. cbn [fst snd] in L1, L2. congruence.
    + intros v. rewrite Elv, in_map_iff. split.
      * intros [[w s] [Ew Hin]]. cbn [fst] in Ew. subst w.
        apply in_concat in Hin. destruct Hin as [leaves [Hl Hin]].
        apply in_map_iff in Hl. destruct Hl as [path [<- Hp]].
        unfold g in Hin. apply in_app_or in Hin.
        destruct Hin as [Hin | Hin].
        -- destruct (Nat.eqb_spec
                       (count_occ Point_eq_dec allVertices (vertex path 0)) 1)
             as [Ec | _]; [| destruct Hin].
           destruct Hin as [E | []]. injection E as <- _.
           split; [exact Ec |]. exists path. split; [exact Hp | now left].
        -- destruct (Nat.eqb_spec
                       (count_occ Point_eq_dec allVertices (last path (0, 0)))
                       1) as [Ec | _]; [| destruct Hin].
           destruct Hin as [E | []]. injection E as <- _.
           split; [exact Ec |]. exists path. split; [exact Hp | now right].
      * intros [Hc [path [Hp Hv]]].
        destruct Hv as [-> | ->].
        -- exists (vertex path 0,
                   getLineSlope (vertex path 1) (vertex path 0)).
           split; [reflexivity |]. apply in_concat. exists (g path).
           split; [now apply in_map |]. unfold g. apply in_or_app. left.
           fold allVertices in Hc. rewrite Hc. now left.
        -- exists (last path (0, 0),
                   getLineSlope (vertex path (length path - 2))
                                (last path (0, 0))).
           split; [reflexivity |]. apply in_concat. exists (g path).
           split; [now apply in_map |]. unfold g. apply in_or_app. right.
           fold allVertices in Hc. rewrite Hc. now left.
  - intros v. unfold getLeafVertices, leafAt.
    cbn [concat app mapM]. unfold index at 1. cbn [length].
    cbn [Z.ltb Z.compare Z.of_nat Z.to_nat nth_error bind].
    cbn [count_occ].
    destruct (Point_eq_dec v v) as [_ | N]; [| congruence].
    cbn [Nat.eqb Z.eqb bind]. reflexivity.
Qed.

Lemma getLeafVertices_spec_witness :
  (forall path, In path [Examples.straight] -> (2 <= length path)%nat)
  /\ exists leafVertices leafVertexSlopes,
       getLeafVertices [Examples.straight]
       = Ok (leafVertices, leafVertexSlopes)
       /\ length leafVertices = length leafVertexSlopes.
Proof.
  assert (H : forall path, In path [Examples.straight] ->
                           (2 <= length path)%nat).
  { intros path [<- | []]. cbn. lia. }
  split; [exact H |].
  destruct (proj1 (getLeafVertices_spec [Examples.straight] H))
    as [lv [ls [E [L _]]]].
  exists lv, ls. split; [exact E | exact L].
Defined.

(* ===================================================================== *)
(** * The default row spacing *)
(* ===================================================================== *)

Lemma mapM_const {A B : Type} (f : A -> py B) (b : B) (l : list A) :
  (forall a, In a l -> f a = Ok b) -> mapM f l = Ok (repeat b (length l)).
Proof.
  intros H. rewrite (mapM_ok f (fun _ => b) l H). f_equal.
  clear H. induction l as [| a l IH]; [reflexivity |].
  cbn [map length repeat]. now rewrite IH.
Qed.

(** X22.  The default row spacing is [int(viaPitch * 1.5)], an integer.
    For a pitch below 2/3 (a pitch given in millimetres, say) it is 0, and
    then every row is generated at the same offset: the multi-row result
    is the single-row result repeated [numRows] times, every via
    duplicated. *)
Theorem default_row_spacing_collapses (clipper : Clipper)
  (pathList : list Path) (viaOffset viaPitch : R) (numRows : Z)
  (vias : list Point) :
  0 <= viaPitch < 2 / 3 ->
  (2 <= numRows)%Z ->
  generateViaFence clipper pathList viaOffset viaPitch = Ok vias ->
  generateViaFenceMultiRow clipper pathList viaOffset viaPitch numRows None
  = Ok (concat (repeat vias (Z.to_nat numRows))).
Proof.
  intros Hp Hn Hrow. unfold generateViaFenceMultiRow.
  destruct (Z.leb_spec numRows 1) as [H | _]; [lia |].
  assert (Hs : int (viaPitch * 1.5) = 0%Z).
  { unfold int. destruct (Rle_dec 0 (viaPitch * 1.5)) as [_ | H]; [| lra].
    apply Zfloor_eq. lra. }
  rewrite Hs.
  rewrite (mapM_const _ vias).
  - cbn [bind]. rewrite length_range.
    now replace (numRows - 0)%Z with numRows by lia.
  - intros rowIdx _. rewrite generateRow_unshifted.
    replace (viaOffset + IZR rowIdx * 0) with viaOffset by ring.
    exact Hrow.
Qed.

Lemma distributeAlongPath_upper_at (o p : R) :
  0 < p ->
  distributeAlongPath [(10, o); (0, o)] p
  = Ok (map (fun k => (10 - IZR k * 10 / IZR (Zfloor (10 / p)), o))
            (range 1 (Zfloor (10 / p)))).
Proof.
  intros Hp.
  rewrite distributeAlongPath_two;
    [| intros H; injection H as H; lra | lra].
  rewrite lineLength_swap, lineLength_horizontal by lra.
  replace (10 - 0) with 10 by lra. replace (0 + 10) with 10 by lra.
  apply f_equal. apply map_ext_in. intros k Hk. apply in_range in Hk.
  assert (Hn : 2 <= IZR (Zfloor (10 / p))) by (apply IZR_le; lia).
  cbn [fst snd]. apply f_equal2; field; lra.
Qed.

Lemma distributeAlongPath_lower_at (o p : R) :
  0 < p ->
  distributeAlongPath [(0, - o); (10, - o)] p
  = Ok (map (fun k => (IZR k * 10 / IZR (Zfloor (10 / p)), - o))
            (range 1 (Zfloor (10 / p)))).
Proof.
  intros Hp.
  rewrite distributeAlongPath_two;
    [| intros H; injection H as H; lra | lra].
  rewrite lineLength_horizontal by lra.
  replace (10 - 0) with 10 by lra. replace (0 + 10) with 10 by lra.
  apply f_equal. apply map_ext_in. intros k Hk. apply in_range in Hk.
  assert (Hn : 2 <= IZR (Zfloor (10 / p))) by (apply IZR_le; lia).
  cbn [fst snd]. apply f_equal2; field; lra.
Qed.

(** Single-row generation on [straight], at any offset [o > 0] and any
    pitch [p > 0]. *)
Lemma straight_row_at (o p : R) :
  0 < o -> 0 < p ->
  generateViaFence Examples.straightClipper [Examples.straight] o p
  = Ok (Examples.straightRowAt o p).
Proof.
  intros Ho Hp. unfold generateViaFence.
  rewrite removeZeroLengthTracks_straight. cbn [bind].
  cbn [expandPathsToPolygons Examples.straightClipper mapM].
  unfold fencePolygon at 1.
  change (getPathsInsidePolygon Examples.straightClipper [Examples.straight] _)
    with [Examples.straight].
  cbn [length Nat.eqb]. rewrite straight_leaves. cbn [bind fst snd].
  rewrite (straight_trimmed o _ _ _ Ho). cbn [bind].
  unfold viasOnPolygon.
  rewrite (straight_butt_lines o Ho).
  change (splitPathByPaths [(0, - o); (10, - o); (10, o); (0, o)]
            [(1, 2); (3, 0)]%Z)
    with (Ok [[(10, o); (0, o)]; [(0, - o); (10, - o)]]).
  cbn [bind mapM].
  pose proof (viasOnFencePath_two _ _ _ _ (distributeAlongPath_upper_at o p Hp))
    as Hupper.
  pose proof (viasOnFencePath_two _ _ _ _ (distributeAlongPath_lower_at o p Hp))
    as Hlower.
  unfold Path, Point in *. rewrite Hupper, Hlower.
  cbn [bind concat]. rewrite !app_nil_r. reflexivity.
Qed.

Lemma Zfloor_10_half : Zfloor (10 / (1 / 2)) = 20%Z.
Proof. apply Zfloor_eq. lra. Qed.

Lemma default_row_spacing_collapses_witness :
  0 <= 1 / 2 < 2 / 3 /\ (2 <= 2)%Z
  /\ generateViaFence Examples.straightClipper [Examples.straight] 1 (1 / 2)
     = Ok (Examples.straightRowAt 1 (1 / 2))
  /\ hd (0, 0) (Examples.straightRowAt 1 (1 / 2)) = (10, 1)
  /\ length (Examples.straightRowAt 1 (1 / 2)) = 42%nat
  /\ generateViaFenceMultiRow Examples.straightClipper [Examples.straight]
       1 (1 / 2) 2 None
     = Ok (concat (repeat (Examples.straightRowAt 1 (1 / 2)) (Z.to_nat 2))).
Proof.
  assert (Hrow : generateViaFence Examples.straightClipper [Examples.straight]
                   1 (1 / 2) = Ok (Examples.straightRowAt 1 (1 / 2)))
    by (apply straight_row_at; lra).
  split; [lra |]. split; [lia |]. split; [exact Hrow |].
  split; [reflexivity |]. split.
  - unfold Examples.straightRowAt. rewrite Zfloor_10_half.
    rewrite !length_app, !length_map, !length_range. reflexivity.
  - apply default_row_spacing_collapses; [lra | lia | exact Hrow].
Defined.

(* ===================================================================== *)
(** * Where the vias of a fence path are *)
(* ===================================================================== *)

Lemma bind_ok {A B : Type} (m : py A) (k : A -> py B) (b : B) :
  bind m k = Ok b -> exists a, m = Ok a /\ k a = Ok b.
Proof. destruct m as [a | e]; cbn; [now exists a | discriminate]. Qed.

Lemma mapM_inv {A B : Type} (f : A -> py B) (l : list A) (bs : list B) :
  mapM f l = Ok bs -> forall b, In b bs -> exists a, In a l /\ f a = Ok b.
Proof.
  revert bs. induction l as [| a l IH]; intros bs H b Hb.
  - cbn in H. injection H as <-. destruct Hb.
  - cbn [mapM] in H. apply bind_ok in H. destruct H as [b0 [Hf H]].
    apply bind_ok in H. destruct H as [bs0 [Hl H]].
    injection H as <-. destruct Hb as [<- | Hb].
    + exists a. split; [now left | exact Hf].
    + destruct (IH bs0 Hl b Hb) as [a' [Ha' Hfa']].
      exists a'. split; [now right | exact Hfa'].
Qed.

Lemma index_In {A : Type} (l : list A) (i : Z) (a : A) :
  index l i = Ok a -> In a l.
Proof.
  unfold index.
  destruct ((if (i <? 0)%Z then (i + Z.of_nat (length l))%Z else i) <? 0)%Z;
    [discriminate |].
  destruct (nth_error l _) as [x |] eqn:E; [| discriminate].
  intros [= <-]. now apply nth_error_In in E.
Qed.

(** A point on a contiguous piece of a path is on the path. *)
Lemma onPath_slice (before sub after : Path) (pt : Point) :
  onPath sub pt -> onPath (before ++ sub ++ after) pt.
Proof.
  intros [Hin | [i [t [Hi [Ht [Hx Hy]]]]]].
  - left. apply in_or_app. right. apply in_or_app. now left.
  - right. exists (length before + i)%nat, t.
    assert (Hv : forall j, (j < length sub)%nat ->
                 vertex (before ++ sub ++ after) (length before + j)
                 = vertex sub j).
    { intros j Hj. unfold vertex.
      rewrite app_nth2 by lia.
      replace (length before + j - length before)%nat with j by lia.
      now rewrite app_nth1 by lia. }
    replace (length before + i + 1)%nat with (length before + (i + 1))%nat
      by lia.
    rewrite !Hv by lia.
    split; [rewrite !length_app; lia |].
    split; [exact Ht |]. split; assumption.
Qed.

Lemma onPath_firstn_skipn (path : Path) (a m : nat) (pt : Point) :
  onPath (firstn m (skipn a path)) pt -> onPath path pt.
Proof.
  intros H.
  rewrite <- (firstn_skipn a path).
  rewrite <- (firstn_skipn m (skipn a path)).
  now apply onPath_slice.
Qed.

(** Every candidate that [distributeAlongPath] returns is on the path. *)
Lemma distributeAlongPath_onPath (path : Path) (minimumSpacing : R)
  (pts : list Point) :
  distributeAlongPath path minimumSpacing = Ok pts ->
  forall v, In v pts -> onPath path v.
Proof.
  unfold distributeAlongPath. intros H v Hv.
  rewrite (index_last _ 0 (getPathCumDist_nonempty path)) in H.
  cbn [bind] in H. fold (pathLength path) in H.
  destruct (Req_dec_T minimumSpacing 0) as [| Hp]; [discriminate |].
  apply bind_ok in H. destruct H as [pi [Hinit H]].
  assert (Hpath : noZeroSegment path)
    by (apply PathInterpolator_init_ok_iff; now exists pi).
  destruct (mapM_inv _ _ _ H v Hv) as [k [Hk Hcall]].
  apply in_range in Hk.
  set (L := pathLength path) in *.
  set (n := Zfloor (L / minimumSpacing)) in *.
  pose proof (pathLength_nonneg path Hpath) as HL. fold L in HL.
  pose proof (Zfloor_bound (L / minimumSpacing)) as [Hfl _]. fold n in Hfl.
  assert (Hn2 : 2 <= IZR n) by (apply IZR_le; lia).
  assert (HkR : 1 <= IZR k) by (apply IZR_le; lia).
  assert (HknR : IZR k + 1 <= IZR n).
  { rewrite <- (plus_IZR k 1). apply IZR_le. lia. }
  assert (HLpos : 0 < L).
  { destruct HL as [HL | HL]; [exact HL |].
    exfalso. rewrite <- HL in Hfl. unfold Rdiv in Hfl.
    rewrite Rmult_0_l in Hfl. lra. }
  assert (Hd : 0 < IZR k * L / IZR n <= L).
  { split.
    - apply Rdiv_lt_0_compat; [| lra]. apply Rmult_lt_0_compat; lra.
    - apply Rmult_le_reg_r with (IZR n); [lra |].
      unfold Rdiv. rewrite Rmult_assoc, Rinv_l by lra. nra. }
  destruct (PathInterpolator_call_inside path pi _ Hpath Hinit Hd)
    as [pt [Hpt Hat]].
  assert (pt = v) by congruence. subst pt.
  destruct Hat as [i [t [Hi [Ht [Hx [Hy _]]]]]].
  right. exists i, t. repeat split; try assumption; apply Ht.
Qed.

(** The pairs of consecutive fixed points: each goes forward inside the
    path, or ends at the index [-1]. *)
Lemma consecutive_fixed_points (h : nat -> bool) (m s a : nat) (x y : Z) :
  (a < s)%nat ->
  In (x, y) (consecutive (Z.of_nat a
                            :: map Z.of_nat (filter h (seq s m)) ++ [(-1)%Z])) ->
  exists i, x = Z.of_nat i
            /\ ((exists j, y = Z.of_nat j /\ (i < j < s + m)%nat)
                \/ (y = (-1)%Z /\ (i < s + m)%nat)).
Proof.
  revert s a. induction m as [| m IH]; intros s a Has Hin.
  - cbn in Hin. destruct Hin as [E | []]. injection E as <- <-.
    exists a. split; [reflexivity |]. right. split; [reflexivity | lia].
  - cbn [seq filter] in Hin. destruct (h s).
    + cbn [map app consecutive] in Hin.
      destruct Hin as [E | Hin].
      * injection E as <- <-. exists a. split; [reflexivity |].
        left. exists s. split; [reflexivity | lia].
      * destruct (IH (S s) s (Nat.lt_succ_diag_r s) Hin)
          as [i [Hx Hy]].
        exists i. split; [exact Hx |].
        destruct Hy as [[j [Hj Hij]] | [Hy Hi]].
        -- left. exists j. split; [exact Hj | lia].
        -- right. split; [exact Hy | lia].
    + assert (Has' : (a < S s)%nat) by lia.
      destruct (IH (S s) a Has' Hin) as [i [Hx Hy]].
      exists i. split; [exact Hx |].
      destruct Hy as [[j [Hj Hij]] | [Hy Hi]].
      * left. exists j. split; [exact Hj | lia].
      * right. split; [exact Hy | lia].
Qed.

(** The bend points that survive the filter for sharp junctions are still
    a selection of the interior indices, in their order. *)
Lemma bend_points_selection (fencePath : Path) :
  exists h,
    filterSharpJunctions fencePath (getPathVertices fencePath tolerance_degree)
    = map Z.of_nat (filter h (seq 1 (length fencePath - 2))).
Proof.
  unfold filterSharpJunctions, getPathVertices.
  destruct (length (map Z.of_nat _) <? 2)%nat.
  - eexists. reflexivity.
  - rewrite filter_map_swap.
    match goal with
    | |- context [filter ?g (filter ?f ?l)] =>
        exists (fun x => f x && g x)
    end.
    f_equal.
    generalize (seq 1 (length fencePath - 2)). intros l.
    induction l as [| a l IH]; [reflexivity |]. cbn [filter].
    match goal with
    | |- context [if ?c then a :: _ else _] => destruct c
    end; cbn [filter andb].
    + match goal with
      | |- context [if ?c then a :: _ else _] => destruct c
      end; now rewrite IH.
    + exact IH.
Qed.

Lemma getSubPath_to_end (path : Path) (i : nat) :
  (i < length path)%nat ->
  getSubPath path (Z.of_nat i, (-1)%Z) = Ok (skipn i path).
Proof.
  intros Hi.
  assert (Hne : path <> []) by (destruct path; [cbn in Hi; lia | congruence]).
  rewrite (getSubPath_ok path _ (0, 0) Hne). cbn [fst snd].
  destruct (Z.ltb_spec (-1) (Z.of_nat i)) as [_ | H]; [| lia].
  apply f_equal.
  apply (nth_ext _ _ (0, 0) (0, 0)).
  - rewrite length_map, length_range, length_skipn. lia.
  - intros k Hk. rewrite length_map, length_range in Hk.
    rewrite (nth_indep _ (0, 0)
               ((fun i0 => nth (Z.to_nat (i0 mod Z.of_nat (length path)))
                             path (0, 0)) 0%Z))
      by (rewrite length_map, length_range; exact Hk).
    rewrite (map_nth (fun i0 => nth (Z.to_nat (i0 mod Z.of_nat (length path)))
                                  path (0, 0))).
    rewrite nth_range by exact Hk.
    rewrite Z.mod_small by lia.
    rewrite nth_skipn. f_equal. lia.
Qed.

(** Every sub-path between two consecutive fixed points is a contiguous
    piece of the fence path. *)
Lemma fixed_point_subpaths (fencePath : Path) (subPaths : list Path) :
  fencePath <> [] ->
  splitPathByPoints fencePath (fixPointIdxList fencePath) = Ok subPaths ->
  forall sub, In sub subPaths ->
              exists a m, sub = firstn m (skipn a fencePath).
Proof.
  intros Hne Hsplit sub Hsub.
  unfold splitPathByPoints, getSubPaths, fixPointIdxList in Hsplit.
  destruct (bend_points_selection fencePath) as [h Hh].
  rewrite Hh in Hsplit.
  destruct (mapM_inv _ _ _ Hsplit sub Hsub) as [[x y] [Hxy Hget]].
  apply filter_In in Hxy. destruct Hxy as [Hxy _].
  cbn [app] in Hxy.
  apply (consecutive_fixed_points h _ 1 0) in Hxy; [| lia].
  assert (Hlen : (1 <= length fencePath)%nat)
    by (destruct fencePath; [congruence | cbn; lia]).
  destruct Hxy as [i [-> [[j [-> Hij]] | [-> Hi]]]].
  - rewrite getSubPath_forward in Hget by lia.
    injection Hget as <-. eauto.
  - rewrite getSubPath_to_end in Hget by lia.
    injection Hget as <-. exists i, (length fencePath).
    symmetry. apply firstn_all2. rewrite length_skipn. lia.
Qed.

Lemma viasOnFencePath_onPath (fencePath : Path) (viaPitch : R)
  (vias : list Point) :
  viasOnFencePath fencePath viaPitch = Ok vias ->
  forall v, In v vias -> onPath fencePath v.
Proof.
  unfold viasOnFencePath. intros H.
  apply bind_ok in H. destruct H as [fixPointList [Hfix H]].
  apply bind_ok in H. destruct H as [subPaths [Hsplit H]].
  apply bind_ok in H. destruct H as [placed [Hplaced H]].
  injection H as <-.
  assert (Hne : fencePath <> []).
  { intros ->. unfold fixPointIdxList in Hfix. cbn in Hfix. discriminate. }
  intros v Hv. apply in_app_or in Hv. destruct Hv as [Hv | Hv].
  - left. destruct (mapM_inv _ _ _ Hfix v Hv) as [i [_ Hi]].
    now apply index_In in Hi.
  - apply in_concat in Hv. destruct Hv as [pl [Hpl Hv]].
    destruct (mapM_inv _ _ _ Hplaced pl Hpl) as [sub [Hsub Hdist]].
    destruct (fixed_point_subpaths fencePath subPaths Hne Hsplit sub Hsub)
      as [a [m ->]].
    apply (onPath_firstn_skipn fencePath a m).
    exact (distributeAlongPath_onPath _ _ _ Hdist v Hv).
Qed.

(** X23.  Every via that a fence path contributes lies on the fence path:
    it is one of its vertices or a point of one of its segments.  The
    first and the last vertex of the fence path are always among them. *)
Theorem vias_lie_on_the_fence_path (fencePath : Path) (viaPitch : R)
  (vias : list Point) :
  viasOnFencePath fencePath viaPitch = Ok vias ->
  (forall v, In v vias -> onPath fencePath v)
  /\ In (vertex fencePath 0) vias
  /\ In (last fencePath (0, 0)) vias.
Proof.
  intros H0.
  split; [exact (viasOnFencePath_onPath fencePath viaPitch vias H0) |].
  revert H0. unfold viasOnFencePath. intros H.
  apply bind_ok in H. destruct H as [fixPointList [Hfix H]].
  apply bind_ok in H. destruct H as [subPaths [Hsplit H]].
  apply bind_ok in H. destruct H as [placed [Hplaced H]].
  injection H as <-.
  assert (Hne : fencePath <> []).
  { intros ->. unfold fixPointIdxList in Hfix. cbn in Hfix. discriminate. }
  split.
  - apply in_or_app. left.
    unfold fixPointIdxList in Hfix. cbn [app mapM] in Hfix.
    apply bind_ok in Hfix. destruct Hfix as [p0 [H0 Hfix]].
    apply bind_ok in Hfix. destruct Hfix as [rest [_ Hfix]].
    injection Hfix as <-.
    change (index fencePath 0) with (index fencePath (Z.of_nat 0)) in H0.
    rewrite (index_nat fencePath 0 (0, 0)) in H0
      by (destruct fencePath; [congruence | cbn; lia]).
    injection H0 as <-. now left.
  - apply in_or_app. left.
    unfold fixPointIdxList in Hfix.
    assert (Hin : In (-1)%Z
                    ([0%Z]
                     ++ filterSharpJunctions fencePath
                          (getPathVertices fencePath tolerance_degree)
                     ++ [(-1)%Z])).
    { apply in_or_app. right. apply in_or_app. right. now left. }
    clear Hsplit Hplaced.
    revert fixPointList Hfix Hin.
    generalize ([0%Z]
                ++ filterSharpJunctions fencePath
                     (getPathVertices fencePath tolerance_degree)
                ++ [(-1)%Z]).
    intros idxs. induction idxs as [| i idxs IH]; intros fps Hfix Hin.
    + destruct Hin.
    + cbn [mapM] in Hfix.
      apply bind_ok in Hfix. destruct Hfix as [p [Hp Hfix]].
      apply bind_ok in Hfix. destruct Hfix as [rest [Hrest Hfix]].
      injection Hfix as <-. destruct Hin as [-> | Hin].
      * rewrite (index_last fencePath (0, 0) Hne) in Hp.
        injection Hp as <-. now left.
      * right. now apply (IH rest).
Qed.

Lemma vias_lie_on_the_fence_path_witness :
  viasOnFencePath Examples.hairpin 2000 = Ok [(0, 0); (1000, 0); (15, 174)]
  /\ (forall v, In v [(0, 0); (1000, 0); (15, 174)] ->
                onPath Examples.hairpin v).
Proof.
  split; [exact hairpin_vias |].
  exact (proj1 (vias_lie_on_the_fence_path Examples.hairpin 2000 _
                  hairpin_vias)).
Defined.

(** A point on a sub-path that [getSubPath] cut out of a closed polygon
    is on the boundary of the polygon. *)
Lemma getSubPath_onPolygon (path sub : Path) (pathSpec : Z * Z) (pt : Point) :
  getSubPath path pathSpec = Ok sub -> onPath sub pt -> onPolygon path pt.
Proof.
  intros Hget Hon.
  destruct path as [| p0 path'] eqn:Epath.
  { exfalso. destruct pathSpec as [start stop].
    rewrite getSubPath_empty_path in Hget.
    destruct (start <=? stop)%Z; [discriminate |]. injection Hget as <-.
    destruct Hon as [[] | [i [t [Hi _]]]]. cbn in Hi. lia. }
  rewrite <- Epath in *.
  assert (Hne : path <> []) by (rewrite Epath; discriminate).
  assert (Hn : (0 < length path)%nat) by (rewrite Epath; cbn; lia).
  rewrite (getSubPath_ok path pathSpec (0, 0) Hne) in Hget.
  injection Hget as Hsub.
  set (n := length path) in *.
  set (start := fst pathSpec) in *.
  set (stop := (if (snd pathSpec <? start)%Z
                then (snd pathSpec + Z.of_nat n)%Z else snd pathSpec)) in *.
  assert (Hlen : length sub = Z.to_nat (stop + 1 - start))
    by (rewrite <- Hsub, length_map, length_range; reflexivity).
  assert (Hv : forall k, (k < length sub)%nat ->
               vertex sub k
               = vertex path (Z.to_nat ((start + Z.of_nat k) mod Z.of_nat n))).
  { intros k Hk. unfold vertex. rewrite <- Hsub.
    rewrite (nth_indep _ (0, 0)
               ((fun i0 => nth (Z.to_nat (i0 mod Z.of_nat n)) path (0, 0))
                  0%Z))
      by (rewrite length_map, length_range; lia).
    rewrite (map_nth (fun i0 => nth (Z.to_nat (i0 mod Z.of_nat n)) path
                                  (0, 0))).
    rewrite nth_range by lia. reflexivity. }
  assert (Hmod : forall z, (0 <= z mod Z.of_nat n < Z.of_nat n)%Z)
    by (intros z; apply Z.mod_pos_bound; lia).
  destruct Hon as [Hin | [i [t [Hi [Ht [Hx Hy]]]]]].
  - destruct (In_nth sub pt (0, 0) Hin) as [k [Hk Enth]].
    fold (vertex sub k) in Enth. rewrite Hv in Enth by exact Hk.
    exists (Z.to_nat ((start + Z.of_nat k) mod Z.of_nat n)), 0.
    pose proof (Hmod (start + Z.of_nat k)%Z).
    split; [fold n; lia |]. split; [lra |].
    rewrite Enth. split; ring.
  - rewrite !Hv in Hx, Hy by lia.
    exists (Z.to_nat ((start + Z.of_nat i) mod Z.of_nat n)), t.
    pose proof (Hmod (start + Z.of_nat i)%Z) as Hb.
    split; [fold n; lia |]. split; [exact Ht |].
    assert (Enext :
      Nat.modulo (Z.to_nat ((start + Z.of_nat i) mod Z.of_nat n) + 1) n
      = Z.to_nat ((start + Z.of_nat (i + 1)) mod Z.of_nat n)).
    { apply Nat2Z.inj. rewrite Nat2Z.inj_mod, Nat2Z.inj_add, !Z2Nat.id
        by (try apply Hmod; lia).
      rewrite Nat2Z.inj_add. cbn [Z.of_nat Pos.of_succ_nat].
      rewrite Z.add_mod_idemp_l by lia. f_equal. lia. }
    fold n. rewrite Enext. split; assumption.
Qed.

(** X24.  Every via placed around an offset polygon lies on the boundary
    of that polygon: on one of its edges, the closing edge from the last
    vertex to the first included. *)
Theorem vias_lie_on_the_polygon (offsetPoly : Path)
  (leafVertexList : list Point) (viaPitch : R) (vias : list Point) :
  viasOnPolygon offsetPoly leafVertexList viaPitch = Ok vias ->
  forall v, In v vias -> onPolygon offsetPoly v.
Proof.
  unfold viasOnPolygon. intros H v Hv.
  apply bind_ok in H. destruct H as [fencePaths [Hsplit H]].
  apply bind_ok in H. destruct H as [placed [Hplaced H]].
  injection H as <-.
  apply in_concat in Hv. destruct Hv as [pl [Hpl Hv]].
  destruct (mapM_inv _ _ _ Hplaced pl Hpl) as [fencePath [Hfp Hvias]].
  unfold splitPathByPaths, getSubPaths in Hsplit.
  destruct (mapM_inv _ _ _ Hsplit fencePath Hfp) as [spec [_ Hget]].
  apply (getSubPath_onPolygon offsetPoly fencePath spec v Hget).
  exact (viasOnFencePath_onPath fencePath viaPitch pl Hvias v Hv).
Qed.

Lemma vias_lie_on_the_polygon_witness :
  viasOnPolygon [(0, - 1); (10, - 1); (10, 1); (0, 1)] [(0, 0); (10, 0)] 3
  = Ok (Examples.straightRow 1)
  /\ In (10, 1) (Examples.straightRow 1)
  /\ onPolygon [(0, - 1); (10, - 1); (10, 1); (0, 1)] (10, 1).
Proof.
  assert (H1 : viasOnPolygon [(0, - 1); (10, - 1); (10, 1); (0, 1)]
                 [(0, 0); (10, 0)] 3 = Ok (Examples.straightRow 1))
    by (apply straight_polygon; lra).
  assert (H2 : In (10, 1) (Examples.straightRow 1))
    by (left; reflexivity).
  split; [exact H1 |]. split; [exact H2 |].
  exact (vias_lie_on_the_polygon _ _ _ _ H1 _ H2).
Defined.

(* ===================================================================== *)
(** * Net filter suggestions *)
(* ===================================================================== *)

Lemma suggestLoop_empty_name (netList netFilterList rest : list str) :
  In [] rest -> suggestLoop netList netFilterList rest = Raise IndexError.
Proof.
  revert netFilterList. induction rest as [| n rest IH];
    intros netFilterList Hin; [destruct Hin |].
  cbn [suggestLoop]. destruct n as [| c n]; [reflexivity |].
  destruct Hin as [E | Hin]; [discriminate |]. now apply IH.
Qed.

Lemma suggestLoop_ok (netList rest netFilterList : list str) :
  ~ In [] rest ->
  exists added,
    suggestLoop netList netFilterList rest = Ok (netFilterList ++ added)
    /\ (forall n, In n rest -> In n added)
    /\ (forall stem c d,
          In (stem ++ [c]) rest -> diffMap c = Some d ->
          In (stem ++ [d]) netList ->
          In (stem ++ regexMap c) (netFilterList ++ added))
    /\ (forall e, In e added ->
          In e rest
          \/ exists stem c d,
               In (stem ++ [c]) rest /\ diffMap c = Some d
               /\ In (stem ++ [d]) netList /\ e = stem ++ regexMap c).
Proof.
  revert netFilterList. induction rest as [| n rest IH];
    intros netFilterList Hne.
  - exists []. rewrite app_nil_r. split; [reflexivity |].
    split; [intros n [] |]. split; [intros stem c d [] | intros e []].
  - cbn [suggestLoop]. destruct n as [| c0 n0] eqn:En;
      [exfalso; apply Hne; now left |].
    rewrite <- En in *.
    assert (Hn : n <> []) by (rewrite En; discriminate).
    destruct (exists_last Hn) as [stem [c Ens]].
    assert (Hlast : last n "000"%char = c) by (rewrite Ens; apply last_last).
    assert (Hstem : removelast n = stem)
      by (rewrite Ens; apply removelast_last).
    replace (match n with [] => Raise IndexError | _ :: _ => _ end)
      with (suggestLoop netList
              ((match diffMap (last n "000"%char) with
                | Some d =>
                    if in_dec str_eq_dec (removelast n ++ [d]) netList then
                      if in_dec str_eq_dec
                           (removelast n ++ regexMap (last n "000"%char))
                           netFilterList
                      then netFilterList
                      else netFilterList
                             ++ [removelast n
                                 ++ regexMap (last n "000"%char)]
                    else netFilterList
                | None => netFilterList
                end) ++ [n]) rest)
      by (rewrite En; reflexivity).
    rewrite Hlast, Hstem.
    assert (Hrest : ~ In [] rest) by (intros H; apply Hne; now right).
    set (acc := match diffMap c with
                | Some d =>
                    if in_dec str_eq_dec (stem ++ [d]) netList then
                      if in_dec str_eq_dec (stem ++ regexMap c) netFilterList
                      then netFilterList
                      else netFilterList ++ [stem ++ regexMap c]
                    else netFilterList
                | None => netFilterList
                end).
    (* what this iteration puts in front of the net name *)
    assert (Hacc : exists pre,
               acc = netFilterList ++ pre
               /\ (forall d, diffMap c = Some d -> In (stem ++ [d]) netList ->
                             In (stem ++ regexMap c) acc)
               /\ (forall e, In e pre ->
                             exists d, diffMap c = Some d
                                       /\ In (stem ++ [d]) netList
                                       /\ e = stem ++ regexMap c)).
    { unfold acc. destruct (diffMap c) as [d |] eqn:Ed.
      - destruct (in_dec str_eq_dec (stem ++ [d]) netList) as [Hp | Hp].
        + destruct (in_dec str_eq_dec (stem ++ regexMap c) netFilterList)
            as [Hf | Hf].
          * exists []. rewrite app_nil_r. split; [reflexivity |].
            split; [intros; exact Hf | intros e []].
          * exists [stem ++ regexMap c]. split; [reflexivity |]. split.
            -- intros. apply in_or_app. right. now left.
            -- intros e [<- | []]. exists d. auto.
        + exists []. rewrite app_nil_r. split; [reflexivity |].
          split; [| intros e []].
          intros d' [= <-] H. contradiction.
      - exists []. rewrite app_nil_r. split; [reflexivity |].
        split; [intros d [=] | intros e []]. }
    destruct Hacc as [pre [Eacc [Hpair Hpre]]].
    destruct (IH (acc ++ [n]) Hrest) as [added [Hok [Hall [Hpairs Honly]]]].
    exists (pre ++ [n] ++ added).
    split; [| split; [| split]].
    + rewrite Hok, Eacc, <- !app_assoc. reflexivity.
    + intros m [<- | Hm].
      * apply in_or_app. right. now left.
      * apply in_or_app. right. right. now apply Hall.
    + intros stem' c' d' [E | Hin] Hd Hp.
      * rewrite Ens in E. apply app_inj_tail in E. destruct E as [<- <-].
        replace (netFilterList ++ pre ++ [n] ++ added)
          with ((acc ++ [n]) ++ added)
          by (rewrite Eacc, <- !app_assoc; reflexivity).
        apply in_or_app. left. apply in_or_app. left.
        now apply (Hpair d').
      * replace (netFilterList ++ pre ++ [n] ++ added)
          with ((acc ++ [n]) ++ added)
          by (rewrite Eacc, <- !app_assoc; reflexivity).
        now apply (Hpairs stem' c' d').
    + intros e He. apply in_app_or in He. destruct He as [He | He].
      * right. destruct (Hpre e He) as [d [Hd [Hp ->]]].
        exists stem, c, d. rewrite <- Ens.
        split; [now left |]. auto.
      * destruct He as [<- | He]; [left; now left |].
        destruct (Honly e He) as [Hr | [s [c' [d' [Hr H]]]]].
        -- left. now right.
        -- right. exists s, c', d'. split; [now right | exact H].
Qed.

(** X25.  [createNetFilterSuggestions] raises [IndexError] as soon as one
    net has an empty name.  Otherwise the list it returns starts with
    ["*"], contains every net name, contains the entry [stem[+-]] or
    [stem[PN]] for every net [stem+], [stem-], [stemP], [stemN] whose
    partner is a net of the board, and contains nothing else. *)
Theorem createNetFilterSuggestions_spec (netList : list str) :
  (In [] netList -> createNetFilterSuggestions netList = Raise IndexError)
  /\ (~ In [] netList ->
      exists suggestions,
        createNetFilterSuggestions netList = Ok (["*"%char] :: suggestions)
        /\ (forall n, In n netList -> In n suggestions)
        /\ (forall stem c d,
              In (stem ++ [c]) netList -> diffMap c = Some d ->
              In (stem ++ [d]) netList ->
              In (stem ++ regexMap c) (["*"%char] :: suggestions))
        /\ (forall e, In e suggestions ->
              In e netList
              \/ exists stem c d,
                   In (stem ++ [c]) netList /\ diffMap c = Some d
                   /\ In (stem ++ [d]) netList /\ e = stem ++ regexMap c)).
Proof.
  unfold createNetFilterSuggestions. split.
  - apply suggestLoop_empty_name.
  - intros Hne.
    destruct (suggestLoop_ok netList netList [["*"%char]] Hne)
      as [added [Hok [Hall [Hpairs Honly]]]].
    exists added. split; [exact Hok |]. split; [exact Hall |].
    split; [exact Hpairs | exact Honly].
Qed.

(* ===================================================================== *)
(** * Sub-paths with a segment of length zero (C4) *)
(* ===================================================================== *)


